(** * FUDG graphs: a shallow embedding of [scripts/graph.py]

    The Python module builds an underspecified dependency graph out of
    mutable node objects that point at each other, and then runs two
    constraint-propagation passes ([upward], [downward]) over it.  This
    file embeds the node model, edge insertion with its cycle check, the
    fragment bookkeeping, CBB ("bundle") aliasing, the two passes and the
    projectivity query, and proves the properties the specification states
    about them.

    Modelling conventions.

    - An object is a reference ([ref], a natural number standing for the
      object's identity).  The heap is stored attribute by attribute: one
      finite map per Python attribute, from references to values.
    - Python sets are [gset]s.  The order in which a [for] loop visits a
      set is not fixed by Python; it is a parameter [iter] of the whole
      development, and the theorems hold for every such order.
    - [become_pointer] makes six attributes of the alias refer to the
      very set objects of the other bundle.  Set objects are only created
      by constructors, so a set object is named by the node whose
      constructor made it, and [f_sets] records, per node, whose set
      objects its attributes are currently bound to.
    - Exceptions keep the heap as it is when they are raised: a
      computation is a function from a state to an [Outcome], which carries
      the state in both cases.  Each [assert] is identified by its line.
    - Recursive methods take their fuel from [recursion_limit]; running out
      is Python's "maximum recursion depth exceeded" ([RuntimeError]). *)

From stdpp Require Import gmap strings list fin_sets.
From Stdlib Require Import ZArith.

#[local] Set Warnings "-clear-no-such-hyp".

Local Open Scope Z_scope.

Abbreviation ref := nat (only parsing).
Abbreviation label := (option string) (only parsing).

(** ** Classes and heap *)

Inductive pyclass := RootNode | LexicalNode | CoordinationNode | CBBNode.

#[global] Instance pyclass_eq_dec : EqDecision pyclass.
Proof. solve_decision. Defined.

(** Attributes fixed by the constructors. *)
Record Static := mkStatic {
  f_class : gmap ref pyclass;
  f_name : gmap ref string;
  f_tokens : gmap ref (gset string);
}.

(** Edges and bundle structure.  The six set-valued tables are indexed by
    the owner of the set object, see [f_sets]. *)
Record Topology := mkTopology {
  f_children : gmap ref (gset ref);
  f_childedges : gmap ref (gset (ref * label));
  f_parentedges : gmap ref (gset (ref * label));
  f_parents : gmap ref (gset ref);
  f_members : gmap ref (gset ref);
  f_externalchildren : gmap ref (gset ref);
  f_sets : gmap ref ref;
  f_top : gmap ref ref;
  f_pointerto : gmap ref ref;
}.

(** The four attributes that [CBBNode.__getattr__]/[__setattr__] forward.
    An absent entry of the two candidate tables is Python's [None]. *)
Record Attrs := mkAttrs {
  f_height : gmap ref Z;
  f_depth : gmap ref Z;
  f_parentcandidates : gmap ref (gset ref);
  f_topcandidates : gmap ref (gset ref);
}.

(** [Fragment] objects, named by the node whose constructor made them. *)
Record Frags := mkFrags {
  f_frag : gmap ref ref;
  F_roots : gmap ref (gset ref);
  F_nodes : gmap ref (gset ref);
}.

Record State := mkState {
  static : Static;
  topo : Topology;
  attrs : Attrs;
  frags : Frags;
  G_nodes : gset ref;
  G_alltokens : list string;
  G_token2lexnode : gmap string ref;
}.

(** *** Field updates *)

Definition with_static (f : Static → Static) (s : State) : State :=
  mkState (f (static s)) (topo s) (attrs s) (frags s)
          (G_nodes s) (G_alltokens s) (G_token2lexnode s).
Definition with_topo (f : Topology → Topology) (s : State) : State :=
  mkState (static s) (f (topo s)) (attrs s) (frags s)
          (G_nodes s) (G_alltokens s) (G_token2lexnode s).
Definition with_attrs (f : Attrs → Attrs) (s : State) : State :=
  mkState (static s) (topo s) (f (attrs s)) (frags s)
          (G_nodes s) (G_alltokens s) (G_token2lexnode s).
Definition with_frags (f : Frags → Frags) (s : State) : State :=
  mkState (static s) (topo s) (attrs s) (f (frags s))
          (G_nodes s) (G_alltokens s) (G_token2lexnode s).
Definition with_G_nodes (X : gset ref) (s : State) : State :=
  mkState (static s) (topo s) (attrs s) (frags s)
          X (G_alltokens s) (G_token2lexnode s).
Definition with_G_alltokens (l : list string) (s : State) : State :=
  mkState (static s) (topo s) (attrs s) (frags s)
          (G_nodes s) l (G_token2lexnode s).
Definition with_G_token2lexnode (m : gmap string ref) (s : State) : State :=
  mkState (static s) (topo s) (attrs s) (frags s)
          (G_nodes s) (G_alltokens s) m.

Definition up_children (g : gmap ref (gset ref) → gmap ref (gset ref)) (t : Topology) :=
  mkTopology (g (f_children t)) (f_childedges t) (f_parentedges t) (f_parents t)
             (f_members t) (f_externalchildren t) (f_sets t) (f_top t) (f_pointerto t).
Definition up_childedges (g : gmap ref (gset (ref * label)) → gmap ref (gset (ref * label)))
    (t : Topology) :=
  mkTopology (f_children t) (g (f_childedges t)) (f_parentedges t) (f_parents t)
             (f_members t) (f_externalchildren t) (f_sets t) (f_top t) (f_pointerto t).
Definition up_parentedges (g : gmap ref (gset (ref * label)) → gmap ref (gset (ref * label)))
    (t : Topology) :=
  mkTopology (f_children t) (f_childedges t) (g (f_parentedges t)) (f_parents t)
             (f_members t) (f_externalchildren t) (f_sets t) (f_top t) (f_pointerto t).
Definition up_parents (g : gmap ref (gset ref) → gmap ref (gset ref)) (t : Topology) :=
  mkTopology (f_children t) (f_childedges t) (f_parentedges t) (g (f_parents t))
             (f_members t) (f_externalchildren t) (f_sets t) (f_top t) (f_pointerto t).
Definition up_members (g : gmap ref (gset ref) → gmap ref (gset ref)) (t : Topology) :=
  mkTopology (f_children t) (f_childedges t) (f_parentedges t) (f_parents t)
             (g (f_members t)) (f_externalchildren t) (f_sets t) (f_top t) (f_pointerto t).
Definition up_externalchildren (g : gmap ref (gset ref) → gmap ref (gset ref))
    (t : Topology) :=
  mkTopology (f_children t) (f_childedges t) (f_parentedges t) (f_parents t)
             (f_members t) (g (f_externalchildren t)) (f_sets t) (f_top t) (f_pointerto t).
Definition up_sets (g : gmap ref ref → gmap ref ref) (t : Topology) :=
  mkTopology (f_children t) (f_childedges t) (f_parentedges t) (f_parents t)
             (f_members t) (f_externalchildren t) (g (f_sets t)) (f_top t) (f_pointerto t).
Definition up_top (g : gmap ref ref → gmap ref ref) (t : Topology) :=
  mkTopology (f_children t) (f_childedges t) (f_parentedges t) (f_parents t)
             (f_members t) (f_externalchildren t) (f_sets t) (g (f_top t)) (f_pointerto t).
Definition up_pointerto (g : gmap ref ref → gmap ref ref) (t : Topology) :=
  mkTopology (f_children t) (f_childedges t) (f_parentedges t) (f_parents t)
             (f_members t) (f_externalchildren t) (f_sets t) (f_top t) (g (f_pointerto t)).

Definition up_height (g : gmap ref Z → gmap ref Z) (a : Attrs) :=
  mkAttrs (g (f_height a)) (f_depth a) (f_parentcandidates a) (f_topcandidates a).
Definition up_depth (g : gmap ref Z → gmap ref Z) (a : Attrs) :=
  mkAttrs (f_height a) (g (f_depth a)) (f_parentcandidates a) (f_topcandidates a).
Definition up_parentcandidates (g : gmap ref (gset ref) → gmap ref (gset ref)) (a : Attrs) :=
  mkAttrs (f_height a) (f_depth a) (g (f_parentcandidates a)) (f_topcandidates a).
Definition up_topcandidates (g : gmap ref (gset ref) → gmap ref (gset ref)) (a : Attrs) :=
  mkAttrs (f_height a) (f_depth a) (f_parentcandidates a) (g (f_topcandidates a)).

Definition up_frag (g : gmap ref ref → gmap ref ref) (f : Frags) :=
  mkFrags (g (f_frag f)) (F_roots f) (F_nodes f).
Definition up_roots (g : gmap ref (gset ref) → gmap ref (gset ref)) (f : Frags) :=
  mkFrags (f_frag f) (g (F_roots f)) (F_nodes f).
Definition up_nodes (g : gmap ref (gset ref) → gmap ref (gset ref)) (f : Frags) :=
  mkFrags (f_frag f) (F_roots f) (g (F_nodes f)).

(** ** Reading the heap *)

Definition class_of (s : State) (n : ref) : option pyclass := f_class (static s) !! n.
Definition name (s : State) (n : ref) : string := f_name (static s) !!! n.
Definition tokens (s : State) (n : ref) : gset string := f_tokens (static s) !!! n.

Definition isRoot (s : State) (n : ref) : bool := bool_decide (class_of s n = Some RootNode).
Definition isCoord (s : State) (n : ref) : bool :=
  bool_decide (class_of s n = Some CoordinationNode).
Definition isLexical (s : State) (n : ref) : bool :=
  bool_decide (class_of s n = Some LexicalNode).
Definition isCBB (s : State) (n : ref) : bool := bool_decide (class_of s n = Some CBBNode).
(** [isFirm]: "anything but a CBB (fudge) node". *)
Definition isFirm (s : State) (n : ref) : bool := isRoot s n || isLexical s n || isCoord s n.

(** The owner of the set objects that the attributes [children],
    [childedges], [parentedges], [parents], [members] and
    [externalchildren] of [n] are bound to. *)
Definition sets_of (s : State) (n : ref) : ref := default n (f_sets (topo s) !! n).

Definition children (s : State) (n : ref) : gset ref := f_children (topo s) !!! sets_of s n.
Definition childedges (s : State) (n : ref) : gset (ref * label) :=
  f_childedges (topo s) !!! sets_of s n.
Definition parentedges (s : State) (n : ref) : gset (ref * label) :=
  f_parentedges (topo s) !!! sets_of s n.
Definition parents (s : State) (n : ref) : gset ref := f_parents (topo s) !!! sets_of s n.
Definition members (s : State) (n : ref) : gset ref := f_members (topo s) !!! sets_of s n.
Definition externalchildren (s : State) (n : ref) : gset ref :=
  f_externalchildren (topo s) !!! sets_of s n.

Definition top (s : State) (n : ref) : option ref := f_top (topo s) !! n.
(** [_pointerto] exists on CBB nodes only. *)
Definition _pointerto (s : State) (n : ref) : option ref :=
  if isCBB s n then f_pointerto (topo s) !! n else None.

Definition frag (s : State) (n : ref) : ref := default n (f_frag (frags s) !! n).
Definition roots (s : State) (f : ref) : gset ref := F_roots (frags s) !!! f.
Definition nodes (s : State) (f : ref) : gset ref := F_nodes (frags s) !!! f.

(** [CBBNode.__getattr__]: an alias reads the underscore attribute of the
    node it points to (one step, [getattr(self._pointerto, '_'+name)]);
    every other node reads its own. *)
Definition getattr_cell (s : State) (n : ref) : ref := default n (_pointerto s n).

Definition height (s : State) (n : ref) : Z := f_height (attrs s) !!! getattr_cell s n.
Definition depth (s : State) (n : ref) : Z := f_depth (attrs s) !!! getattr_cell s n.
Definition topcandidates (s : State) (n : ref) : option (gset ref) :=
  f_topcandidates (attrs s) !! getattr_cell s n.
Definition parentcandidates (s : State) (n : ref) : option (gset ref) :=
  f_parentcandidates (attrs s) !! getattr_cell s n.

(** [CBBNode.__setattr__] calls itself on [_pointerto] until it reaches a
    node that is not an alias; [None] when the chain is longer than the
    fuel. *)
Fixpoint setattr_cell (fuel : nat) (s : State) (n : ref) : option ref :=
  match fuel with
  | O => None
  | S k => match _pointerto s n with
           | Some c => setattr_cell k s c
           | None => Some n
           end
  end.

(** ** Exceptions and the state monad *)

Inductive error :=
  | AssertionError (line : nat)
  | CycleError        (* line 80: raise Exception('... would create a cycle!') *)
  | TypeError
  | ValueError
  | RuntimeError.     (* maximum recursion depth exceeded *)

#[global] Instance error_eq_dec : EqDecision error.
Proof. solve_decision. Defined.

Inductive Outcome (A : Type) :=
  | Ret (a : A) (s : State)
  | Exn (e : error) (s : State).
Arguments Ret {A} a s.
Arguments Exn {A} e s.

Definition M (A : Type) := State → Outcome A.

Definition ret {A} (a : A) : M A := λ s, Ret a s.
Definition raise {A} (e : error) : M A := λ s, Exn e s.
Definition bind {A B} (m : M A) (k : A → M B) : M B :=
  λ s, match m s with
       | Ret a s' => k a s'
       | Exn e s' => Exn e s'
       end.
Definition get : M State := λ s, Ret s s.
Definition modify (f : State → State) : M unit := λ s, Ret tt (f s).
Definition py_assert (line : nat) (b : bool) : M unit :=
  if b then ret tt else raise (AssertionError line).

Notation "x <- m ;; k" := (bind m (λ x, k))
  (at level 100, m at next level, right associativity, only parsing).
Notation "m ;;; k" := (bind m (λ _, k))
  (at level 100, right associativity, only parsing).

(** The state an outcome leaves behind. *)
Definition final {A} (o : Outcome A) : State :=
  match o with Ret _ s => s | Exn _ s => s end.

(** [for x in xs: body(x)] over an iteration order already fixed. *)
Fixpoint for_each {A} (xs : list A) (body : A → M unit) : M unit :=
  match xs with
  | [] => ret tt
  | x :: xs' => body x ;;; for_each xs' body
  end.

(** [sorted(xs, key=key)]: Python's sort is stable, and so is inserting
    each element, from the right, in front of the first element whose key
    is not below its own. *)
Fixpoint insert_sorted (key : ref → Z) (x : ref) (l : list ref) : list ref :=
  match l with
  | [] => [x]
  | y :: l' => if (key y <? key x) then y :: insert_sorted key x l' else x :: l
  end.
Definition sorted (key : ref → Z) (l : list ref) : list ref :=
  foldr (insert_sorted key) [] l.

(** [list.index]: position of the first occurrence, [None] for Python's
    [ValueError]. *)
Fixpoint list_index (x : string) (l : list string) : option nat :=
  match l with
  | [] => None
  | y :: l' => if decide (y = x) then Some O else S <$> list_index x l'
  end.

(** [max] and [min] of a non-empty iterable; [None] is [ValueError]. *)
Definition py_max (l : list nat) : option nat :=
  match l with [] => None | x :: l' => Some (foldl Nat.max x l') end.
Definition py_min (l : list nat) : option nat :=
  match l with [] => None | x :: l' => Some (foldl Nat.min x l') end.

(** Values that can sit in the set built by [FUDGNode.descendants].
    [descendantsIter] returns [itertools.groupby(itertools.chain(
    self.children, itertools.imap(FUDGNode.descendantsIter, self.children)))]:
    the chain yields the children and then, for each child, the (unconsumed)
    [groupby] iterator of that child; [groupby] turns every item into a
    tuple [(key, group)].  So the set holds tuples, never nodes. *)
Inductive pyobj :=
  | ONode (n : ref)
  | OGroupby (n : ref)          (* the iterator descendantsIter(n) *)
  | OGrouper (i : nat)          (* the group sub-iterator of the i-th item *)
  | OTuple (key grp : pyobj).

#[global] Instance pyobj_eq_dec : EqDecision pyobj.
Proof. solve_decision. Defined.

(** ** The Python runtime

    What the interpreter fixes and the module does not: the order in which
    a loop visits a set (some enumeration of its elements, the same each
    time the same set is visited) and the recursion limit. *)
Class PyRuntime := {
  iter : ∀ A `{Countable A}, gset A → list A;
  iter_perm : ∀ A `{Countable A} (X : gset A), iter A X ≡ₚ elements X;
  recursion_limit : nat;
}.
Arguments iter {_ _ _ _} _.

Section Model.

Context {rt : PyRuntime}.

(** ** Nodes, edges and fragments *)

(** [TreeNode.__init__]: binds [children] to a new set object. *)
Definition TreeNode_init (self : ref) (nm : string) (chs : gset ref) : M unit :=
  modify (with_static (λ st, mkStatic (f_class st) (<[self := nm]> (f_name st)) (f_tokens st))) ;;;
  modify (with_topo (up_sets <[self := self]>)) ;;;
  modify (with_topo (up_children <[self := chs]>)).

(** [TreeNode.add_child]: [self.children.add(child)]. *)
Definition TreeNode_add_child (self child : ref) : M unit :=
  modify (λ s, with_topo (up_children <[sets_of s self := children s self ∪ {[child]}]>) s).

(** [reachable(n1, n2)], lines 58-61: a depth-first search along
    [children] with no visited set.  Python returns [True] or falls off the
    end ([None], falsy): [Some false] here. *)
Fixpoint reachable (fuel : nat) (s : State) (n1 n2 : ref) : option bool :=
  match fuel with
  | O => None
  | S k =>
    if decide (n1 = n2) then Some true
    else (fix scan (cs : list ref) : option bool :=
            match cs with
            | [] => Some false
            | c :: cs' => match reachable k s c n2 with
                          | Some true => Some true
                          | Some false => scan cs'
                          | None => None
                          end
            end) (iter (children s n1))
  end.

(** [__setattr__] of the four forwarded attributes. *)
Definition setattr_height (n : ref) (v : Z) : M unit := λ s,
  match setattr_cell (S recursion_limit) s n with
  | Some c => Ret tt (with_attrs (up_height <[c := v]>) s)
  | None => Exn RuntimeError s
  end.
Definition setattr_depth (n : ref) (v : Z) : M unit := λ s,
  match setattr_cell (S recursion_limit) s n with
  | Some c => Ret tt (with_attrs (up_depth <[c := v]>) s)
  | None => Exn RuntimeError s
  end.
Definition setattr_topcandidates (n : ref) (v : gset ref) : M unit := λ s,
  match setattr_cell (S recursion_limit) s n with
  | Some c => Ret tt (with_attrs (up_topcandidates <[c := v]>) s)
  | None => Exn RuntimeError s
  end.
Definition setattr_parentcandidates (n : ref) (v : gset ref) : M unit := λ s,
  match setattr_cell (S recursion_limit) s n with
  | Some c => Ret tt (with_attrs (up_parentcandidates <[c := v]>) s)
  | None => Exn RuntimeError s
  end.

(** [FUDGNode._setMinHeight], lines 100-105. *)
Fixpoint _setMinHeight (fuel : nat) (self : ref) (h : Z) : M unit :=
  match fuel with
  | O => raise RuntimeError
  | S k =>
    s <- get ;;
    if height s self <? h then
      setattr_height self h ;;;
      s <- get ;;
      for_each (iter (parents s self)) (λ p,
        s <- get ;;
        py_assert 104 (bool_decide (name s p ≠ name s self)) ;;;
        _setMinHeight k p (h + 1))
    else ret tt
  end.

(** [FUDGNode._setMinDepth], lines 107-112. *)
Fixpoint _setMinDepth (fuel : nat) (self : ref) (d : Z) : M unit :=
  match fuel with
  | O => raise RuntimeError
  | S k =>
    s <- get ;;
    if depth s self <? d then
      setattr_depth self d ;;;
      s <- get ;;
      for_each (iter (children s self)) (λ c, _setMinDepth k c (d + 1))
    else ret tt
  end.

(** [Fragment.__init__], lines 232-236. *)
Definition Fragment_init (f : ref) (rts nds : gset ref) : M unit :=
  modify (with_frags (up_roots <[f := rts]>)) ;;;
  for_each (iter rts) (λ r, py_assert 235 (bool_decide (r ∈ nds))) ;;;
  modify (with_frags (up_nodes <[f := nds]>)).

(** [Fragment.__or__], lines 238-248: merges [that] into [f] in place and
    returns [f]. *)
Definition Fragment_or (f that : ref) : M ref :=
  if decide (f = that) then ret f
  else
    modify (λ s, with_frags (up_roots <[f := roots s f ∪ roots s that]>) s) ;;;
    modify (λ s, with_frags (up_nodes <[f := nodes s f ∪ nodes s that]>) s) ;;;
    s <- get ;;
    for_each (iter (nodes s that)) (λ n, modify (with_frags (up_frag <[n := f]>))) ;;;
    ret f.

(** [FUDGNode.__init__], lines 64-71. *)
Definition FUDGNode_init (self : ref) (nm : string) (chs : gset ref) : M unit :=
  TreeNode_init self nm chs ;;;
  modify (with_topo (up_childedges <[self := ∅]>)) ;;;
  modify (with_topo (up_parentedges <[self := ∅]>)) ;;;
  modify (with_topo (up_parents <[self := ∅]>)) ;;;
  setattr_height self 0 ;;;
  setattr_depth self (-1) ;;;
  Fragment_init self {[self]} {[self]} ;;;
  modify (with_frags (up_frag <[self := self]>)).

(** [FUDGNode.add_child] behind its two assertions, lines 76-95. *)
Definition insert_edge (self node : ref) (lbl : label) : M unit :=
  TreeNode_add_child self node ;;;
  modify (λ s, with_topo
    (up_childedges <[sets_of s self := childedges s self ∪ {[(node, lbl)]}]>) s) ;;;
  (* check for cycles *)
  s <- get ;;
  match reachable (S recursion_limit) s node self with
  | None => raise RuntimeError
  | Some true => raise CycleError
  | Some false =>
    modify (λ s, with_topo
      (up_parentedges <[sets_of s node := parentedges s node ∪ {[(self, lbl)]}]>) s) ;;;
    modify (λ s, with_topo
      (up_parents <[sets_of s node := parents s node ∪ {[self]}]>) s) ;;;
    s <- get ;;
    _setMinHeight (S recursion_limit) self (height s node + 1) ;;;
    (* self.frag |= node.frag *)
    s <- get ;;
    f <- Fragment_or (frag s self) (frag s node) ;;
    modify (with_frags (up_frag <[self := f]>)) ;;;
    (* self.frag.roots -= {node} *)
    modify (λ s, with_frags (up_roots <[frag s self := roots s (frag s self) ∖ {[node]}]>) s) ;;;
    (* recompute depths in the entire fragment *)
    s <- get ;;
    for_each (iter (nodes s (frag s self))) (λ n, setattr_depth n (-1)) ;;;
    s <- get ;;
    for_each (iter (roots s (frag s self))) (λ n, _setMinDepth (S recursion_limit) n 0)
  end.

(** [FUDGNode.add_child], lines 73-95. *)
Definition FUDGNode_add_child (self node : ref) (lbl : label) : M unit :=
  s <- get ;;
  py_assert 74 (bool_decide (name s self ≠ name s node)) ;;;
  py_assert 75 (negb (isRoot s node) || (isCBB s self && bool_decide (lbl ≠ None))) ;;;
  insert_edge self node lbl.

(** [LexicalNode.__init__], lines 139-145; the class attribute
    [parentcandidates = None] is the absent entry. *)
Definition LexicalNode_init (self : ref) (nm : string) (tkns : gset string) : M unit :=
  modify (with_static (λ st,
    mkStatic (<[self := LexicalNode]> (f_class st)) (f_name st) (f_tokens st))) ;;;
  modify (with_attrs (up_parentcandidates (delete self))) ;;;
  py_assert 140 (bool_decide (nm ≠ "$$")) ;;;
  FUDGNode_init self nm ∅ ;;;
  modify (with_static (λ st,
    mkStatic (f_class st) (f_name st) (<[self := tkns]> (f_tokens st)))) ;;;
  for_each (iter tkns) (λ tkn,
    s <- get ;;
    py_assert 144 (bool_decide (G_token2lexnode s !! tkn = None)) ;;;
    modify (λ s, with_G_token2lexnode (<[tkn := self]> (G_token2lexnode s)) s)).

(** [RootNode.__init__], lines 155-157. *)
Definition RootNode_init (self : ref) (chs : gset ref) : M unit :=
  modify (with_static (λ st,
    mkStatic (<[self := RootNode]> (f_class st)) (f_name st) (f_tokens st))) ;;;
  FUDGNode_init self "$$" chs ;;;
  modify (with_attrs (up_parentcandidates (delete self))).

(** [CoordinationNode.__init__], lines 164-167.  The attributes [coords]
    and [conjuncts] are read by [simplify_coord] only, which is not part of
    this embedding; they are not stored. *)
Definition CoordinationNode_init (self : ref) (nm : string) : M unit :=
  modify (with_static (λ st,
    mkStatic (<[self := CoordinationNode]> (f_class st)) (f_name st) (f_tokens st))) ;;;
  FUDGNode_init self nm ∅.

(** ** Bundles *)

(** [CBBNode.__init__], lines 170-177. *)
Definition CBBNode_init (self : ref) (nm : string) (mbrs exts : gset ref)
    (tp : option ref) : M unit :=
  modify (with_static (λ st,
    mkStatic (<[self := CBBNode]> (f_class st)) (f_name st) (f_tokens st))) ;;;
  modify (with_topo (up_top (λ m, match tp with Some t => <[self := t]> m
                                  | None => delete self m end))) ;;;
  modify (with_topo (up_members <[self := mbrs]>)) ;;;
  modify (with_topo (up_externalchildren <[self := exts]>)) ;;;
  modify (with_topo (up_pointerto (delete self))) ;;;
  FUDGNode_init self nm (mbrs ∪ exts) ;;;
  modify (with_attrs (up_parentcandidates (delete self))) ;;;
  modify (with_attrs (up_topcandidates (delete self))).

(** [CBBNode.add_member], lines 180-185. *)
Definition add_member (self node : ref) (specified_top : bool) : M unit :=
  modify (λ s, with_topo (up_members <[sets_of s self := members s self ∪ {[node]}]>) s) ;;;
  (if specified_top then
     s <- get ;;
     py_assert 183 (bool_decide (top s self = None)) ;;;
     modify (with_topo (up_top <[self := node]>))
   else ret tt) ;;;
  FUDGNode_add_child self node (Some (if specified_top then "top" else "unspec")).

(** [CBBNode.add_child], lines 187-189. *)
Definition CBBNode_add_child (self node : ref) (lbl : label) : M unit :=
  modify (λ s, with_topo
    (up_externalchildren <[sets_of s self := externalchildren s self ∪ {[node]}]>) s) ;;;
  FUDGNode_add_child self node lbl.

(** [p.add_child(c, label)] as Python dispatches it on the class of [p]. *)
Definition add_child (self node : ref) (lbl : label) : M unit :=
  s <- get ;;
  if isCBB s self then CBBNode_add_child self node lbl
  else FUDGNode_add_child self node lbl.

(** [CBBNode.become_pointer], lines 191-209. *)
Definition become_pointer (self node : ref) : M unit :=
  s <- get ;;
  py_assert 194 (isCBB s node) ;;;
  py_assert 195 (bool_decide (members s node = members s self)) ;;;
  py_assert 196 (bool_decide (top s node = None) || bool_decide (top s self = None)
                 || bool_decide (top s node = top s self)) ;;;
  modify (λ s, match top s node with
               | None => with_topo (up_top (λ m, match top s self with
                                                 | Some t => <[node := t]> m
                                                 | None => delete node m end)) s
               | Some t => with_topo (up_top <[self := t]>) s
               end) ;;;
  s <- get ;;
  setattr_height node (Z.max (height s self) (height s node)) ;;;
  s <- get ;;
  setattr_depth node (Z.max (depth s self) (depth s node)) ;;;
  s <- get ;;
  for_each (iter (externalchildren s self)) (λ c, add_child node c None) ;;;
  (* the six attributes of self now refer to the set objects of node *)
  modify (λ s, with_topo (up_sets <[self := sets_of s node]>) s) ;;;
  modify (with_topo (up_pointerto <[self := node]>)).

(** ** Projectivity *)

(** [FUDGNode.get_yield] and its override in [LexicalNode], lines 121 and
    147-148. *)
Fixpoint get_yield (fuel : nat) (s : State) (n : ref) : option (gset string) :=
  match fuel with
  | O => None
  | S k =>
    below ← (fix go (cs : list ref) : option (gset string) :=
               match cs with
               | [] => Some ∅
               | c :: cs' => y ← get_yield k s c; r ← go cs'; Some (y ∪ r)
               end) (iter (children s n));
    Some (if isLexical s n then tokens s n ∪ below else below)
  end.

(** Line 377: the tokens owned by a lexical node whose fragment has more
    than one node, in sentence order. *)
Definition is_used (s : State) (tkn : string) : bool :=
  match G_token2lexnode s !! tkn with
  | Some n => bool_decide (1 < size (nodes s (frag s n)))%nat
  | None => false
  end.
Definition usedtokens (s : State) : list string :=
  filter (λ tkn, is_used s tkn) (G_alltokens s).

(** Line 382: [{usedtokens.index(tkn) for tkn in yieldtkns}]. *)
Definition yieldoffsets (used : list string) (yieldtkns : gset string) : option (gset nat) :=
  list_to_set <$> mapM (λ tkn, list_index tkn used) (iter yieldtkns).

(** The test of line 383, [max(o) - min(o) != len(o) - 1], negated;
    [None] when [max] is applied to the empty set. *)
Definition contiguous_test (offs : gset nat) : option bool :=
  mx ← py_max (iter offs);
  mn ← py_min (iter offs);
  Some (bool_decide (Z.of_nat mx - Z.of_nat mn = Z.of_nat (size offs) - 1)).

(** The loop of [FUDGGraph.isProjective], lines 379-386. *)
Fixpoint isProjective_loop (used : list string) (ns : list ref) : M bool :=
  match ns with
  | [] => ret true
  | n :: ns' =>
    s <- get ;;
    if isRoot s n || bool_decide (size (nodes s (frag s n)) < 2)%nat
    then isProjective_loop used ns'
    else
      match get_yield (S recursion_limit) s n with
      | None => raise RuntimeError
      | Some yieldtkns =>
        match yieldoffsets used yieldtkns with
        | None => raise ValueError
        | Some offs =>
          match contiguous_test offs with
          | None => raise ValueError
          | Some true => isProjective_loop used ns'
          | Some false => ret false
          end
        end
      end
  end.

(** [FUDGGraph.isProjective], lines 375-386. *)
Definition isProjective : M bool :=
  s <- get ;;
  isProjective_loop (usedtokens s) (iter (G_nodes s)).

(** ** The two passes *)

(** [Graph.firmNodes], lines 257-259. *)
Definition firmNodes (s : State) : gset ref := filter (λ n, isFirm s n) (G_nodes s).

(** [itertools.groupby] with no key function, as far as its keys go:
    consecutive equal items fall into one group. *)
Fixpoint groupby_keys (l : list pyobj) : list pyobj :=
  match l with
  | [] => []
  | x :: l' => match l' with
               | y :: _ => if decide (x = y) then groupby_keys l' else x :: groupby_keys l'
               | [] => [x]
               end
  end.

(** [FUDGNode.descendants], lines 117-119: [set(self.descendantsIter())],
    the set of the [(key, group)] tuples that [groupby] yields. *)
Definition descendants (s : State) (n : ref) : list pyobj :=
  imap (λ i k, OTuple k (OGrouper i))
       (groupby_keys ((ONode <$> iter (children s n)) ++ (OGroupby <$> iter (children s n)))).

(** [X - D] for a set [X] of nodes and a set [D] of arbitrary objects: an
    element goes when it is equal to a member of [D]. *)
Definition py_difference (X : gset ref) (D : list pyobj) : gset ref :=
  filter (λ x, ONode x ∉ D) X.

(** [c.topcandidates if c.isCBB else {c}]. *)
Definition cand_of (s : State) (c : ref) : option (gset ref) :=
  if isCBB s c then topcandidates s c else Some {[c]}.

(** The loop over [n.childedges] of [upward], lines 500-513.  [set(None)]
    and [|=] with [None] on either side raise [TypeError]. *)
Fixpoint upward_edges (n : ref) (es : list (ref * label)) : M unit :=
  match es with
  | [] => ret tt
  | (c, e) :: es' =>
    if decide (e = Some "top") then
      s <- get ;;
      match cand_of s c with
      | None => raise TypeError
      | Some v => setattr_topcandidates n v      (* break *)
      end
    else if decide (e = Some "unspec") then
      s <- get ;;
      match topcandidates s n, cand_of s c with
      | Some cur, Some v => setattr_topcandidates n (cur ∪ v) ;;; upward_edges n es'
      | _, _ => raise TypeError
      end
    else
      py_assert 513 (bool_decide (e = None)) ;;; upward_edges n es'
  end.

(** The body of the loop of [upward], lines 493-515. *)
Definition upward_node (n : ref) : M unit :=
  s <- get ;;
  py_assert 493 (negb (isCoord s n)) ;;;
  if isCBB s n then
    setattr_topcandidates n ∅ ;;;
    s <- get ;;
    py_assert 498 (bool_decide
      (length (filter (λ ce, ce.2 = Some "top") (iter (childedges s n))) ≤ 1)%nat) ;;;
    upward_edges n (iter (childedges s n)) ;;;
    s <- get ;;
    match topcandidates s n with
    | None => raise TypeError
    | Some tc =>
      py_assert 514 (bool_decide (n ∉ tc)) ;;;
      py_assert 515 (forallb (λ x, negb (isCBB s x)) (iter tc))
    end
  else ret tt.

(** [upward], lines 486-515. *)
Definition upward : M unit :=
  s <- get ;;
  for_each (sorted (height s) (iter (G_nodes s))) upward_node.

(** [n.parentcandidates &= x]. *)
Definition iand_parentcandidates (n : ref) (x : option (gset ref)) : M unit :=
  s <- get ;;
  match parentcandidates s n, x with
  | Some cur, Some v => setattr_parentcandidates n (cur ∩ v)
  | _, _ => raise TypeError
  end.

(** Lines 543-544: [for sib in siblings: cands |= ...]. *)
Fixpoint sibling_cands (s : State) (sibs : list ref) (cands : gset ref) : option (gset ref) :=
  match sibs with
  | [] => Some cands
  | sib :: sibs' => v ← cand_of s sib; sibling_cands s sibs' (cands ∪ v)
  end.

(** Lines 536-544: the local set [cands] for a member [n] of the bundle [p]. *)
Definition member_cands (n p : ref) : M (gset ref) :=
  s <- get ;;
  match topcandidates s p, cand_of s n with
  | Some ptc, Some tcands =>
    cands <- (if bool_decide (ptc ∩ tcands ≠ ∅) then
                match parentcandidates s p with
                | None => raise (AssertionError 539)
                | Some ppc => ret (∅ ∪ ppc)
                end
              else ret ∅) ;;
    if bool_decide (ptc ≠ tcands) then
      match sibling_cands s (iter (members s p ∖ {[n]})) cands with
      | None => raise TypeError
      | Some cands' => ret cands'
      end
    else ret cands
  | _, _ => raise TypeError
  end.

(** The body of the loop over [n.parentedges], lines 533-551. *)
Definition downward_edge (n : ref) (pe : ref * label) : M unit :=
  s <- get ;;
  if isCBB s pe.1 then
    if bool_decide (n ∈ members s pe.1) then
      cands <- member_cands n pe.1 ;;
      iand_parentcandidates n (Some cands)
    else
      py_assert 547 (bool_decide (n ∈ externalchildren s pe.1)) ;;;
      iand_parentcandidates n (topcandidates s pe.1)
  else
    py_assert 550 (isFirm s pe.1) ;;;
    iand_parentcandidates n (Some {[pe.1]}).

(** A set is true when it is not empty; [None] is false. *)
Definition truthy (x : option (gset ref)) : bool :=
  match x with Some v => bool_decide (v ≠ ∅) | None => false end.

(** The body of the loop of [downward], lines 526-555. *)
Definition downward_node (n : ref) : M unit :=
  s <- get ;;
  py_assert 526 (negb (isCoord s n)) ;;;
  if negb (isRoot s n) then
    setattr_parentcandidates n (py_difference (firmNodes s ∖ {[n]}) (descendants s n)) ;;;
    s <- get ;;
    py_assert 529 (truthy (parentcandidates s n)) ;;;
    for_each (iter (parentedges s n)) (downward_edge n) ;;;
    s <- get ;;
    py_assert 555 (truthy (parentcandidates s n))
  else ret tt.

(** [downward], lines 518-555. *)
Definition downward : M unit :=
  s <- get ;;
  for_each (sorted (depth s) (iter (G_nodes s))) downward_node.

End Model.

(** * More of the code *)
Section MoreModel.

Context {rt : PyRuntime}.

(** ** Merging the bundles with the same members

    The end of [FUDGGraph.__init__], lines 361-370.  [cbbnodes] is an
    attribute of the graph object that the heap above does not hold; it is
    passed in and handed back.  The list [cbbs] has no [None] at first, and
    the loops only ever write [None] at the index [i] they are at: so at
    step [i] the list is the entries already settled, [cbbs[0:i]], followed
    by bundles, and that is how it is kept here.  [set.remove] raises
    [KeyError] when the element is missing. *)

Inductive key_error := KeyError.

(** [sorted(self.cbbnodes, key=lambda n: n.name)]: strings are compared
    character by character. *)
Fixpoint insert_by_name (s : State) (x : ref) (l : list ref) : list ref :=
  match l with
  | [] => [x]
  | y :: l' => if String.ltb (name s y) (name s x) then y :: insert_by_name s x l'
               else x :: l
  end.
Definition sorted_by_name (s : State) (l : list ref) : list ref :=
  foldr (insert_by_name s) [] l.

(** Lines 366-369: [ci] is merged into [ch] and leaves the graph. *)
Definition merge_match (ci ch : ref) (cbbnodes : gset ref) : M (key_error + gset ref) :=
  become_pointer ci ch ;;;
  if decide (ci ∈ cbbnodes) then
    s <- get ;;
    if decide (ci ∈ G_nodes s) then
      modify (λ s, with_G_nodes (G_nodes s ∖ {[ci]}) s) ;;;
      ret (inr (cbbnodes ∖ {[ci]}))
    else ret (inl KeyError)
  else ret (inl KeyError).

(** The inner loop, lines 364-370, over the entries before [ci]; it says
    whether [ci] has been merged, which is when it breaks. *)
Fixpoint merge_scan (earlier : list (option ref)) (ci : ref) (cbbnodes : gset ref)
    : M (key_error + bool * gset ref) :=
  match earlier with
  | [] => ret (inr (false, cbbnodes))
  | ch :: earlier' =>
    match ch with
    | Some h =>
      s <- get ;;
      if decide (members s h = members s ci) then
        r <- merge_match ci h cbbnodes ;;
        ret (match r with inl e => inl e | inr c => inr (true, c) end)
      else merge_scan earlier' ci cbbnodes
    | None => merge_scan earlier' ci cbbnodes
    end
  end.

(** The outer loop, lines 363-370. *)
Fixpoint merge_loop (settled : list (option ref)) (todo : list ref) (cbbnodes : gset ref)
    : M (key_error + list (option ref) * gset ref) :=
  match todo with
  | [] => ret (inr (settled, cbbnodes))
  | ci :: todo' =>
    r <- merge_scan settled ci cbbnodes ;;
    match r with
    | inl e => ret (inl e)
    | inr (merged, cbbnodes') =>
      merge_loop (settled ++ [if merged : bool then None else Some ci]) todo' cbbnodes'
    end
  end.

(** Lines 361-370. *)
Definition merge_cbbs (cbbnodes : gset ref) : M (key_error + gset ref) :=
  s <- get ;;
  r <- merge_loop [] (sorted_by_name s (iter cbbnodes)) cbbnodes ;;
  ret (match r with inl e => inl e | inr (_, cbbnodes') => inr cbbnodes' end).

(** ** [FixedDict]

    Lines 33-39: a dictionary that refuses to assign to a key it holds;
    [None] is the [KeyError]. *)
Definition FixedDict_setitem `{Countable K} {V} (key : K) (newvalue : V) (d : gmap K V)
    : option (gmap K V) :=
  if decide (is_Some (d !! key)) then None else Some (<[key := newvalue]> d).

(** ** Paths: [scripts/graphToRule.py]

    [collect_cbb_members] and [traverse], lines 46-78.  [None] is the
    overflow of the recursion limit.  [traverse] appends to the list
    [listPaths] it is given and to the list [path] it is given; every [path]
    it is called with is a list made for the call ([[]], [[node.name]] or a
    [deepcopy]), and no list is written after it has been appended to
    [listPaths], so the lists are values here and the new [listPaths] is
    returned. *)

Fixpoint collect_cbb_members (fuel : nat) (s : State) (node : ref) : option string :=
  match fuel with
  | O => None
  | S k =>
    (fix loop (ms : list ref) (cbbName : string) : option string :=
       match ms with
       | [] => Some (cbbName +:+ ")")
       | member :: ms' =>
         piece ← (if isCBB s member then collect_cbb_members k s member
                  else Some (name s member));
         loop ms' ((cbbName +:+ piece) +:+ " ")
       end) (iter (members s node)) "( "
  end.

Fixpoint traverse (fuel : nat) (s : State) (node : ref) (path : list string)
    (listPaths : list (list string)) : option (list (list string)) :=
  match fuel with
  | O => None
  | S k =>
    if isCBB s node then
      cbbName ← collect_cbb_members k s node;
      (fix loop (cs : list ref) (L : list (list string)) : option (list (list string)) :=
         match cs with
         | [] => Some L
         | childNode :: cs' => L' ← traverse k s childNode [] L; loop cs' L'
         end) (iter (members s node)) (listPaths ++ [path ++ [cbbName]])
    else
      match iter (childedges s node) with
      | [] => Some (listPaths ++ [path ++ [name s node]])
      | [(childNode, _)] => traverse k s childNode (path ++ [name s node]) listPaths
      | es =>
        (fix loop (es : list (ref * label)) (L : list (list string))
             : option (list (list string)) :=
           match es with
           | [] => Some L
           | (childNode, _) :: es' => L' ← traverse k s childNode [name s node] L; loop es' L'
           end) es (listPaths ++ [path ++ [name s node]])
      end
  end.

End MoreModel.

(** ** Example graphs *)

(** A runtime for the examples: sets are visited in the order of
    [elements]. *)
Definition example_runtime : PyRuntime :=
  {| iter := λ A _ _ X, elements X;
     iter_perm := λ A _ _ X, reflexivity (elements X);
     recursion_limit := 1000 |}.

Definition empty_state : State :=
  mkState (mkStatic ∅ ∅ ∅) (mkTopology ∅ ∅ ∅ ∅ ∅ ∅ ∅ ∅ ∅) (mkAttrs ∅ ∅ ∅ ∅)
          (mkFrags ∅ ∅ ∅) ∅ [] ∅.

Section Examples.

#[local] Existing Instance example_runtime.

(** Tokens [a b]; [W(a)] (object 1) is the parent of [W(b)] (object 2); the
    root (object 0) has no children. *)
Definition state_ab : State :=
  final ((modify (with_G_alltokens ["a"; "b"]) ;;;
          RootNode_init 0 ∅ ;;;
          LexicalNode_init 1 "a" {["a"]} ;;;
          LexicalNode_init 2 "b" {["b"]} ;;;
          modify (with_G_nodes {[0%nat; 1%nat; 2%nat]}) ;;;
          add_child 1 2 None) empty_state).
Definition state_ab_up : State := final (upward state_ab).
Definition state_ab_down : State := final (downward state_ab_up).

(** The bundle [CBB1] (object 3) with the members [A] and [B] (objects 1
    and 2), both [unspec], and no designated top. *)
Definition state_bundle : State :=
  final ((modify (with_G_alltokens ["A"; "B"]) ;;;
          RootNode_init 0 ∅ ;;;
          LexicalNode_init 1 "A" {["A"]} ;;;
          LexicalNode_init 2 "B" {["B"]} ;;;
          CBBNode_init 3 "CBB1" ∅ ∅ None ;;;
          modify (with_G_nodes {[0%nat; 1%nat; 2%nat; 3%nat]}) ;;;
          add_member 3 1 false ;;;
          add_member 3 2 false) empty_state).
Definition state_bundle_up : State := final (upward state_bundle).
Definition state_bundle_down : State := final (downward state_bundle_up).

(** [CBB1] with [A] as its designated top. *)
Definition state_top : State := final (add_member 3 1 true state_bundle).

(** Two bundles, [CBB1] (object 3) and [CBB2] (object 4), with the same
    members; then [CBB2] made an alias of [CBB1] and taken out of the graph's
    nodes (lines 366-368), and the upward pass run. *)
Definition state_two_bundles : State :=
  final ((modify (with_G_alltokens ["A"; "B"]) ;;;
          RootNode_init 0 ∅ ;;;
          LexicalNode_init 1 "A" {["A"]} ;;;
          LexicalNode_init 2 "B" {["B"]} ;;;
          CBBNode_init 3 "CBB1" ∅ ∅ None ;;;
          CBBNode_init 4 "CBB2" ∅ ∅ None ;;;
          modify (with_G_nodes {[0%nat; 1%nat; 2%nat; 3%nat; 4%nat]}) ;;;
          add_member 3 1 false ;;;
          add_member 3 2 false ;;;
          add_member 4 1 false ;;;
          add_member 4 2 false) empty_state).
Definition state_merged : State := final (become_pointer 4 3 state_two_bundles).
Definition state_unified : State :=
  with_G_nodes {[0%nat; 1%nat; 2%nat; 3%nat]}
    (with_G_alltokens ["A"; "B"]
       (with_G_token2lexnode (G_token2lexnode state_merged) state_merged)).
Definition state_unified_up : State := final (upward state_unified).

(** Tokens [a b c d]; the root governs [a] and [d], and [b] governs [c]. *)
Definition state_root_gap : State :=
  final ((modify (with_G_alltokens ["a"; "b"; "c"; "d"]) ;;;
          RootNode_init 0 ∅ ;;;
          LexicalNode_init 1 "a" {["a"]} ;;;
          LexicalNode_init 2 "b" {["b"]} ;;;
          LexicalNode_init 3 "c" {["c"]} ;;;
          LexicalNode_init 4 "d" {["d"]} ;;;
          modify (with_G_nodes {[0%nat; 1%nat; 2%nat; 3%nat; 4%nat]}) ;;;
          add_child 0 1 None ;;;
          add_child 0 4 None ;;;
          add_child 2 3 None) empty_state).

(** The first states of a graph, one operation at a time. *)
Definition life1 : State := final (RootNode_init 0 ∅ empty_state).
Definition life2 : State := final (LexicalNode_init 1 "A" {["A"]} life1).
Definition life3 : State := final (CBBNode_init 3 "CBB1" ∅ ∅ None life2).
Definition life4 : State := final (add_member 3 1 false life3).

End Examples.

(** More graphs *)
Section MoreExamples.

#[local] Existing Instance example_runtime.

(** The graph of [state_ab] after the refused edge from [W(b)] to [W(a)]:
    the two nodes are now children of each other. *)
Definition state_cycle : State := final (FUDGNode_add_child 2 1 None state_ab).

(** The graph of [state_ab] with [W(a)] hung from the root. *)
Definition state_ab_rooted : State := final (FUDGNode_add_child 0 1 None state_ab).

(** A rank for that graph: the root above [W(a)] above [W(b)]. *)
Definition rank_ab (n : ref) : nat :=
  match n with 0 => 2 | 1 => 1 | _ => 0 end%nat.

(** Tokens [a b c]; [W(c)] (object 3) hangs from both [W(a)] and [W(b)]. *)
Definition state_two_heads : State :=
  final ((modify (with_G_alltokens ["a"; "b"; "c"]) ;;;
          RootNode_init 0 ∅ ;;;
          LexicalNode_init 1 "a" {["a"]} ;;;
          LexicalNode_init 2 "b" {["b"]} ;;;
          LexicalNode_init 3 "c" {["c"]} ;;;
          modify (with_G_nodes {[0%nat; 1%nat; 2%nat; 3%nat]}) ;;;
          add_child 1 3 None ;;;
          add_child 2 3 None) empty_state).

(** The bundle [CBB1] (object 3) over [A] and [B], with [C] (object 4)
    modifying it from outside; then the two passes. *)
Definition state_modifier : State :=
  final ((modify (with_G_alltokens ["A"; "B"; "C"]) ;;;
          RootNode_init 0 ∅ ;;;
          LexicalNode_init 1 "A" {["A"]} ;;;
          LexicalNode_init 2 "B" {["B"]} ;;;
          LexicalNode_init 4 "C" {["C"]} ;;;
          CBBNode_init 3 "CBB1" ∅ ∅ None ;;;
          modify (with_G_nodes {[0%nat; 1%nat; 2%nat; 3%nat; 4%nat]}) ;;;
          add_member 3 1 false ;;;
          add_member 3 2 false ;;;
          add_child 3 4 None) empty_state).
Definition state_modifier_up : State := final (upward state_modifier).
Definition state_modifier_down : State := final (downward state_modifier_up).

(** The two bundles over [A] and [B] after the merging loop: the graph
    knows the bundles 3 and 4. *)
Definition state_merged_cbbs : State := final (merge_cbbs {[3%nat; 4%nat]} state_two_bundles).

End MoreExamples.

(** ** Vocabulary of the properties *)

(** The state [s] with the table of top candidates, or of parent
    candidates, replaced by [m]. *)
Definition with_tc (m : gmap ref (gset ref)) (s : State) : State :=
  with_attrs (up_topcandidates (λ _, m)) s.
Definition with_pc (m : gmap ref (gset ref)) (s : State) : State :=
  with_attrs (up_parentcandidates (λ _, m)) s.

Section Theory.

Context {rt : PyRuntime}.

(** Frame reasoning *)
Definition preserves {A} (R : relation State) (m : M A) : Prop :=
  ∀ s, R s (final (m s)).

(** Which exceptions a computation can raise *)
Definition raises_only {A} (P : error → Prop) (m : M A) : Prop :=
  ∀ s e s', m s = Exn e s' → P e.

(** Lines 76-95 of [FUDGNode.add_child] raise nothing but the cycle
    exception, a recursion overflow and the assertion of line 104. *)
Definition edge_errors (e : error) : Prop :=
  e = CycleError ∨ e = RuntimeError ∨ e = AssertionError 104.

Definition rejected (o : Outcome unit) : Prop :=
  ∃ s', o = Exn (AssertionError 74) s' ∨ o = Exn (AssertionError 75) s'.

Inductive reaches (s : State) : ref → ref → Prop :=
  | reaches_here n : reaches s n n
  | reaches_child n c m : c ∈ children s n → reaches s c m → reaches s n m.

Definition forward_half (self node : ref) (lbl : label) (s : State) : State :=
  with_topo (up_childedges <[sets_of s self := childedges s self ∪ {[(node, lbl)]}]>)
    (with_topo (up_children <[sets_of s self := children s self ∪ {[node]}]>) s).

(** Frames given by a view of the state *)
Definition frame_by {V} (view : State → V) : relation State := λ s s', view s' = view s.

(** What inserting an edge leaves alone once the child is in [children]. *)
Definition edge_view (s : State) :=
  (static s, f_children (topo s), f_members (topo s), f_externalchildren (topo s),
   f_sets (topo s), f_top (topo s), f_pointerto (topo s),
   f_parentcandidates (attrs s), f_topcandidates (attrs s),
   G_nodes s, G_alltokens s, G_token2lexnode s).

(** What [FUDGNode.add_child] never touches. *)
Definition bundle_view (s : State) :=
  (static s, f_members (topo s), f_externalchildren (topo s),
   f_sets (topo s), f_top (topo s), f_pointerto (topo s),
   f_parentcandidates (attrs s), f_topcandidates (attrs s),
   G_nodes s, G_alltokens s, G_token2lexnode s).

Definition with_member (self node : ref) (s : State) : State :=
  with_topo (up_members <[sets_of s self := members s self ∪ {[node]}]>) s.
Definition with_top (self node : ref) (s : State) : State :=
  with_topo (up_top <[self := node]>) s.

(** The bundle invariant *)
Definition cbb_inv (s : State) : Prop :=
  ∀ b, isCBB s b = true → children s b = members s b ∪ externalchildren s b.

(** Only bundles are rebound, and only to the set objects of bundles. *)
Definition sets_wf (s : State) : Prop :=
  ∀ n o, f_sets (topo s) !! n = Some o → o ≠ n → isCBB s n = true ∧ isCBB s o = true.

Definition bundles_ok (s : State) : Prop := cbb_inv s ∧ sets_wf s.

(** The invariant only looks at these fields. *)
Definition bundles_view (s : State) :=
  (f_class (static s), f_children (topo s), f_members (topo s),
   f_externalchildren (topo s), f_sets (topo s)).

(** The passes only write candidate sets. *)
Definition upward_view (s : State) :=
  (static s, topo s, frags s, G_nodes s, G_alltokens s, G_token2lexnode s,
   f_height (attrs s), f_depth (attrs s), f_parentcandidates (attrs s)).
Definition downward_view (s : State) :=
  (static s, topo s, frags s, G_nodes s, G_alltokens s, G_token2lexnode s,
   f_height (attrs s), f_depth (attrs s), f_topcandidates (attrs s)).

(** One operation of the module that returns.  [may_alias] says which
    bundles may still be turned into aliases. *)
Inductive step (may_alias : ref → Prop) (s s' : State) : Prop :=
  | step_RootNode r chs :
      class_of s r = None → RootNode_init r chs s = Ret tt s' → step may_alias s s'
  | step_LexicalNode r nm tkns :
      class_of s r = None → LexicalNode_init r nm tkns s = Ret tt s' → step may_alias s s'
  | step_CoordinationNode r nm :
      class_of s r = None → CoordinationNode_init r nm s = Ret tt s' → step may_alias s s'
  | step_CBBNode r nm mbrs exts tp :
      class_of s r = None → CBBNode_init r nm mbrs exts tp s = Ret tt s' → step may_alias s s'
  | step_add_child p c lbl :
      add_child p c lbl s = Ret tt s' → step may_alias s s'
  | step_add_member b c specified_top :
      isCBB s b = true → add_member b c specified_top s = Ret tt s' → step may_alias s s'
  | step_become_pointer a b :
      may_alias a → isCBB s a = true → become_pointer a b s = Ret tt s' → step may_alias s s'
  | step_upward : upward s = Ret tt s' → step may_alias s s'
  | step_downward : downward s = Ret tt s' → step may_alias s s'
  | step_graph X l m :
      s' = with_G_nodes X (with_G_alltokens l (with_G_token2lexnode m s)) → step may_alias s s'.

(** The states a graph goes through, from the empty heap on. *)
Definition lifetime (s : State) : Prop := rtc (step (λ _, True)) empty_state s.

(** Aliasing *)
Definition alias_view (s : State) := (f_class (static s), f_pointerto (topo s)).

(** [a] is an alias of the bundle [c], and [c] is no alias. *)
Definition aliased (a c : ref) (s : State) : Prop :=
  class_of s a = Some CBBNode ∧ class_of s c = Some CBBNode ∧
  f_pointerto (topo s) !! a = Some c ∧ f_pointerto (topo s) !! c = None.

(** The positions form a range without gaps. *)
Definition contiguous (offs : gset nat) : Prop :=
  ∀ i j k, i ∈ offs → k ∈ offs → (i ≤ j ≤ k)%nat → j ∈ offs.

(** The positions, among the used tokens, of the tokens in the yield of
    [n]. *)
Definition yield_positions (s : State) (n : ref) : option (gset nat) :=
  yieldtkns ← get_yield (S recursion_limit) s n;
  yieldoffsets (usedtokens s) yieldtkns.

Definition projective_node (s : State) (n : ref) : Prop :=
  ∃ offs, yield_positions s n = Some offs ∧ offs ≠ ∅ ∧ contiguous offs.

(** Overwriting the entry of [n], or nothing. *)
Definition upd_at (n : ref) (o : option (gset ref)) (m : gmap ref (gset ref)) :=
  match o with Some v => <[n := v]> m | None => m end.

(** [c] reads the top candidates of [n]: it is a bundle that is [n] or an
    alias of [n]. *)
Definition reads_cell (s : State) (c n : ref) : bool :=
  isCBB s c && bool_decide (getattr_cell s c = n).

(** What the upward pass is to compute for the bundle [n]. *)
Definition top_spec (s : State) (n : ref) (v : gset ref) : Prop :=
  (∀ c, (c, Some "top") ∈ childedges s n → cand_of s c = Some v) ∧
  ((∀ c, (c, Some "top") ∉ childedges s n) →
     (∀ c, (c, Some "unspec") ∈ childedges s n → is_Some (cand_of s c)) ∧
     ∀ x, x ∈ v ↔ ∃ c w, (c, Some "unspec") ∈ childedges s n ∧ cand_of s c = Some w ∧ x ∈ w).

(** Every node the graph holds is its own bundle, not an alias: aliases are
    taken out of [nodes] when they are made (lines 366-368). *)
Definition canonical_nodes (s : State) : Prop :=
  ∀ n, n ∈ G_nodes s → _pointerto s n = None.

(** No pass has run yet. *)
Definition fresh_topcandidates (s : State) : Prop :=
  ∀ n, n ∈ G_nodes s → f_topcandidates (attrs s) !! n = None.
Definition fresh_parentcandidates (s : State) : Prop :=
  ∀ n, n ∈ G_nodes s → f_parentcandidates (attrs s) !! n = None.

(** ** Vocabulary of the further properties *)

(** The loop of [reachable] over the children, with the recursive call as a
    parameter. *)
Definition scan_children (f : ref → option bool) : list ref → option bool :=
  fix scan (cs : list ref) : option bool :=
    match cs with
    | [] => Some false
    | c :: cs' => match f c with
                  | Some true => Some true
                  | Some false => scan cs'
                  | None => None
                  end
    end.

Definition yield_children (f : ref → option (gset string)) :
    list ref → option (gset string) :=
  fix go (cs : list ref) : option (gset string) :=
    match cs with
    | [] => Some ∅
    | c :: cs' => y ← f c; r ← go cs'; Some (y ∪ r)
    end.

(** The state [FUDGNode.__init__] leaves for a node that is no alias. *)
Definition FUDGNode_made (r : ref) (nm : string) (chs : gset ref) (s : State) : State :=
  with_frags (up_frag <[r := r]>)
    (with_frags (up_nodes <[r := {[r]}]>)
      (with_frags (up_roots <[r := {[r]}]>)
        (with_attrs (up_depth <[r := -1]>)
          (with_attrs (up_height <[r := 0]>)
            (with_topo (up_parents <[r := ∅]>)
              (with_topo (up_parentedges <[r := ∅]>)
                (with_topo (up_childedges <[r := ∅]>)
                  (with_topo (up_children <[r := chs]>)
                    (with_topo (up_sets <[r := r]>)
                      (with_static (λ st, mkStatic (f_class st) (<[r := nm]> (f_name st))
                                                   (f_tokens st)) s)))))))))).

(** The loop of [LexicalNode.__init__] that claims the tokens. *)
Definition claim_tokens (self : ref) (l : list string) : M unit :=
  for_each l (λ tkn,
    s <- get ;;
    py_assert 144 (bool_decide (G_token2lexnode s !! tkn = None)) ;;;
    modify (λ s, with_G_token2lexnode (<[tkn := self]> (G_token2lexnode s)) s)).

(** The edge tables after the four insertions of lines 76-83. *)
Definition linked (self node : ref) (lbl : label) (s : State) : State :=
  with_topo (up_parents <[sets_of s node := parents s node ∪ {[self]}]>)
    (with_topo (up_parentedges <[sets_of s node := parentedges s node ∪ {[(self, lbl)]}]>)
       (forward_half self node lbl s)).

(** The classes, names and tokens, and the edges. *)
Definition structure_view (s : State) := (static s, topo s).

(** No node reaches itself through a child. *)
Definition acyclic (s : State) : Prop := ∀ n c, c ∈ children s n → ¬ reaches s c n.

(** No bundle has been merged into another: no node is an alias, and every
    node is bound to its own set objects. *)
Definition unmerged (s : State) : Prop :=
  ∀ n, _pointerto s n = None ∧ sets_of s n = n.

(** A parent stands higher than each of its children. *)
Definition heights_ok (s : State) : Prop :=
  ∀ c p, p ∈ parents s c → height s c + 1 ≤ height s p.

(** The state [s] with the table of heights replaced by [g]. *)
Definition with_h (g : gmap ref Z) (s : State) : State :=
  with_attrs (up_height (λ _, g)) s.

(** What the heights and their order depend on. *)
Definition heights_view (s : State) := (static s, topo s, f_height (attrs s)).

(** A node that a constructor has made has a fragment, and the fragment of
    such a node holds exactly the nodes whose fragment it is. *)
Definition frag_ok (s : State) : Prop :=
  ∀ n, is_Some (f_frag (frags s) !! n) →
       ∀ m, m ∈ nodes s (frag s n) ↔ f_frag (frags s) !! m = Some (frag s n).

(** What one parent edge [(p, e)] of [n] allows for the candidates [w]: a
    parent that is no bundle is the only candidate left; a bundle that [n]
    modifies from outside leaves only its own top candidates. *)
Definition edge_bound (s : State) (n : ref) (pe : ref * label) (w : gset ref) : Prop :=
  (isCBB s pe.1 = false → w ⊆ {[pe.1]}) ∧
  (isCBB s pe.1 = true → n ∉ members s pe.1 →
     ∃ t, topcandidates s pe.1 = Some t ∧ w ⊆ t).

(** What the visit of a node other than the root leaves as its parent
    candidates. *)
Definition visited (s : State) (n : ref) (v : gset ref) : Prop :=
  v ≠ ∅ ∧ v ⊆ firmNodes s ∖ {[n]} ∧ ∀ pe, pe ∈ parentedges s n → edge_bound s n pe v.

(** What the loop of [become_pointer] over the external children leaves
    alone, and the table it writes. *)
Definition merge_view (s : State) :=
  (static s, f_members (topo s), f_sets (topo s), f_top (topo s), f_pointerto (topo s)).
Definition merge_ext_view (s : State) := (merge_view s, f_externalchildren (topo s)).

(** What merging writes besides the tables of [merge_view]. *)
Definition graph_view (s : State) := (merge_view s, G_nodes s).

(** What one merge does. *)
Definition merged_into (ci ch : ref) (cbbnodes cbbnodes' : gset ref) (s s' : State) : Prop :=
  static s' = static s ∧ (∀ n, members s' n = members s n) ∧
  (∀ n, _pointerto s' n = if decide (n = ci) then (if isCBB s ci then Some ch else None)
                          else _pointerto s n) ∧
  ci ∈ G_nodes s ∧ G_nodes s' = G_nodes s ∖ {[ci]} ∧
  ci ∈ cbbnodes ∧ cbbnodes' = cbbnodes ∖ {[ci]}.

(** The entries settled so far that are bundles are no aliases, and no two
    of them have the same members. *)
Definition settled_ok (settled : list (option ref)) (s : State) : Prop :=
  (∀ b, Some b ∈ settled → _pointerto s b = None) ∧
  (∀ b c, Some b ∈ settled → Some c ∈ settled → members s b = members s c → b = c).

(** The bundles the graph knows are bundles, and none is an alias yet. *)
Definition bundles_unmerged (cbbnodes : gset ref) (s : State) : Prop :=
  ∀ b, b ∈ cbbnodes → isCBB s b = true ∧ _pointerto s b = None.

(** A run of assignments [d[k] = v], in order. *)
Fixpoint FixedDict_assign `{Countable K} {V} (l : list (K * V)) (d : gmap K V)
    : option (gmap K V) :=
  match l with
  | [] => Some d
  | (k, v) :: l' => d' ← FixedDict_setitem k v d; FixedDict_assign l' d'
  end.

(** The loops of [traverse], with the recursive call as a parameter. *)
Definition traverse_members (f : ref → list string → list (list string) →
                                 option (list (list string))) :
    list ref → list (list string) → option (list (list string)) :=
  fix loop (cs : list ref) (L : list (list string)) : option (list (list string)) :=
    match cs with
    | [] => Some L
    | childNode :: cs' => L' ← f childNode [] L; loop cs' L'
    end.

Definition traverse_edges (f : ref → list string → list (list string) →
                               option (list (list string))) (nm : string) :
    list (ref * label) → list (list string) → option (list (list string)) :=
  fix loop (es : list (ref * label)) (L : list (list string))
      : option (list (list string)) :=
    match es with
    | [] => Some L
    | (childNode, _) :: es' => L' ← f childNode [nm] L; loop es' L'
    end.

(** The nodes that [traverse] walks through from a node: the members of a
    bundle, the children of any other node, and so on. *)
Inductive below (s : State) : ref → ref → Prop :=
  | below_here n : below s n n
  | below_member n c m :
      isCBB s n = true → c ∈ members s n → below s c m → below s n m
  | below_child n c e m :
      isCBB s n = false → (c, e) ∈ childedges s n → below s c m → below s n m.

(** What stands for a node on a path: its name, or for a bundle the string
    of its members. *)
Definition path_label (s : State) (m : ref) (lab : string) : Prop :=
  if isCBB s m then ∃ k, collect_cbb_members k s m = Some lab else lab = name s m.

(** What a call of [traverse] is to add to the paths: a first path that
    continues the one given, then others, and among them a mention of every
    node below. *)
Definition emits (s : State) (n : ref) (path : list string)
    (L L' : list (list string)) : Prop :=
  ∃ suffix rest, L' = L ++ (path ++ suffix) :: rest ∧ suffix ≠ [] ∧
    ∀ m, below s n m →
         ∃ lab, path_label s m lab ∧ (lab ∈ suffix ∨ ∃ p, p ∈ rest ∧ lab ∈ p).


Lemma elem_of_iter `{Countable A} (X : gset A) (x : A) : x ∈ iter X ↔ x ∈ X.
Proof. rewrite iter_perm. apply elem_of_elements. Qed.

Lemma NoDup_iter `{Countable A} (X : gset A) : NoDup (iter X).
Proof. rewrite iter_perm. apply NoDup_elements. Qed.

Lemma length_iter `{Countable A} (X : gset A) : length (iter X) = size X.
Proof. rewrite iter_perm. reflexivity. Qed.

Ltac msimpl := cbn [bind get modify ret raise py_assert final].

Lemma preserves_ret {A} R `{!Reflexive R} (a : A) : preserves R (ret a).
Proof. intros s. simpl. reflexivity. Qed.
Lemma preserves_raise {A} R `{!Reflexive R} e : preserves R (@raise A e).
Proof. intros s. simpl. reflexivity. Qed.
Lemma preserves_get R `{!Reflexive R} : preserves R get.
Proof. intros s. simpl. reflexivity. Qed.
Lemma preserves_assert R `{!Reflexive R} ln b : preserves R (py_assert ln b).
Proof. intros s. destruct b; simpl; reflexivity. Qed.
Lemma preserves_modify R f : (∀ s, R s (f s)) → preserves R (modify f).
Proof. intros H s. apply H. Qed.
Lemma preserves_bind {A B} R `{!Transitive R} (m : M A) (k : A → M B) :
  preserves R m → (∀ a, preserves R (k a)) → preserves R (bind m k).
Proof.
  intros Hm Hk s. unfold bind. specialize (Hm s).
  destruct (m s) as [a s'|e s']; simpl in *; [|done].
  etrans; [done|]. apply Hk.
Qed.
Lemma preserves_for_each {A} R `{!PreOrder R} (l : list A) body :
  (∀ x, x ∈ l → preserves R (body x)) → preserves R (for_each l body).
Proof.
  induction l as [|x l IH]; intros Hb; simpl.
  - apply preserves_ret; apply _.
  - apply preserves_bind; [apply _| apply Hb; left |].
    intros _. apply IH. intros y Hy. apply Hb. by right.
Qed.

Lemma ro_ret {A} P (a : A) : raises_only P (ret a).
Proof. intros s e s' [=]. Qed.
Lemma ro_get P : raises_only P get.
Proof. intros s e s' [=]. Qed.
Lemma ro_modify P f : raises_only P (modify f).
Proof. intros s e s' [=]. Qed.
Lemma ro_raise {A} (P : error → Prop) e : P e → raises_only P (@raise A e).
Proof. intros H s e' s' [= <- _]. done. Qed.
Lemma ro_assert (P : error → Prop) ln b : P (AssertionError ln) → raises_only P (py_assert ln b).
Proof. intros H s e s'. destruct b; intros [=]. by subst. Qed.
Lemma ro_bind {A B} P (m : M A) (k : A → M B) :
  raises_only P m → (∀ a, raises_only P (k a)) → raises_only P (bind m k).
Proof.
  intros Hm Hk s e s'. unfold bind. destruct (m s) as [a s1|e1 s1] eqn:E.
  - apply Hk.
  - intros [= <- <-]. by eapply Hm.
Qed.
Lemma ro_for_each {A} P (l : list A) body :
  (∀ x, raises_only P (body x)) → raises_only P (for_each l body).
Proof.
  intros Hb. induction l as [|x l IH]; simpl.
  - apply ro_ret.
  - apply ro_bind; [apply Hb | intros _; apply IH].
Qed.

Lemma ro_setattr_height P n v : P RuntimeError → raises_only P (setattr_height n v).
Proof. intros H s e s'. unfold setattr_height. case_match; intros [=]; by subst. Qed.
Lemma ro_setattr_depth P n v : P RuntimeError → raises_only P (setattr_depth n v).
Proof. intros H s e s'. unfold setattr_depth. case_match; intros [=]; by subst. Qed.

Ltac ro_step :=
  lazymatch goal with
  | |- raises_only _ (insert_edge _ _ _) => fail
  | |- ∀ _, _ => intros ?
  | |- raises_only _ (match ?x with _ => _ end) => destruct x eqn:?
  | |- raises_only _ _ =>
    first [ apply ro_ret | apply ro_get | apply ro_modify
          | apply ro_raise | apply ro_assert
          | apply ro_setattr_height | apply ro_setattr_depth
          | apply ro_bind | apply ro_for_each ]
  end.

Lemma ro_setMinHeight (P : error → Prop) fuel n h :
  P RuntimeError → P (AssertionError 104) → raises_only P (_setMinHeight fuel n h).
Proof.
  intros H1 H2. revert n h. induction fuel as [|k IH]; intros n h; simpl.
  - by apply ro_raise.
  - repeat ro_step; try done.
Qed.

Lemma ro_setMinDepth (P : error → Prop) fuel n d :
  P RuntimeError → raises_only P (_setMinDepth fuel n d).
Proof.
  intros H1. revert n d. induction fuel as [|k IH]; intros n d; simpl.
  - by apply ro_raise.
  - repeat ro_step; try done.
Qed.

Lemma ro_Fragment_or (P : error → Prop) f that : raises_only P (Fragment_or f that).
Proof. unfold Fragment_or. case_decide; repeat ro_step. Qed.

Lemma ro_insert_edge self node lbl : raises_only edge_errors (insert_edge self node lbl).
Proof.
  unfold insert_edge, TreeNode_add_child, edge_errors.
  repeat ro_step; auto using ro_setMinHeight, ro_setMinDepth, ro_Fragment_or.
Qed.

(** C6, amended.  [FUDGNode.add_child] is rejected by one of its two entry
    assertions (lines 74 and 75) exactly when the two names are equal, or the
    child is the root and the parent is not a bundle passing a label: the
    guard is [label is not None], so a bundle takes the root as an [unspec]
    member as well as its designated top. *)
Theorem add_child_rejected_iff s self node lbl :
  rejected (FUDGNode_add_child self node lbl s) ↔
  name s self = name s node ∨
  (isRoot s node = true ∧ ¬ (isCBB s self = true ∧ lbl ≠ None)).
Proof.
  unfold rejected, FUDGNode_add_child, bind, get, py_assert, ret, raise.
  destruct (bool_decide (name s self ≠ name s node)) eqn:Hn; simpl.
  2: { apply bool_decide_eq_false in Hn. apply dec_stable in Hn.
       split; [auto|]. intros _; eexists; by left. }
  apply bool_decide_eq_true in Hn.
  destruct (negb (isRoot s node) || _) eqn:Hg; simpl.
  - split.
    + intros [s' [H|H]]; apply ro_insert_edge in H; destruct H as [|[|]]; discriminate.
    + intros [?|[Hr Hc]]; [done|]. exfalso. rewrite Hr in Hg. simpl in Hg.
      apply andb_true_iff in Hg as [? ?%bool_decide_eq_true]. by apply Hc.
  - split; [|intros _; eexists; by right]. intros _. right.
    apply orb_false_iff in Hg as [Hr Hc]. apply negb_false_iff in Hr.
    split; [done|]. intros [H1 H2]. rewrite H1 in Hc. simpl in Hc.
    by apply bool_decide_eq_false in Hc.
Qed.

Lemma reachable_false fuel s a b :
  reachable fuel s a b = Some false → ¬ reaches s a b.
Proof.
  revert a. induction fuel as [|k IH]; intros a; simpl; [done|].
  case_decide as Hab; [done|]. intros Hscan Hr.
  inversion Hr as [|? c ? Hc Hcb]; subst; [done|].
  apply elem_of_iter in Hc. revert Hscan Hc.
  generalize (iter (children s a)). intros l.
  induction l as [|x l IHl]; intros Hscan Hc.
  - by apply elem_of_nil in Hc.
  - destruct (reachable k s x b) as [[]|] eqn:E; try done.
    apply elem_of_cons in Hc as [->|Hc]; [by eapply IH|by apply IHl].
Qed.

Lemma children_forward_half self node lbl s n :
  children (forward_half self node lbl s) n =
  if decide (sets_of s n = sets_of s self) then children s n ∪ {[node]} else children s n.
Proof.
  unfold forward_half, children, sets_of. simpl.
  case_decide as E.
  - rewrite E. by rewrite lookup_total_insert_eq.
  - rewrite lookup_total_insert_ne; [done|]. congruence.
Qed.

Lemma reaches_forward_half self node lbl s a b :
  reaches s a b → reaches (forward_half self node lbl s) a b.
Proof.
  induction 1 as [|n c m Hc _ IH]; [constructor|].
  eapply reaches_child; [|done]. rewrite children_forward_half.
  case_decide; set_solver.
Qed.

(** C5, amended.  When the assertions pass, the child reaches the parent
    along existing child edges and the search returns, the call raises the
    cycle exception.  The search runs after lines 76-77: at the raise the
    parent's [children] and [childedges] already hold the child, while every
    [parents] and [parentedges] set, every height and depth and every fragment
    are as before the call. *)
Theorem add_child_cycle s self node lbl :
  name s self ≠ name s node →
  isRoot s node = false ∨ (isCBB s self = true ∧ lbl ≠ None) →
  reaches s node self →
  reachable (S recursion_limit) (forward_half self node lbl s) node self ≠ None →
  FUDGNode_add_child self node lbl s = Exn CycleError (forward_half self node lbl s) ∧
  children (forward_half self node lbl s) self = children s self ∪ {[node]} ∧
  childedges (forward_half self node lbl s) self = childedges s self ∪ {[(node, lbl)]} ∧
  (∀ n, parents (forward_half self node lbl s) n = parents s n) ∧
  (∀ n, parentedges (forward_half self node lbl s) n = parentedges s n) ∧
  attrs (forward_half self node lbl s) = attrs s ∧
  frags (forward_half self node lbl s) = frags s.
Proof.
  intros Hname Hroot Hreach Hterm. split; [|split; [|split]].
  - unfold FUDGNode_add_child. msimpl.
    rewrite bool_decide_eq_true_2 by done. msimpl.
    assert (negb (isRoot s node) || isCBB s self && bool_decide (lbl ≠ None) = true) as ->.
    { destruct Hroot as [->|[-> ?]]; [done|]. rewrite bool_decide_eq_true_2 by done.
      by rewrite orb_true_r. }
    msimpl. unfold insert_edge, TreeNode_add_child. msimpl.
    change (with_topo _ (with_topo _ s)) with (forward_half self node lbl s).
    destruct (reachable _ _ node self) as [[]|] eqn:E; [done| |done].
    exfalso. eapply reachable_false; [done|]. by apply reaches_forward_half.
  - rewrite children_forward_half. by rewrite decide_True.
  - unfold forward_half, childedges, sets_of. simpl. by rewrite lookup_total_insert_eq.
  - done.
Qed.

#[local] Instance frame_by_preorder {V} (view : State → V) : PreOrder (frame_by view).
Proof. split; [by intros s | intros s1 s2 s3 H1 H2; unfold frame_by in *; congruence]. Qed.

Lemma preserves_setattr_height {V} (view : State → V) n v :
  (∀ s g, view (with_attrs (up_height g) s) = view s) →
  preserves (frame_by view) (setattr_height n v).
Proof. intros H s. unfold setattr_height. case_match; simpl; [apply H|done]. Qed.
Lemma preserves_setattr_depth {V} (view : State → V) n v :
  (∀ s g, view (with_attrs (up_depth g) s) = view s) →
  preserves (frame_by view) (setattr_depth n v).
Proof. intros H s. unfold setattr_depth. case_match; simpl; [apply H|done]. Qed.
Lemma preserves_setattr_topcandidates {V} (view : State → V) n v :
  (∀ s g, view (with_attrs (up_topcandidates g) s) = view s) →
  preserves (frame_by view) (setattr_topcandidates n v).
Proof. intros H s. unfold setattr_topcandidates. case_match; simpl; [apply H|done]. Qed.
Lemma preserves_setattr_parentcandidates {V} (view : State → V) n v :
  (∀ s g, view (with_attrs (up_parentcandidates g) s) = view s) →
  preserves (frame_by view) (setattr_parentcandidates n v).
Proof. intros H s. unfold setattr_parentcandidates. case_match; simpl; [apply H|done]. Qed.

Ltac frame_step :=
  lazymatch goal with
  | |- ∀ _, _ => intros ?
  | |- preserves _ (match ?x with _ => _ end) => destruct x eqn:?
  | |- preserves _ (bind _ _) => apply preserves_bind; [apply _| |]
  | |- preserves _ (for_each _ _) => apply preserves_for_each; [apply _|intros ? _]
  | |- preserves _ (ret _) => apply preserves_ret; apply _
  | |- preserves _ (raise _) => apply preserves_raise; apply _
  | |- preserves _ get => apply preserves_get; apply _
  | |- preserves _ (py_assert _ _) => apply preserves_assert; apply _
  | |- preserves _ (modify _) => apply preserves_modify; intros ?; reflexivity
  | |- preserves _ (setattr_height _ _) => apply preserves_setattr_height; reflexivity
  | |- preserves _ (setattr_depth _ _) => apply preserves_setattr_depth; reflexivity
  | |- preserves _ (setattr_topcandidates _ _) =>
      apply preserves_setattr_topcandidates; reflexivity
  | |- preserves _ (setattr_parentcandidates _ _) =>
      apply preserves_setattr_parentcandidates; reflexivity
  | |- preserves _ (insert_edge _ _ _) => unfold insert_edge, TreeNode_add_child
  | |- preserves _ (FUDGNode_add_child _ _ _) => unfold FUDGNode_add_child
  | |- preserves _ (CBBNode_add_child _ _ _) => unfold CBBNode_add_child
  | |- preserves _ (add_child _ _ _) => unfold add_child
  | |- preserves _ (add_member _ _ _) => unfold add_member
  | |- preserves _ (FUDGNode_init _ _ _) => unfold FUDGNode_init, TreeNode_init
  end.

Lemma preserves_setMinHeight {V} (view : State → V) fuel n h :
  (∀ s g, view (with_attrs (up_height g) s) = view s) →
  preserves (frame_by view) (_setMinHeight fuel n h).
Proof.
  intros H. revert n h. induction fuel as [|k IH]; intros n h; simpl.
  - frame_step.
  - repeat first [apply IH | apply preserves_setattr_height; exact H | frame_step].
Qed.

Lemma preserves_setMinDepth {V} (view : State → V) fuel n h :
  (∀ s g, view (with_attrs (up_depth g) s) = view s) →
  preserves (frame_by view) (_setMinDepth fuel n h).
Proof.
  intros H. revert n h. induction fuel as [|k IH]; intros n h; simpl.
  - frame_step.
  - repeat first [apply IH | apply preserves_setattr_depth; exact H | frame_step].
Qed.

Lemma preserves_Fragment_or {V} (view : State → V) f that :
  (∀ s g, view (with_frags g s) = view s) →
  preserves (frame_by view) (Fragment_or f that).
Proof.
  intros H. unfold Fragment_or. case_decide; [frame_step|].
  repeat first [apply preserves_modify; intros ?; apply H | frame_step].
Qed.

Lemma preserves_Fragment_init {V} (view : State → V) f rts nds :
  (∀ s g, view (with_frags g s) = view s) →
  preserves (frame_by view) (Fragment_init f rts nds).
Proof.
  intros H. unfold Fragment_init.
  repeat first [apply preserves_modify; intros ?; apply H | frame_step].
Qed.

Ltac frame_tac :=
  repeat first [ apply preserves_setMinHeight; reflexivity
               | apply preserves_setMinDepth; reflexivity
               | apply preserves_Fragment_or; reflexivity
               | apply preserves_Fragment_init; reflexivity
               | frame_step ].

Ltac frame_of V H :=
  lazymatch type of H with
  | ?m ?s = _ =>
    let Hp := fresh "Hframe" in
    assert (preserves (frame_by V) m) as Hp by frame_tac;
    specialize (Hp s); rewrite H in Hp; unfold frame_by in Hp; simpl in Hp
  end.

Lemma insert_edge_frame self node lbl s :
  edge_view (final (insert_edge self node lbl s)) =
  edge_view (with_topo (up_children <[sets_of s self := children s self ∪ {[node]}]>) s).
Proof.
  unfold insert_edge, TreeNode_add_child. msimpl.
  match goal with |- edge_view (final (?m ?s')) = _ =>
    enough (preserves (frame_by edge_view) m) as Hp
      by (etrans; [apply Hp | reflexivity]) end.
  frame_tac.
Qed.

Lemma preserves_insert_edge self node lbl :
  preserves (frame_by bundle_view) (insert_edge self node lbl).
Proof. unfold insert_edge, TreeNode_add_child. frame_tac. Qed.

Lemma preserves_FUDGNode_add_child self node lbl :
  preserves (frame_by bundle_view) (FUDGNode_add_child self node lbl).
Proof. frame_tac. Qed.

Lemma ro_FUDGNode_add_child self node lbl :
  raises_only (λ e, e = AssertionError 74 ∨ e = AssertionError 75 ∨ edge_errors e)
    (FUDGNode_add_child self node lbl).
Proof.
  unfold FUDGNode_add_child. repeat ro_step; auto.
  intros s1 e s' H%ro_insert_edge. auto.
Qed.

Lemma bundle_view_members s s' n : bundle_view s' = bundle_view s → members s' n = members s n.
Proof. unfold bundle_view, members, sets_of. intros [=]. congruence. Qed.
Lemma bundle_view_top s s' n : bundle_view s' = bundle_view s → top s' n = top s n.
Proof. unfold bundle_view, top. intros [=]. congruence. Qed.

(** C7, amended.  [add_member] puts the node into [members] whatever the
    outcome; it fails at its own assertion (line 183) exactly when a top is
    asked for and the bundle has one already, be it the same node; otherwise
    it records the node as the top when asked to, and goes on as
    [FUDGNode.add_child] with the label [top] or [unspec]. *)
Theorem add_member_spec s self node specified_top :
  node ∈ members (final (add_member self node specified_top s)) self ∧
  ((∃ s', add_member self node specified_top s = Exn (AssertionError 183) s') ↔
     specified_top = true ∧ top s self ≠ None) ∧
  (specified_top = true → top s self = None →
     add_member self node true s =
       FUDGNode_add_child self node (Some "top") (with_top self node (with_member self node s)) ∧
     top (final (add_member self node true s)) self = Some node) ∧
  (specified_top = false →
     add_member self node false s =
       FUDGNode_add_child self node (Some "unspec") (with_member self node s)).
Proof.
  assert (Hm : ∀ s2 lbl, members s2 self = members (with_member self node s) self →
                 node ∈ members (final (FUDGNode_add_child self node lbl s2)) self).
  { intros s2 lbl E. rewrite (bundle_view_members s2); [|apply preserves_FUDGNode_add_child].
    rewrite E. unfold with_member, members at 1, sets_of at 1. simpl.
    fold (sets_of s self). rewrite lookup_total_insert_eq. set_solver. }
  unfold add_member, bind, get, modify, py_assert, ret, raise. cbv beta iota.
  fold (with_member self node s).
  destruct specified_top; cbv beta iota.
  - change (top (with_member self node s) self) with (top s self).
    case_bool_decide as Ht; cbv beta iota.
    + fold (with_top self node (with_member self node s)).
      split; [by apply Hm|]. split; [|split; [|done]].
      * split; [|intros [_ ?]; done].
        intros [s' H%ro_FUDGNode_add_child]. destruct H as [|[|[|[|]]]]; done.
      * intros _ _. split; [done|].
        rewrite (bundle_view_top (with_top self node (with_member self node s)));
          [|apply preserves_FUDGNode_add_child].
        unfold top, with_top. simpl. by rewrite lookup_insert_eq.
    + split; [|split; [|split; done]].
      * unfold with_member, members, sets_of. simpl. fold (sets_of s self).
        rewrite lookup_total_insert_eq. set_solver.
      * split; [done|]. intros _. by eexists.
  - split; [by apply Hm|]. split; [|split; done].
    split; [|intros [? _]; done].
    intros [s' H%ro_FUDGNode_add_child]. destruct H as [|[|[|[|]]]]; done.
Qed.

(** Equations of the monad, pointwise *)
Lemma bind_get {B} (k : State → M B) s : bind get k s = k s s.
Proof. done. Qed.
Lemma bind_modify {B} f (k : unit → M B) s : bind (modify f) k s = k tt (f s).
Proof. done. Qed.
Lemma bind_assert {B} ln b (k : unit → M B) s :
  bind (py_assert ln b) k s = if b then k tt s else Exn (AssertionError ln) s.
Proof. by destruct b. Qed.
Lemma bind_Ret_inv {A B} (m : M A) (k : A → M B) s b s' :
  bind m k s = Ret b s' → ∃ a s1, m s = Ret a s1 ∧ k a s1 = Ret b s'.
Proof. unfold bind. destruct (m s) as [a s1|]; [eauto|done]. Qed.
Lemma for_each_keeps {A} (I : State → Prop) (l : list A) body s s' :
  (∀ x s s', I s → body x s = Ret tt s' → I s') →
  I s → for_each l body s = Ret tt s' → I s'.
Proof.
  intros Hb. revert s. induction l as [|x l IH]; intros s HI; simpl.
  - by intros [= <-].
  - intros (a & s1 & H1 & H2)%bind_Ret_inv. destruct a. eauto.
Qed.

Lemma sets_of_not_CBB s n : sets_wf s → isCBB s n = false → sets_of s n = n.
Proof.
  intros Hwf Hn. unfold sets_of. destruct (f_sets (topo s) !! n) as [o|] eqn:E; [|done].
  simpl. destruct (decide (o = n)) as [|Hne]; [done|].
  destruct (Hwf _ _ E Hne). congruence.
Qed.

Lemma sets_of_CBB s b : sets_wf s → isCBB s b = true → isCBB s (sets_of s b) = true.
Proof.
  intros Hwf Hb. unfold sets_of. destruct (f_sets (topo s) !! b) as [o|] eqn:E; [|done].
  simpl. destruct (decide (o = b)) as [->|Hne]; [done|]. by destruct (Hwf _ _ E Hne).
Qed.

Lemma FUDGNode_add_child_Ret s self node lbl s' :
  FUDGNode_add_child self node lbl s = Ret tt s' →
  edge_view s' =
  edge_view (with_topo (up_children <[sets_of s self := children s self ∪ {[node]}]>) s).
Proof.
  unfold FUDGNode_add_child. rewrite bind_get, !bind_assert.
  repeat case_match; try done. intros Hret.
  rewrite <- (insert_edge_frame self node lbl s). by rewrite Hret.
Qed.

Lemma bundles_ok_view s s' : bundles_view s' = bundles_view s → bundles_ok s → bundles_ok s'.
Proof.
  unfold bundles_view. intros [= Hc Hch Hm He Hs] [Hi Hw]. split.
  - intros b. unfold isCBB, class_of, children, members, externalchildren, sets_of.
    rewrite Hc, Hch, Hm, He, Hs. apply Hi.
  - intros n o. unfold isCBB, class_of. rewrite Hc, Hs. apply Hw.
Qed.

(** Adding [node] to the children of [self] and, for a bundle, to its
    members or external children. *)
Lemma bundles_ok_insert s s' self node (g : bool) :
  bundles_ok s →
  f_class (static s') = f_class (static s) →
  f_sets (topo s') = f_sets (topo s) →
  f_children (topo s') = <[sets_of s self := children s self ∪ {[node]}]> (f_children (topo s)) →
  (if isCBB s self then
     if g then
       f_members (topo s') = <[sets_of s self := members s self ∪ {[node]}]> (f_members (topo s)) ∧
       f_externalchildren (topo s') = f_externalchildren (topo s)
     else
       f_members (topo s') = f_members (topo s) ∧
       f_externalchildren (topo s') =
         <[sets_of s self := externalchildren s self ∪ {[node]}]> (f_externalchildren (topo s))
   else f_members (topo s') = f_members (topo s) ∧
        f_externalchildren (topo s') = f_externalchildren (topo s)) →
  bundles_ok s'.
Proof.
  intros [Hi Hw] Hc Hs Hch Hrest. split.
  2: { intros n o. unfold isCBB, class_of. rewrite Hc, Hs. apply Hw. }
  intros b Hb. assert (Hb' : isCBB s b = true) by (revert Hb; unfold isCBB, class_of; by rewrite Hc).
  specialize (Hi b Hb'). revert Hi.
  unfold children, members, externalchildren in *. unfold sets_of at 1 2 3 4 5 6.
  rewrite Hs, Hch. fold (sets_of s b).
  destruct (isCBB s self) eqn:Hself.
  - destruct g; destruct Hrest as [-> ->];
      (destruct (decide (sets_of s self = sets_of s b)) as [E|Hne];
       [rewrite E, !lookup_total_insert_eq|rewrite !lookup_total_insert_ne by done]);
      set_solver.
  - destruct Hrest as [-> ->].
    rewrite lookup_total_insert_ne; [done|].
    rewrite (sets_of_not_CBB s self) by done. intros E.
    pose proof (sets_of_CBB s b Hw Hb') as H. rewrite <- E in H. congruence.
Qed.

Lemma edge_view_eq s s' :
  edge_view s' = edge_view s →
  static s' = static s ∧ f_children (topo s') = f_children (topo s) ∧
  f_members (topo s') = f_members (topo s) ∧
  f_externalchildren (topo s') = f_externalchildren (topo s) ∧
  f_sets (topo s') = f_sets (topo s).
Proof. unfold edge_view. intros H. injection H. intros. by repeat split. Qed.

Lemma add_child_bundles_ok s p c lbl s' :
  bundles_ok s → add_child p c lbl s = Ret tt s' → bundles_ok s'.
Proof.
  intros Hok. unfold add_child. rewrite bind_get.
  destruct (isCBB s p) eqn:Hp.
  - unfold CBBNode_add_child. rewrite bind_modify.
    intros (Hst & Hch & Hm & He & Hs)%FUDGNode_add_child_Ret%edge_view_eq.
    apply (bundles_ok_insert s s' p c false); try done; [by rewrite Hst|].
    by rewrite Hp.
  - intros (Hst & Hch & Hm & He & Hs)%FUDGNode_add_child_Ret%edge_view_eq.
    apply (bundles_ok_insert s s' p c false); try done; [by rewrite Hst|].
    by rewrite Hp.
Qed.

Lemma add_member_bundles_ok s b c st s' :
  bundles_ok s → isCBB s b = true → add_member b c st s = Ret tt s' → bundles_ok s'.
Proof.
  intros Hok Hb. unfold add_member. rewrite bind_modify.
  intros (a & s1 & H1 & H2)%bind_Ret_inv.
  assert (edge_view s1 = edge_view (with_topo (up_top (λ m, f_top (topo s1)))
                                      (with_member b c s))) as Hs1.
  { destruct st.
    - rewrite bind_get, bind_assert in H1. case_match; [|done].
      injection H1 as _ <-. done.
    - injection H1 as _ <-. done. }
  apply edge_view_eq in Hs1 as (Hst1 & Hch1 & Hm1 & He1 & Hss1).
  apply FUDGNode_add_child_Ret, edge_view_eq in H2 as (Hst & Hch & Hm & He & Hs).
  simpl in *.
  apply (bundles_ok_insert s s' b c true); try done.
  - by rewrite Hst, Hst1.
  - by rewrite Hs, Hss1.
  - rewrite Hch. unfold children, sets_of. by rewrite Hss1, Hch1.
  - rewrite Hb. split; [by rewrite Hm, Hm1|by rewrite He, He1].
Qed.

Lemma setattr_height_Ret n v s s' :
  setattr_height n v s = Ret tt s' → ∃ g, s' = with_attrs (up_height g) s.
Proof. unfold setattr_height. case_match; [|done]. intros [= <-]. eauto. Qed.
Lemma setattr_depth_Ret n v s s' :
  setattr_depth n v s = Ret tt s' → ∃ g, s' = with_attrs (up_depth g) s.
Proof. unfold setattr_depth. case_match; [|done]. intros [= <-]. eauto. Qed.

Lemma preserves_add_child_static p c lbl : preserves (frame_by static) (add_child p c lbl).
Proof. frame_tac. Qed.

Lemma become_pointer_bundles_ok s a b s' :
  bundles_ok s → isCBB s a = true → become_pointer a b s = Ret tt s' → bundles_ok s'.
Proof.
  intros Hok Ha. unfold become_pointer. rewrite bind_get, !bind_assert.
  destruct (isCBB s b) eqn:Hb; [|done].
  destruct (bool_decide (members s b = members s a)); [|done].
  destruct (_ || _); [|done].
  rewrite bind_modify. rewrite bind_get.
  intros ([] & s1 & (g1 & ->)%setattr_height_Ret & Hr)%bind_Ret_inv.
  rewrite bind_get in Hr.
  apply bind_Ret_inv in Hr as ([] & s2 & (g2 & ->)%setattr_depth_Ret & Hr).
  rewrite bind_get in Hr.
  apply bind_Ret_inv in Hr as ([] & s3 & Hloop & Hr).
  rewrite !bind_modify in Hr. injection Hr as <-.
  set (J := λ s, bundles_ok s ∧ isCBB s a = true ∧ isCBB s b = true).
  assert (J s3) as (Hok3 & Ha3 & Hb3).
  { eapply (for_each_keeps J); [| |exact Hloop].
    - intros c t t' (Ht & Hta & Htb) Hc. split; [by eapply add_child_bundles_ok|].
      assert (static t' = static t) as Hst.
      { pose proof (preserves_add_child_static b c None t) as Hp. by rewrite Hc in Hp. }
      unfold isCBB, class_of in *. by rewrite Hst.
    - destruct (top s b); (split; [|done]); (eapply bundles_ok_view; [|exact Hok]); done. }
  destruct Hok3 as [Hi Hw]. split.
  - intros x Hx. change (isCBB s3 x = true) in Hx.
    unfold children, members, externalchildren, sets_of. simpl.
    destruct (decide (x = a)) as [->|Hne].
    + rewrite lookup_insert_eq. simpl. 
      apply (Hi b Hb3).
    + rewrite lookup_insert_ne by done. apply (Hi x Hx).
  - intros n o. unfold isCBB, class_of. simpl.
    destruct (decide (n = a)) as [->|Hne].
    + rewrite lookup_insert_eq. intros [= <-] _. split; [done|].
      by apply sets_of_CBB.
    + rewrite lookup_insert_ne by done. apply Hw.
Qed.

Lemma FUDGNode_init_Ret r nm chs s s' :
  FUDGNode_init r nm chs s = Ret tt s' →
  bundles_view s' =
  (f_class (static s), <[r := chs]> (f_children (topo s)), f_members (topo s),
   f_externalchildren (topo s), <[r := r]> (f_sets (topo s))).
Proof.
  unfold FUDGNode_init, TreeNode_init.
  intros ([] & s1 & H1 & H2)%bind_Ret_inv.
  rewrite !bind_modify in H1. injection H1 as <-.
  frame_of bundles_view H2. done.
Qed.

Lemma bundles_ok_fresh s s' r c chs :
  class_of s r = None → c ≠ CBBNode →
  bundles_view s' =
  (<[r := c]> (f_class (static s)), <[r := chs]> (f_children (topo s)), f_members (topo s),
   f_externalchildren (topo s), <[r := r]> (f_sets (topo s))) →
  bundles_ok s → bundles_ok s'.
Proof.
  unfold bundles_view. intros Hr Hc [= Hcl Hch Hm He Hs] [Hi Hw].
  assert (Hcbb : ∀ x, isCBB s' x = true → x ≠ r ∧ isCBB s x = true).
  { intros x. unfold isCBB, class_of. rewrite Hcl. intros Hx%bool_decide_eq_true.
    destruct (decide (x = r)) as [->|Hne].
    - rewrite lookup_insert_eq in Hx. congruence.
    - rewrite lookup_insert_ne in Hx by done. split; [done|]. by apply bool_decide_eq_true. }
  assert (Hnr : ∀ x, isCBB s x = true → sets_of s x ≠ r).
  { intros x Hx E. pose proof (sets_of_CBB s x Hw Hx) as Ho. rewrite E in Ho.
    apply bool_decide_eq_true in Ho. unfold class_of in *. congruence. }
  split.
  - intros b Hb. destruct (Hcbb b Hb) as [Hne Hb'].
    unfold children, members, externalchildren, sets_of.
    rewrite Hch, Hm, He, Hs. rewrite lookup_insert_ne by done. fold (sets_of s b).
    rewrite lookup_total_insert_ne by (apply not_eq_sym; by apply Hnr). by apply Hi.
  - intros n o. rewrite Hs. destruct (decide (n = r)) as [->|Hne].
    + rewrite lookup_insert_eq. intros [= <-]. done.
    + rewrite lookup_insert_ne by done. intros Hno Hon.
      destruct (Hw n o Hno Hon) as [Hn Ho]. revert Hn Ho.
      unfold isCBB, class_of. rewrite Hcl. intros Hn Ho.
      rewrite !lookup_insert_ne; [done| |done].
      intros <-. apply bool_decide_eq_true in Ho. unfold class_of in Hr. congruence.
Qed.

Lemma RootNode_init_bundles_ok r chs s s' :
  class_of s r = None → RootNode_init r chs s = Ret tt s' → bundles_ok s → bundles_ok s'.
Proof.
  intros Hr. unfold RootNode_init. rewrite bind_modify.
  intros ([] & s1 & H1%FUDGNode_init_Ret & H2)%bind_Ret_inv.
  injection H2 as <-. apply (bundles_ok_fresh s _ r RootNode chs); done.
Qed.

Lemma LexicalNode_init_bundles_ok r nm tkns s s' :
  class_of s r = None → LexicalNode_init r nm tkns s = Ret tt s' → bundles_ok s → bundles_ok s'.
Proof.
  intros Hr. unfold LexicalNode_init. rewrite !bind_modify, bind_assert.
  case_match; [|done].
  intros ([] & s1 & H1%FUDGNode_init_Ret & H2)%bind_Ret_inv.
  frame_of bundles_view H2.
  apply (bundles_ok_fresh s _ r LexicalNode ∅); [done|done|]. by rewrite Hframe, H1.
Qed.

Lemma CBBNode_init_bundles_ok r nm mbrs exts tp s s' :
  class_of s r = None → CBBNode_init r nm mbrs exts tp s = Ret tt s' →
  bundles_ok s → bundles_ok s'.
Proof.
  intros Hr. unfold CBBNode_init. rewrite !bind_modify.
  intros ([] & s1 & H1%FUDGNode_init_Ret & H2)%bind_Ret_inv.
  rewrite !bind_modify in H2. injection H2 as <-.
  unfold bundles_view in H1. simpl in H1. injection H1 as Hcl Hch Hm He Hs.
  intros [Hi Hw].
  assert (Hnr : ∀ x, isCBB s x = true → sets_of s x ≠ r).
  { intros x Hx E. pose proof (sets_of_CBB s x Hw Hx) as Ho. rewrite E in Ho.
    apply bool_decide_eq_true in Ho. unfold class_of in *. congruence. }
  split.
  - intros b. unfold isCBB, class_of, children, members, externalchildren, sets_of. simpl.
    rewrite Hcl, Hch, Hm, He, Hs. destruct (decide (b = r)) as [->|Hne].
    + intros _. rewrite lookup_insert_eq. simpl. by rewrite !lookup_total_insert_eq.
    + rewrite !lookup_insert_ne by done. intros Hb. fold (sets_of s b).
      rewrite !lookup_total_insert_ne by (apply not_eq_sym; by apply Hnr). by apply Hi.
  - intros n o. unfold isCBB, class_of. simpl. rewrite Hcl, Hs.
    destruct (decide (n = r)) as [->|Hne].
    + rewrite lookup_insert_eq. intros [= <-]. done.
    + rewrite lookup_insert_ne by done. intros Hno Hon.
      destruct (Hw n o Hno Hon) as [Hn Ho]. revert Hn Ho.
      unfold isCBB, class_of. intros Hn Ho.
      rewrite !lookup_insert_ne; [done| |done].
      intros <-. apply bool_decide_eq_true in Ho. unfold class_of in Hr. congruence.
Qed.

Lemma preserves_upward_edges {V} (view : State → V) n es :
  (∀ s g, view (with_attrs (up_topcandidates g) s) = view s) →
  preserves (frame_by view) (upward_edges n es).
Proof.
  intros H. induction es as [|[c e] es IH]; simpl.
  - frame_step.
  - repeat case_decide;
      repeat first [ apply IH | apply preserves_setattr_topcandidates; exact H | frame_step ].
Qed.

Lemma preserves_upward {V} (view : State → V) :
  (∀ s g, view (with_attrs (up_topcandidates g) s) = view s) →
  preserves (frame_by view) upward.
Proof.
  intros H. unfold upward, upward_node.
  repeat first [ apply preserves_upward_edges; exact H
               | apply preserves_setattr_topcandidates; exact H | frame_step ].
Qed.

Lemma preserves_downward {V} (view : State → V) :
  (∀ s g, view (with_attrs (up_parentcandidates g) s) = view s) →
  preserves (frame_by view) downward.
Proof.
  intros H. unfold downward, downward_node, downward_edge, iand_parentcandidates, member_cands.
  repeat first [ apply preserves_setattr_parentcandidates; exact H | frame_step ].
Qed.

Lemma CoordinationNode_init_bundles_ok r nm s s' :
  class_of s r = None → CoordinationNode_init r nm s = Ret tt s' → bundles_ok s → bundles_ok s'.
Proof.
  intros Hr. unfold CoordinationNode_init. rewrite bind_modify.
  intros H1%FUDGNode_init_Ret. apply (bundles_ok_fresh s _ r CoordinationNode ∅); done.
Qed.

Lemma step_bundles_ok P s s' : step P s s' → bundles_ok s → bundles_ok s'.
Proof.
  destruct 1 as [r chs Hr H|r nm tk Hr H|r nm Hr H|r nm mb ex tp Hr H|p c lbl H
                |b c st Hb H|a b _ Ha H|H|H|X l m ->].
  - by eapply RootNode_init_bundles_ok.
  - by eapply LexicalNode_init_bundles_ok.
  - by eapply CoordinationNode_init_bundles_ok.
  - by eapply CBBNode_init_bundles_ok.
  - intros; by eapply add_child_bundles_ok.
  - intros; by eapply add_member_bundles_ok.
  - intros; by eapply become_pointer_bundles_ok.
  - apply bundles_ok_view.
    pose proof (preserves_upward upward_view (λ _ _, eq_refl) s) as Hp.
    rewrite H in Hp. unfold frame_by, upward_view in Hp. simpl in Hp.
    injection Hp as Hst Ht _. unfold bundles_view. by rewrite Hst, Ht.
  - apply bundles_ok_view.
    pose proof (preserves_downward downward_view (λ _ _, eq_refl) s) as Hp.
    rewrite H in Hp. unfold frame_by, downward_view in Hp. simpl in Hp.
    injection Hp as Hst Ht _. unfold bundles_view. by rewrite Hst, Ht.
  - by apply bundles_ok_view.
Qed.

(** C10.  In every state a graph goes through, the children of a bundle are
    its members together with its external children. *)
Theorem cbb_children_invariant s b :
  lifetime s → isCBB s b = true →
  children s b = members s b ∪ externalchildren s b.
Proof.
  intros Hl. enough (bundles_ok s) as [Hi _] by apply Hi.
  unfold lifetime in Hl. revert s Hl. apply rtc_ind_r.
  - split; [intros x Hx; by apply bool_decide_eq_true in Hx|].
    intros n o Hn. simpl in Hn. by rewrite lookup_empty in Hn.
  - intros y z _ Hyz IH. by eapply step_bundles_ok.
Qed.

Lemma aliased_view a c s s' : alias_view s' = alias_view s → aliased a c s → aliased a c s'.
Proof. unfold alias_view, aliased, class_of. intros [= -> ->]. done. Qed.

Lemma aliased_fresh a c r C g s s' :
  class_of s r = None →
  alias_view s' = (<[r := C]> (f_class (static s)), g (f_pointerto (topo s))) →
  (∀ m x, x ≠ r → g m !! x = m !! x) →
  aliased a c s → aliased a c s'.
Proof.
  unfold alias_view, aliased, class_of. intros Hr [= -> ->] Hg (Ha & Hc & Hpa & Hpc).
  assert (a ≠ r) by congruence. assert (c ≠ r) by congruence.
  by rewrite !lookup_insert_ne, !Hg.
Qed.

Lemma aliased_read a c s :
  aliased a c s → getattr_cell s a = c ∧ getattr_cell s c = c.
Proof.
  unfold aliased, getattr_cell, _pointerto, isCBB. intros (Ha & Hc & -> & ->).
  by rewrite !bool_decide_eq_true_2.
Qed.

Lemma aliased_write a c s x :
  (1 ≤ recursion_limit)%nat → aliased a c s → x = a ∨ x = c →
  setattr_cell (S recursion_limit) s x = Some c.
Proof.
  unfold aliased. intros Hl (Ha & Hc & Hpa & Hpc) Hx.
  assert (_pointerto s c = None) as Hcn.
  { unfold _pointerto. by rewrite Hpc; case_match. }
  destruct recursion_limit as [|k]; [lia|].
  destruct Hx as [->| ->]; simpl.
  - unfold _pointerto at 1, isCBB. rewrite bool_decide_eq_true_2, Hpa by done.
    by rewrite Hcn.
  - by rewrite Hcn.
Qed.

Lemma FUDGNode_init_alias_view r nm chs s s' :
  FUDGNode_init r nm chs s = Ret tt s' → alias_view s' = alias_view s.
Proof. intros H. by frame_of alias_view H. Qed.

Lemma preserves_add_child_alias p c lbl : preserves (frame_by alias_view) (add_child p c lbl).
Proof. frame_tac. Qed.
Lemma preserves_add_member_alias p c st : preserves (frame_by alias_view) (add_member p c st).
Proof. frame_tac. Qed.

Lemma become_pointer_Ret a b s s' :
  become_pointer a b s = Ret tt s' →
  isCBB s b = true ∧ members s b = members s a ∧
  alias_view s' = (f_class (static s), <[a := b]> (f_pointerto (topo s))).
Proof.
  unfold become_pointer. rewrite bind_get, !bind_assert.
  destruct (isCBB s b) eqn:Hb; [|done].
  case_bool_decide as Hm; [|done].
  destruct (_ || _); [|done].
  rewrite bind_modify. rewrite bind_get.
  intros ([] & s1 & (g1 & ->)%setattr_height_Ret & Hr)%bind_Ret_inv.
  rewrite bind_get in Hr.
  apply bind_Ret_inv in Hr as ([] & s2 & (g2 & ->)%setattr_depth_Ret & Hr).
  rewrite bind_get in Hr.
  apply bind_Ret_inv in Hr as ([] & s3 & Hloop & Hr).
  rewrite !bind_modify in Hr. injection Hr as <-.
  frame_of alias_view Hloop. split; [done|]. split; [done|].
  unfold alias_view in *. simpl. injection Hframe as -> ->. by destruct (top s b).
Qed.

Lemma step_aliased a c s s' :
  step (λ x, x ≠ a ∧ x ≠ c) s s' → aliased a c s → aliased a c s'.
Proof.
  destruct 1 as [r chs Hr H|r nm tk Hr H|r nm Hr H|r nm mb ex tp Hr H|p ch lbl H
                |b ch st Hb H|x b [Hxa Hxc] Ha H|H|H|X l m ->].
  - apply (aliased_fresh a c r RootNode id); [done| |done]. revert H.
    unfold RootNode_init. rewrite bind_modify.
    intros ([] & s1 & H1%FUDGNode_init_alias_view & H2)%bind_Ret_inv.
    injection H2 as <-. done.
  - apply (aliased_fresh a c r LexicalNode id); [done| |done]. revert H.
    unfold LexicalNode_init. rewrite !bind_modify, bind_assert.
    case_match; [|done].
    intros ([] & s1 & H1%FUDGNode_init_alias_view & H2)%bind_Ret_inv.
    frame_of alias_view H2. by rewrite Hframe, H1.
  - apply (aliased_fresh a c r CoordinationNode id); [done| |done]. revert H.
    unfold CoordinationNode_init. rewrite bind_modify.
    by intros H1%FUDGNode_init_alias_view.
  - apply (aliased_fresh a c r CBBNode (delete r)); [done| |].
    + revert H. unfold CBBNode_init. rewrite !bind_modify.
      intros ([] & s1 & H1%FUDGNode_init_alias_view & H2)%bind_Ret_inv.
      rewrite !bind_modify in H2. injection H2 as <-. done.
    + intros m x Hx. by rewrite lookup_delete_ne.
  - apply aliased_view. pose proof (preserves_add_child_alias p ch lbl s) as Hp.
    by rewrite H in Hp.
  - apply aliased_view. pose proof (preserves_add_member_alias b ch st s) as Hp.
    by rewrite H in Hp.
  - apply become_pointer_Ret in H as (_ & _ & Hv).
    unfold alias_view, aliased, class_of in *. injection Hv as -> ->.
    by rewrite !lookup_insert_ne.
  - apply aliased_view.
    pose proof (preserves_upward alias_view (λ _ _, eq_refl) s) as Hp. by rewrite H in Hp.
  - apply aliased_view.
    pose proof (preserves_downward alias_view (λ _ _, eq_refl) s) as Hp. by rewrite H in Hp.
  - by apply aliased_view.
Qed.

(** C4.  Once [become_pointer] has made the bundle [a] an alias of the
    bundle [c] (itself no alias), then after any further operations the
    four forwarded attributes read the same through [a] and through [c], and a
    write through either is read back through both. *)
Theorem alias_single_source s a c s1 s2 :
  (1 ≤ recursion_limit)%nat →
  isCBB s a = true → a ≠ c → _pointerto s c = None →
  become_pointer a c s = Ret tt s1 →
  rtc (step (λ x, x ≠ a ∧ x ≠ c)) s1 s2 →
  (height s2 a = height s2 c ∧ depth s2 a = depth s2 c ∧
   topcandidates s2 a = topcandidates s2 c ∧
   parentcandidates s2 a = parentcandidates s2 c) ∧
  ∀ x, x = a ∨ x = c →
    (∀ v, ∃ s3, setattr_height x v s2 = Ret tt s3 ∧ height s3 a = v ∧ height s3 c = v) ∧
    (∀ v, ∃ s3, setattr_depth x v s2 = Ret tt s3 ∧ depth s3 a = v ∧ depth s3 c = v) ∧
    (∀ v, ∃ s3, setattr_topcandidates x v s2 = Ret tt s3 ∧
                topcandidates s3 a = Some v ∧ topcandidates s3 c = Some v) ∧
    (∀ v, ∃ s3, setattr_parentcandidates x v s2 = Ret tt s3 ∧
                parentcandidates s3 a = Some v ∧ parentcandidates s3 c = Some v).
Proof.
  intros Hlim Ha Hac Hc Hbp Hrtc.
  assert (aliased a c s1) as H1.
  { apply become_pointer_Ret in Hbp as (Hcb & _ & Hv).
    unfold alias_view, aliased, class_of in *. injection Hv as -> ->.
    unfold isCBB, class_of in Ha, Hcb. apply bool_decide_eq_true in Ha, Hcb.
    rewrite lookup_insert_eq, lookup_insert_ne by done. repeat split; try done.
    revert Hc. unfold _pointerto, isCBB, class_of. by rewrite bool_decide_eq_true_2. }
  assert (aliased a c s2) as H2.
  { clear Hbp. induction Hrtc as [|x y z Hxy _ IH]; [done|]. apply IH.
    by eapply step_aliased. }
  clear H1 Hrtc Hbp.
  destruct (aliased_read a c s2 H2) as [Era Erc].
  split.
  { unfold height, depth, topcandidates, parentcandidates. by rewrite Era, Erc. }
  intros x Hx. pose proof (aliased_write a c s2 x Hlim H2 Hx) as Hw.
  assert (∀ s3, alias_view s3 = alias_view s2 →
            getattr_cell s3 a = c ∧ getattr_cell s3 c = c) as Hrd.
  { intros s3 Hv. apply aliased_read. by eapply aliased_view. }
  repeat split; intros v; eexists.
  - unfold setattr_height. rewrite Hw. split; [done|].
    unfold height. destruct (Hrd (with_attrs (up_height <[c:=v]>) s2)) as [-> ->]; [done|].
    simpl. by rewrite lookup_total_insert_eq.
  - unfold setattr_depth. rewrite Hw. split; [done|].
    unfold depth. destruct (Hrd (with_attrs (up_depth <[c:=v]>) s2)) as [-> ->]; [done|].
    simpl. by rewrite lookup_total_insert_eq.
  - unfold setattr_topcandidates. rewrite Hw. split; [done|].
    unfold topcandidates.
    destruct (Hrd (with_attrs (up_topcandidates <[c:=v]>) s2)) as [-> ->]; [done|].
    simpl. by rewrite lookup_insert_eq.
  - unfold setattr_parentcandidates. rewrite Hw. split; [done|].
    unfold parentcandidates.
    destruct (Hrd (with_attrs (up_parentcandidates <[c:=v]>) s2)) as [-> ->]; [done|].
    simpl. by rewrite lookup_insert_eq.
Qed.

Lemma foldl_max_spec (l : list nat) (a : nat) :
  foldl Nat.max a l ∈ a :: l ∧ ∀ x, x ∈ a :: l → (x ≤ foldl Nat.max a l)%nat.
Proof.
  revert a. induction l as [|y l IH]; intros a; simpl.
  - split; [left|]. intros x ->%list_elem_of_singleton. done.
  - destruct (IH (a `max` y)%nat) as [Hin Hle]. split.
    + apply elem_of_cons in Hin as [E|Hin]; [|by do 2 right].
      rewrite E. destruct (Nat.max_spec a y) as [[_ ->]|[_ ->]]; [right; left|left].
    + intros x Hx. assert (x ≤ a `max` y ∨ x ∈ l)%nat as [Hx'|Hx'].
      { apply elem_of_cons in Hx as [->|Hx]; [left; lia|].
        apply elem_of_cons in Hx as [->|Hx]; [left; lia|by right]. }
      * etrans; [exact Hx'|]. apply Hle. left.
      * apply Hle. by right.
Qed.

Lemma foldl_min_spec (l : list nat) (a : nat) :
  foldl Nat.min a l ∈ a :: l ∧ ∀ x, x ∈ a :: l → (foldl Nat.min a l ≤ x)%nat.
Proof.
  revert a. induction l as [|y l IH]; intros a; simpl.
  - split; [left|]. intros x ->%list_elem_of_singleton. done.
  - destruct (IH (a `min` y)%nat) as [Hin Hle]. split.
    + apply elem_of_cons in Hin as [E|Hin]; [|by do 2 right].
      rewrite E. destruct (Nat.min_spec a y) as [[_ ->]|[_ ->]]; [left|right; left].
    + intros x Hx. assert (a `min` y ≤ x ∨ x ∈ l)%nat as [Hx'|Hx'].
      { apply elem_of_cons in Hx as [->|Hx]; [left; lia|].
        apply elem_of_cons in Hx as [->|Hx]; [left; lia|by right]. }
      * etrans; [|exact Hx']. apply Hle. left.
      * apply Hle. by right.
Qed.

Lemma contiguous_test_spec (offs : gset nat) :
  (contiguous_test offs = None ↔ offs = ∅) ∧
  (contiguous_test offs = Some true ↔ offs ≠ ∅ ∧ contiguous offs).
Proof.
  unfold contiguous_test.
  destruct (iter offs) as [|x l] eqn:El.
  { assert (offs = ∅) as ->.
    { apply set_eq. intros y. rewrite <- elem_of_iter, El. set_solver. }
    simpl. split; [done|]. split; [done|]. by intros [? _]. }
  assert (offs ≠ ∅) as Hne.
  { intros ->. assert (x ∈ iter (∅ : gset nat)) as Hx by (rewrite El; left).
    apply elem_of_iter in Hx. set_solver. }
  simpl. destruct (foldl_max_spec l x) as [Hmx_in Hmx]. destruct (foldl_min_spec l x) as [Hmn_in Hmn].
  set (mx := foldl Nat.max x l) in *. set (mn := foldl Nat.min x l) in *.
  rewrite <- El in Hmx_in, Hmx, Hmn_in, Hmn.
  setoid_rewrite elem_of_iter in Hmx. setoid_rewrite elem_of_iter in Hmn.
  apply elem_of_iter in Hmx_in, Hmn_in.
  split; [done|].
  assert (mn ≤ mx)%nat by (by apply Hmn).
  assert (offs ⊆ set_seq mn (S (mx - mn))) as Hsub.
  { intros y Hy. apply elem_of_set_seq. specialize (Hmx y Hy). specialize (Hmn y Hy). lia. }
  split.
  - intros [= Ht%bool_decide_eq_true]. split; [done|].
    assert (offs = set_seq mn (S (mx - mn))) as Heq.
    { apply set_subseteq_size_eq; [done|]. rewrite size_set_seq. lia. }
    intros i j k Hi Hk Hj. rewrite Heq. apply elem_of_set_seq.
    specialize (Hmx k Hk). specialize (Hmn i Hi). lia.
  - intros [_ Hc]. f_equal. apply bool_decide_eq_true.
    assert (offs = set_seq mn (S (mx - mn))) as Heq.
    { apply set_eq. intros y. split; [apply Hsub|].
      intros Hy%elem_of_set_seq. apply (Hc mn y mx); [done|done|lia]. }
    rewrite Heq at 1. rewrite size_set_seq. lia.
Qed.

Lemma isProjective_loop_spec s ns :
  final (isProjective_loop (usedtokens s) ns s) = s ∧
  ((∃ s', isProjective_loop (usedtokens s) ns s = Ret true s') ↔
   ∀ n, n ∈ ns → isRoot s n = false → (2 ≤ size (nodes s (frag s n)))%nat →
        projective_node s n).
Proof.
  induction ns as [|n ns [IHf IH]]; cbn [isProjective_loop].
  - split; [done|]. split; [intros _ n Hn; by apply elem_of_nil in Hn|]. intros _. by eexists.
  - rewrite bind_get.
    destruct (isRoot s n || bool_decide (size (nodes s (frag s n)) < 2)%nat) eqn:Hg.
    { split; [done|]. rewrite IH. split.
      - intros H x [->|Hx]%elem_of_cons; [|by apply H].
        intros Hr Hsz. rewrite Hr in Hg. simpl in Hg. apply bool_decide_eq_true in Hg. lia.
      - intros H x Hx. apply H. by right. }
    apply orb_false_iff in Hg as [Hr Hsz]. apply bool_decide_eq_false in Hsz.
    destruct (get_yield (S recursion_limit) s n) as [ys|] eqn:Ey.
    2: { split; [done|]. split; [by intros [? ?]|].
         intros H. destruct (H n) as (? & Hy & _); [left|done|lia|].
         unfold yield_positions in Hy. by rewrite Ey in Hy. }
    destruct (yieldoffsets (usedtokens s) ys) as [offs|] eqn:Eo.
    2: { split; [done|]. split; [by intros [? ?]|].
         intros H. destruct (H n) as (? & Hy & _); [left|done|lia|].
         unfold yield_positions in Hy. rewrite Ey in Hy. simpl in Hy. congruence. }
    destruct (contiguous_test_spec offs) as [Hnone Htrue].
    destruct (contiguous_test offs) as [[]|] eqn:Et.
    + split; [done|]. rewrite IH. split.
      * intros H x [->|Hx]%elem_of_cons; [|by apply H].
        intros _ _. exists offs. unfold yield_positions. rewrite Ey. simpl.
        split; [done|]. by apply Htrue.
      * intros H x Hx. apply H. by right.
    + split; [done|]. split; [by intros [? ?]|].
      intros H. destruct (H n) as (offs' & Hy & Hc); [left|done|lia|].
      unfold yield_positions in Hy. rewrite Ey in Hy. simpl in Hy.
      rewrite Eo in Hy. injection Hy as <-. apply Htrue in Hc. congruence.
    + split; [done|]. split; [by intros [? ?]|].
      intros H. destruct (H n) as (offs' & Hy & Hc & _); [left|done|lia|].
      unfold yield_positions in Hy. rewrite Ey in Hy. simpl in Hy.
      rewrite Eo in Hy. injection Hy as <-. exfalso. apply Hc. by apply Hnone.
Qed.

(** C9, amended.  [isProjective] leaves the state as it is, and returns
    [True] exactly when every node of the graph other than the root whose
    fragment has two nodes or more has a yield whose positions among the
    used tokens are defined, not empty and without a gap.  The positions
    [{0,1,3}] fail the test and [{0,1,2}] pass it. *)
Theorem isProjective_spec s :
  final (isProjective s) = s ∧
  ((∃ s', isProjective s = Ret true s') ↔
   ∀ n, n ∈ G_nodes s → isRoot s n = false → (2 ≤ size (nodes s (frag s n)))%nat →
        projective_node s n) ∧
  contiguous_test {[0; 1; 3]}%nat = Some false ∧
  contiguous_test {[0; 1; 2]}%nat = Some true.
Proof.
  unfold isProjective. rewrite bind_get.
  destruct (isProjective_loop_spec s (iter (G_nodes s))) as [Hf Hiff].
  split; [done|]. split.
  { rewrite Hiff. by setoid_rewrite elem_of_iter. }
  split.
  - destruct (contiguous_test_spec {[0; 1; 3]}%nat) as [Hnone Htrue].
    destruct (contiguous_test _) as [[]|]; [|done|].
    + destruct Htrue as [[_ Hc] _]; [done|].
      specialize (Hc 1 2 3)%nat. set_solver by lia.
    + destruct Hnone as [Hn _]. specialize (Hn eq_refl). set_solver.
  - apply contiguous_test_spec. split; [set_solver|].
    intros i j k Hi Hk Hj.
    assert (i ∈ ({[0;1;2]}:gset nat) → k ∈ ({[0;1;2]}:gset nat) → j = 0 ∨ j = 1 ∨ j = 2)%nat
      as [->|[->| ->]]; [|done|done|set_solver..].
    set_solver by lia.
Qed.

Lemma with_tc_self s : with_tc (f_topcandidates (attrs s)) s = s.
Proof. by destruct s as [? ? [] ? ? ? ?]. Qed.

Lemma setattr_cell_with_attrs fuel f s n :
  setattr_cell fuel (with_attrs f s) n = setattr_cell fuel s n.
Proof.
  revert n. induction fuel as [|k IH]; intros n; simpl; [done|].
  change (_pointerto (with_attrs f s) n) with (_pointerto s n). case_match; auto.
Qed.

Lemma setattr_cell_self s n : _pointerto s n = None → setattr_cell (S recursion_limit) s n = Some n.
Proof. simpl. by intros ->. Qed.

Lemma getattr_cell_self s n : _pointerto s n = None → getattr_cell s n = n.
Proof. unfold getattr_cell. by intros ->. Qed.

Lemma setattr_topcandidates_with_tc n v m s :
  _pointerto s n = None →
  setattr_topcandidates n v (with_tc m s) = Ret tt (with_tc (<[n := v]> m) s).
Proof.
  intros Hn. unfold setattr_topcandidates, with_tc.
  rewrite setattr_cell_with_attrs, setattr_cell_self by done. done.
Qed.

Lemma bind_setattr_topcandidates {B} n v (k : unit → M B) m s :
  _pointerto s n = None →
  bind (setattr_topcandidates n v) k (with_tc m s) = k tt (with_tc (<[n := v]> m) s).
Proof. intros Hn. unfold bind. by rewrite setattr_topcandidates_with_tc. Qed.

Lemma cand_of_with_tc m s c :
  cand_of (with_tc m s) c = if isCBB s c then m !! getattr_cell s c else Some {[c]}.
Proof. done. Qed.

Lemma cand_of_mono m m' s c w :
  m ⊆ m' → cand_of (with_tc m s) c = Some w → cand_of (with_tc m' s) c = Some w.
Proof.
  rewrite !cand_of_with_tc. intros Hm. destruct (isCBB s c); [|done].
  intros Hw. by eapply lookup_weaken.
Qed.

(** Running the loop of [upward] with more top candidates known does the
    same. *)
Lemma upward_edges_mono s n es m m' t' :
  _pointerto s n = None → m ⊆ m' →
  upward_edges n es (with_tc m s) = Ret tt t' →
  ∃ o, t' = with_tc (upd_at n o m) s ∧
       upward_edges n es (with_tc m' s) = Ret tt (with_tc (upd_at n o m') s).
Proof.
  intros Hn. revert m m'. induction es as [|[c e] es IH]; intros m m' Hm; simpl.
  - intros [= <-]. by exists None.
  - case_decide as Et.
    + rewrite !bind_get. destruct (cand_of (with_tc m s) c) as [w|] eqn:Ec; [|done].
      rewrite (cand_of_mono m m' s c w Hm Ec).
      rewrite !setattr_topcandidates_with_tc by done.
      intros [= <-]. by exists (Some w).
    + case_decide as Eu.
      * rewrite !bind_get.
        change (topcandidates (with_tc m s) n) with (m !! getattr_cell s n).
        change (topcandidates (with_tc m' s) n) with (m' !! getattr_cell s n).
        rewrite getattr_cell_self by done.
        destruct (m !! n) as [cur|] eqn:Ecur; [|done].
        rewrite (lookup_weaken _ _ _ _ Ecur Hm).
        destruct (cand_of (with_tc m s) c) as [w|] eqn:Ec; [|done].
        rewrite (cand_of_mono m m' s c w Hm Ec).
        rewrite !bind_setattr_topcandidates by done.
        intros H. apply (IH _ (<[n := cur ∪ w]> m')) in H as (o & -> & ->);
          [|by apply insert_mono].
        destruct o as [v|]; [exists (Some v)|exists (Some (cur ∪ w))]; simpl;
          by rewrite ?insert_insert_eq.
      * rewrite !bind_assert. case_bool_decide; [|done]. by apply IH.
Qed.

Lemma cand_of_insert s m n v c :
  cand_of (with_tc (<[n := v]> m) s) c =
  if reads_cell s c n then Some v else cand_of (with_tc m s) c.
Proof.
  rewrite !cand_of_with_tc. unfold reads_cell. destruct (isCBB s c); [|done]. simpl.
  case_bool_decide as E; [by rewrite E, lookup_insert_eq|]. by rewrite lookup_insert_ne.
Qed.

Lemma upward_edges_spec s n es m cur t' :
  _pointerto s n = None → m !! n = Some cur →
  upward_edges n es (with_tc m s) = Ret tt t' →
  ∃ v, t' = with_tc (<[n := v]> m) s ∧
    ((length (filter (λ ce, ce.2 = Some "top") es) ≤ 1)%nat →
       ∀ c, (c, Some "top") ∈ es → cand_of t' c = Some v) ∧
    ((∀ c, (c, Some "top") ∉ es) →
       cur ⊆ v ∧
       (∀ c, (c, Some "unspec") ∈ es → ∃ w, cand_of t' c = Some w ∧ w ⊆ v) ∧
       (∀ x, x ∈ v → x ∈ cur ∨ ∃ c w, (c, Some "unspec") ∈ es ∧ cand_of t' c = Some w ∧ x ∈ w)).
Proof.
  intros Hn. revert m cur t'. induction es as [|[c e] es IH]; intros m cur t' Hcur; simpl.
  - intros [= <-]. exists cur. rewrite insert_id by done. split; [done|].
    split; [intros _ c Hc; by apply elem_of_nil in Hc|]. intros _. split; [done|].
    split; [intros c Hc; by apply elem_of_nil in Hc|]. auto.
  - case_decide as Et.
    + subst e. rewrite bind_get. destruct (cand_of (with_tc m s) c) as [w|] eqn:Ec; [|done].
      rewrite setattr_topcandidates_with_tc by done. intros [= <-].
      exists w. split; [done|]. split.
      * rewrite filter_cons_True by done. simpl. intros Hlen c' Hc'.
        assert (c' = c) as ->.
        { apply elem_of_cons in Hc' as [[= ->]|Hc']; [done|].
          assert ((c', Some "top") ∈ filter (λ ce : nat * option string, ce.2 = Some "top") es)
            as Hf by (by apply list_elem_of_filter).
          destruct (filter _ es); [by apply elem_of_nil in Hf|simpl in Hlen; lia]. }
        rewrite cand_of_insert. by case_match.
      * intros Hno. exfalso. apply (Hno c). left.
    + case_decide as Eu.
      * subst e. rewrite bind_get.
        change (topcandidates (with_tc m s) n) with (m !! getattr_cell s n).
        rewrite getattr_cell_self, Hcur by done.
        destruct (cand_of (with_tc m s) c) as [w|] eqn:Ec; [|done].
        rewrite bind_setattr_topcandidates by done.
        intros H. apply (IH _ (cur ∪ w)) in H as (v & -> & Htop & Hun);
          [|by rewrite lookup_insert_eq].
        rewrite insert_insert_eq in *. exists v. split; [done|].
        assert (Hc : ∀ w', cand_of (with_tc (<[n:=v]> m) s) c = Some w' → cur ∪ w ⊆ v →
                       w' ⊆ v ∧ ∀ x, x ∈ w → x ∈ cur ∨ x ∈ w').
        { intros w'. rewrite cand_of_insert. destruct (reads_cell s c n) eqn:Er.
          - intros [= <-] Hsub. split; [done|]. intros x Hx. left.
            revert Ec. rewrite cand_of_with_tc.
            apply andb_true_iff in Er as [-> ->%bool_decide_eq_true].
            rewrite Hcur. by intros [= <-].
          - rewrite Ec. intros [= <-] Hsub. split; [set_solver|]. auto. }
        split.
        -- rewrite filter_cons_False by (simpl; congruence). intros Hlen c' Hc'.
           apply Htop; [done|]. apply elem_of_cons in Hc' as [[=]|]; done.
        -- intros Hno. destruct Hun as (Hsub & Hall & Hex).
           { intros c' Hc'. apply (Hno c'). by right. }
           assert (is_Some (cand_of (with_tc (<[n:=v]> m) s) c)) as [w' Hw'].
           { rewrite cand_of_insert. case_match; [done|by rewrite Ec]. }
           destruct (Hc w' Hw' Hsub) as [Hw'v Hw].
           split; [set_solver|]. split.
           ++ intros c' [[= ->]|Hc']%elem_of_cons; [by exists w'|by apply Hall].
           ++ intros x Hx. destruct (Hex x Hx) as [Hx'|(c' & w'' & Hc' & Hw'' & Hxw)].
              ** apply elem_of_union in Hx' as [Hx'|Hx']; [by left|].
                 destruct (Hw x Hx') as [|]; [by left|]. right. exists c, w'.
                 split; [left|done].
              ** right. exists c', w''. split; [by right|done].
      * rewrite bind_assert. case_bool_decide as En; [|done]. subst e.
        intros H. apply (IH _ cur) in H as (v & -> & Htop & Hun); [|done].
        exists v. split; [done|]. split.
        -- rewrite filter_cons_False by done. intros Hlen c' Hc'.
           apply Htop; [done|]. apply elem_of_cons in Hc' as [[=]|]; done.
        -- intros Hno. destruct Hun as (Hsub & Hall & Hex).
           { intros c' Hc'. apply (Hno c'). by right. }
           split; [done|]. split.
           ++ intros c' [[=]|Hc']%elem_of_cons. by apply Hall.
           ++ intros x Hx. destruct (Hex x Hx) as [|(c' & w' & Hc' & ?)]; [by left|].
              right. exists c', w'. split; [by right|done].
Qed.

Lemma upward_node_run s n m t' :
  _pointerto s n = None →
  upward_node n (with_tc m s) = Ret tt t' →
  if isCBB s n then
    ∃ v, t' = with_tc (<[n := v]> m) s ∧ (n ∉ v) ∧ (∀ x, x ∈ v → isCBB s x = false) ∧
         top_spec t' n v ∧
         ∀ m', m ⊆ m' → upward_node n (with_tc m' s) = Ret tt (with_tc (<[n := v]> m') s)
  else t' = with_tc m s ∧ ∀ m', upward_node n (with_tc m' s) = Ret tt (with_tc m' s).
Proof.
  intros Hn. unfold upward_node. rewrite bind_get, bind_assert.
  change (isCoord (with_tc m s) n) with (isCoord s n).
  change (isCBB (with_tc m s) n) with (isCBB s n).
  destruct (negb (isCoord s n)) eqn:Hco; [|done].
  destruct (isCBB s n) eqn:Hcbb.
  2: { intros [= <-]. split; [done|]. intros m'. rewrite bind_get, bind_assert.
       change (isCoord (with_tc m' s) n) with (isCoord s n).
       change (isCBB (with_tc m' s) n) with (isCBB s n). by rewrite Hco, Hcbb. }
  rewrite bind_setattr_topcandidates, bind_get, bind_assert by done.
  change (childedges (with_tc (<[n:=∅]> m) s) n) with (childedges s n).
  case_bool_decide as Hcount; [|done].
  intros ([] & t2 & Hedges & Hfin)%bind_Ret_inv.
  pose proof Hedges as Hspec.
  apply (upward_edges_spec s n _ _ ∅) in Hspec as (v & -> & Htop & Hun);
    [|done|by rewrite lookup_insert_eq].
  rewrite insert_insert_eq in *.
  rewrite bind_get in Hfin.
  change (topcandidates (with_tc (<[n:=v]> m) s) n)
    with ((<[n:=v]> m) !! getattr_cell s n) in Hfin.
  rewrite getattr_cell_self, lookup_insert_eq in Hfin by done.
  rewrite !bind_assert in Hfin.
  case_bool_decide as Hnv; [|done].
  destruct (forallb _ _) eqn:Hall; [|done]. injection Hfin as <-.
  exists v. split; [done|]. split; [done|]. split; [|split].
  - intros x Hx. rewrite forallb_forall in Hall.
    specialize (Hall x). rewrite <- list_elem_of_In, elem_of_iter in Hall.
    by apply negb_true_iff, Hall.
  - split.
    + intros c Hc. apply Htop; [done|]. by apply elem_of_iter.
    + intros Hno. destruct Hun as (_ & Hall' & Hex).
      { intros c Hc%elem_of_iter. by apply (Hno c). }
      split.
      * intros c Hc%elem_of_iter. destruct (Hall' c Hc) as (w & -> & _). by eexists.
      * intros x. split.
        -- intros Hx. destruct (Hex x Hx) as [Hx'|(c & w & Hc%elem_of_iter & ? & ?)];
             [set_solver|eauto].
        -- intros (c & w & Hc%elem_of_iter & Hw & Hx).
           destruct (Hall' c Hc) as (w' & Hw' & Hsub). rewrite Hw in Hw'.
           injection Hw' as <-. by apply Hsub.
  - intros m' Hm. rewrite bind_get, bind_assert.
    change (isCoord (with_tc m' s) n) with (isCoord s n).
    change (isCBB (with_tc m' s) n) with (isCBB s n). rewrite Hco, Hcbb.
    rewrite bind_setattr_topcandidates, bind_get, bind_assert by done.
    change (childedges (with_tc (<[n:=∅]> m') s) n) with (childedges s n).
    rewrite bool_decide_eq_true_2 by done.
    apply (upward_edges_mono s n _ _ (<[n:=∅]> m')) in Hedges as (o & Ho & Hedges');
      [|done|by apply insert_mono].
    unfold bind at 1. rewrite Hedges'. rewrite bind_get.
    assert (upd_at n o (<[n:=∅]> m') = <[n:=v]> m') as ->.
    { assert ((upd_at n o (<[n:=∅]> m)) !! n = Some v) as Hv.
      { apply (f_equal (λ s, f_topcandidates (attrs s) !! n)) in Ho. simpl in Ho.
        by rewrite lookup_insert_eq in Ho. }
      destruct o as [w|]; simpl in *.
      - rewrite lookup_insert_eq in Hv. injection Hv as ->. by rewrite insert_insert_eq.
      - rewrite lookup_insert_eq in Hv. by injection Hv as ->. }
    change (topcandidates (with_tc (<[n:=v]> m') s) n)
      with ((<[n:=v]> m') !! getattr_cell s n).
    rewrite getattr_cell_self, lookup_insert_eq by done.
    rewrite !bind_assert. rewrite bool_decide_eq_true_2 by done.
    change (isCBB (with_tc (<[n:=v]> m') s)) with (isCBB s).
    change (isCBB (with_tc (<[n:=v]> m) s)) with (isCBB s) in Hall.
    by rewrite Hall.
Qed.

Lemma insert_sorted_perm key x l : insert_sorted key x l ≡ₚ x :: l.
Proof.
  induction l as [|y l IH]; simpl; [done|]. case_match; [|done].
  rewrite IH. apply Permutation_swap.
Qed.

Lemma sorted_perm key l : sorted key l ≡ₚ l.
Proof.
  induction l as [|x l IH]; simpl; [done|]. by rewrite insert_sorted_perm, IH.
Qed.

(** A pass that visits each node once and writes one table [X] of
    candidate sets, at the visited node only, reading the table where it is
    already filled. *)
Section Rerun.
Context (wX : gmap ref (gset ref) → State → State) (node : ref → M unit).
Context (node_run : ∀ s n m t',
  _pointerto s n = None → node n (wX m s) = Ret tt t' →
  ∃ o, t' = wX (upd_at n o m) s ∧
       ∀ m', m ⊆ m' → node n (wX m' s) = Ret tt (wX (upd_at n o m') s)).

Lemma rerun_list s todo m s1 :
    NoDup todo → (∀ n, n ∈ todo → _pointerto s n = None) →
    (∀ n, n ∈ todo → m !! n = None) →
    for_each todo node (wX m s) = Ret tt s1 →
    ∃ m1, s1 = wX m1 s ∧ m ⊆ m1 ∧
          ∀ m', m1 ⊆ m' → for_each todo node (wX m' s) = Ret tt (wX m' s).
Proof.
    revert m. induction todo as [|n todo IH]; intros m Hnd Hptr Hfresh; simpl.
    - intros [= <-]. exists m. split; [done|]. split; [done|]. done.
    - apply NoDup_cons in Hnd as [Hn Hnd].
      intros ([] & t' & Hnode & Hrest)%bind_Ret_inv.
      apply node_run in Hnode as (o & -> & Hre); [|apply Hptr; left].
      assert (m ⊆ upd_at n o m) as Hsub.
      { destruct o; simpl; [|done]. apply insert_subseteq, Hfresh. left. }
      apply IH in Hrest as (m1 & -> & Hm1 & Hre1); [|done|..].
      + exists m1. split; [done|]. split; [by etrans|].
        intros m' Hm'. unfold bind. rewrite Hre by (by repeat (etrans; [done|])).
        assert (upd_at n o m' = m') as ->.
        { destruct o as [v|]; simpl; [|done]. apply insert_id.
          apply (lookup_weaken (<[n:=v]> m)); [by rewrite lookup_insert_eq|by etrans]. }
        by apply Hre1.
      + intros x Hx. apply Hptr. by right.
      + intros x Hx. destruct o; simpl; [|apply Hfresh; by right].
        rewrite lookup_insert_ne; [apply Hfresh; by right|]. by intros ->.
Qed.
End Rerun.

Lemma upward_node_rerun s n m t' :
  _pointerto s n = None → upward_node n (with_tc m s) = Ret tt t' →
  ∃ o, t' = with_tc (upd_at n o m) s ∧
       ∀ m', m ⊆ m' → upward_node n (with_tc m' s) = Ret tt (with_tc (upd_at n o m') s).
Proof.
  intros Hn H. apply upward_node_run in H; [|done]. destruct (isCBB s n).
  - destruct H as (v & -> & _ & _ & _ & Hre). by exists (Some v).
  - destruct H as (-> & Hre). exists None. split; [done|]. intros m' _. apply Hre.
Qed.

Lemma upward_sorted s :
  upward s =
  for_each (sorted (height s) (iter (G_nodes s))) upward_node
           (with_tc (f_topcandidates (attrs s)) s).
Proof. unfold upward. by rewrite bind_get, with_tc_self. Qed.

Lemma sorted_nodes key s :
  NoDup (sorted key (iter (G_nodes s))) ∧
  ∀ n, n ∈ sorted key (iter (G_nodes s)) ↔ n ∈ G_nodes s.
Proof.
  split.
  - rewrite sorted_perm. apply NoDup_iter.
  - intros n. by rewrite sorted_perm, elem_of_iter.
Qed.

Lemma upward_idempotent s s1 :
  canonical_nodes s → fresh_topcandidates s →
  upward s = Ret tt s1 → upward s1 = Ret tt s1.
Proof.
  intros Hcan Hfresh. rewrite upward_sorted.
  destruct (sorted_nodes (height s) s) as [Hnd Hin].
  intros H. apply (rerun_list with_tc upward_node upward_node_rerun) in H
    as (m1 & -> & _ & Hre); [|done|..].
  - rewrite upward_sorted. apply Hre. done.
  - intros n Hn%Hin. by apply Hcan.
  - intros n Hn%Hin. by apply Hfresh.
Qed.

Lemma top_spec_mono s n v m m' :
  m ⊆ m' → top_spec (with_tc m s) n v → top_spec (with_tc m' s) n v.
Proof.
  intros Hm [Htop Hun]. split.
  - intros c Hc. eapply cand_of_mono; [done|]. by apply Htop.
  - intros Hno. destruct (Hun Hno) as [Hall Hiff]. split.
    + intros c Hc. destruct (Hall c Hc) as [w Hw]. exists w. by eapply cand_of_mono.
    + intros x. rewrite Hiff. split.
      * intros (c & w & Hc & Hw & Hx). exists c, w. eauto using cand_of_mono.
      * intros (c & w & Hc & Hw & Hx). exists c, w. split; [done|]. split; [|done].
        destruct (Hall c Hc) as [w' Hw']. rewrite Hw'.
        rewrite (cand_of_mono m m' s c w' Hm Hw') in Hw. done.
Qed.

(** The values the pass leaves are the checked ones. *)
Lemma upward_list_checked s todo m s1 :
  (∀ n, n ∈ todo → _pointerto s n = None) →
  for_each todo upward_node (with_tc m s) = Ret tt s1 →
  ∃ m1, s1 = with_tc m1 s ∧
    ∀ n, n ∈ todo → isCBB s n = true →
         ∃ v, m1 !! n = Some v ∧ ∀ x, x ∈ v → isCBB s x = false.
Proof.
  revert m. induction todo as [|n todo IH]; intros m Hptr; simpl.
  - intros [= <-]. exists m. split; [done|]. intros n Hn. by apply elem_of_nil in Hn.
  - intros ([] & t' & Hnode & Hrest)%bind_Ret_inv.
    apply upward_node_run in Hnode; [|apply Hptr; left].
    assert (∃ m0, t' = with_tc m0 s ∧
              (isCBB s n = true → ∃ v, m0 !! n = Some v ∧ ∀ x, x ∈ v → isCBB s x = false))
      as (m0 & -> & Hm0).
    { destruct (isCBB s n).
      - destruct Hnode as (v & -> & _ & Hv & _). eexists. split; [done|]. intros _.
        exists v. by rewrite lookup_insert_eq.
      - destruct Hnode as [-> _]. by eexists. }
    pose proof Hrest as Hrest'.
    apply IH in Hrest as (m1 & -> & Hm1); [|intros x Hx; apply Hptr; by right].
    exists m1. split; [done|]. intros x Hx Hcbb.
    apply elem_of_cons in Hx as [->|Hx]; [|by apply Hm1].
    destruct (decide (n ∈ todo)) as [Hin|Hnin]; [by apply Hm1|].
    destruct (Hm0 Hcbb) as (v & Hv & Hno). exists v. split; [|done].
    enough (∀ l m2 m3, n ∉ l → (∀ n, n ∈ l → _pointerto s n = None) →
              for_each l upward_node (with_tc m2 s) = Ret tt (with_tc m3 s) →
              m3 !! n = m2 !! n) as Hst.
    { rewrite <- Hv. eapply Hst; [exact Hnin| |exact Hrest']. intros y Hy. apply Hptr. by right. }
    clear. induction l as [|y l IHl]; intros m2 m3 Hx Hptr; simpl.
    + by intros [= ->].
    + intros ([] & t' & Hnode & Hrest)%bind_Ret_inv.
      apply upward_node_rerun in Hnode as (o & -> & _); [|apply Hptr; left].
      apply IHl in Hrest; [|set_solver|intros z Hz; apply Hptr; by right].
      rewrite Hrest. destruct o; simpl; [|done]. rewrite lookup_insert_ne; [done|].
      set_solver.
Qed.

(** From a graph on which no pass has run, the pass computes [top_spec]. *)
Lemma upward_list_spec s todo m s1 :
  NoDup todo → (∀ n, n ∈ todo → _pointerto s n = None) →
  (∀ n, n ∈ todo → m !! n = None) →
  for_each todo upward_node (with_tc m s) = Ret tt s1 →
  ∃ m1, s1 = with_tc m1 s ∧ m ⊆ m1 ∧
    ∀ n, n ∈ todo → isCBB s n = true → ∃ v, m1 !! n = Some v ∧ top_spec s1 n v.
Proof.
  revert m. induction todo as [|n todo IH]; intros m Hnd Hptr Hfresh; simpl.
  - intros [= <-]. exists m. split; [done|]. split; [done|].
    intros n Hn. by apply elem_of_nil in Hn.
  - apply NoDup_cons in Hnd as [Hn Hnd].
    intros ([] & t' & Hnode & Hrest)%bind_Ret_inv.
    apply upward_node_run in Hnode; [|apply Hptr; left].
    assert (∃ m0, t' = with_tc m0 s ∧ m ⊆ m0 ∧ (∀ x, x ≠ n → m0 !! x = m !! x) ∧
              (isCBB s n = true → ∃ v, m0 !! n = Some v ∧ top_spec t' n v))
      as (m0 & -> & Hsub & Hother & Hm0).
    { destruct (isCBB s n).
      - destruct Hnode as (v & -> & _ & _ & Hv & _). eexists. split; [done|].
        split; [apply insert_subseteq, Hfresh; left|].
        split; [intros x Hx; by rewrite lookup_insert_ne|].
        intros _. exists v. by rewrite lookup_insert_eq.
      - destruct Hnode as [-> _]. by eexists. }
    apply IH in Hrest as (m1 & -> & Hm1 & Hspec); [|done|..].
    + exists m1. split; [done|]. split; [by etrans|].
      intros x Hx Hcbb. apply elem_of_cons in Hx as [->|Hx]; [|by apply Hspec].
      destruct (Hm0 Hcbb) as (v & Hv & Hts). exists v.
      split; [by eapply lookup_weaken|]. by eapply top_spec_mono.
    + intros x Hx. apply Hptr. by right.
    + intros x Hx. rewrite Hother by (by intros ->). apply Hfresh. by right.
Qed.

(** C3.  After the upward pass the top candidates of a bundle of the graph
    do not hold the bundle itself, nor any bundle. *)
Theorem upward_no_bundles s s' B :
  canonical_nodes s → upward s = Ret tt s' →
  B ∈ G_nodes s → isCBB s B = true →
  ∃ v, topcandidates s' B = Some v ∧ (B ∉ v) ∧ ∀ x, x ∈ v → isCBB s' x = false.
Proof.
  intros Hcan. rewrite upward_sorted. destruct (sorted_nodes (height s) s) as [_ Hin].
  intros H HB Hcbb. apply upward_list_checked in H as (m1 & -> & Hm1).
  2: { intros n Hn%Hin. by apply Hcan. }
  destruct (Hm1 B) as (v & Hv & Hno); [by apply Hin|done|].
  exists v. split; [|split; [|done]].
  - change (topcandidates (with_tc m1 s) B) with (m1 !! getattr_cell s B).
    by rewrite getattr_cell_self by (by apply Hcan).
  - intros HBv. apply Hno in HBv. congruence.
Qed.

(** C1.  After the upward pass on a graph on which it has not run before,
    the top candidates of a bundle [B] are those of the child of its [top]
    edge (the child itself when it is no bundle) if there is such an edge,
    and otherwise the union of those of its [unspec] children. *)
Theorem upward_top_candidates s s' B :
  canonical_nodes s → fresh_topcandidates s → upward s = Ret tt s' →
  B ∈ G_nodes s → isCBB s B = true →
  ∃ v, topcandidates s' B = Some v ∧ top_spec s' B v.
Proof.
  intros Hcan Hfresh. rewrite upward_sorted.
  destruct (sorted_nodes (height s) s) as [Hnd Hin].
  intros H HB Hcbb. apply upward_list_spec in H as (m1 & -> & _ & Hm1); [|done|..].
  - destruct (Hm1 B) as (v & Hv & Hts); [by apply Hin|done|].
    exists v. split; [|done].
    change (topcandidates (with_tc m1 s) B) with (m1 !! getattr_cell s B).
    by rewrite getattr_cell_self by (by apply Hcan).
  - intros n Hn%Hin. by apply Hcan.
  - intros n Hn%Hin. by apply Hfresh.
Qed.

(** The downward pass *)
Lemma with_pc_self s : with_pc (f_parentcandidates (attrs s)) s = s.
Proof. by destruct s as [? ? [] ? ? ? ?]. Qed.

Lemma bind_setattr_parentcandidates {B} n v (k : unit → M B) m s :
  _pointerto s n = None →
  bind (setattr_parentcandidates n v) k (with_pc m s) = k tt (with_pc (<[n := v]> m) s).
Proof.
  intros Hn. unfold bind, setattr_parentcandidates, with_pc.
  rewrite setattr_cell_with_attrs, setattr_cell_self by done. done.
Qed.

Lemma iand_parentcandidates_mono s n x m m' t' :
  _pointerto s n = None → m ⊆ m' →
  iand_parentcandidates n x (with_pc m s) = Ret tt t' →
  ∃ v, t' = with_pc (<[n := v]> m) s ∧
       iand_parentcandidates n x (with_pc m' s) = Ret tt (with_pc (<[n := v]> m') s).
Proof.
  intros Hn Hm. unfold iand_parentcandidates. rewrite !bind_get.
  change (parentcandidates (with_pc m s) n) with (m !! getattr_cell s n).
  change (parentcandidates (with_pc m' s) n) with (m' !! getattr_cell s n).
  rewrite getattr_cell_self by done.
  destruct (m !! n) as [cur|] eqn:Ecur; [|done].
  rewrite (lookup_weaken _ _ _ _ Ecur Hm). destruct x as [v|]; [|done].
  pose proof (bind_setattr_parentcandidates n (cur ∩ v) ret m s Hn) as E1.
  pose proof (bind_setattr_parentcandidates n (cur ∩ v) ret m' s Hn) as E2.
  unfold bind, ret in E1, E2.
  destruct (setattr_parentcandidates n (cur ∩ v) (with_pc m s)) as [[] ?|]; [|done].
  destruct (setattr_parentcandidates n (cur ∩ v) (with_pc m' s)) as [[] ?|]; [|done].
  injection E1 as ->. injection E2 as ->. intros [= <-]. by eexists.
Qed.

Lemma member_cands_mono s n p m m' c t' :
  m ⊆ m' → member_cands n p (with_pc m s) = Ret c t' →
  t' = with_pc m s ∧ member_cands n p (with_pc m' s) = Ret c (with_pc m' s).
Proof.
  intros Hm. unfold member_cands. rewrite !bind_get.
  change (topcandidates (with_pc m s) p) with (topcandidates s p).
  change (topcandidates (with_pc m' s) p) with (topcandidates s p).
  change (cand_of (with_pc m s) n) with (cand_of s n).
  change (cand_of (with_pc m' s) n) with (cand_of s n).
  destruct (topcandidates s p) as [ptc|]; [|done].
  destruct (cand_of s n) as [tcands|]; [|done].
  change (parentcandidates (with_pc m s) p) with (m !! getattr_cell s p).
  change (parentcandidates (with_pc m' s) p) with (m' !! getattr_cell s p).
  change (members (with_pc m s) p) with (members s p).
  change (members (with_pc m' s) p) with (members s p).
  assert (∀ l a, sibling_cands (with_pc m s) l a = sibling_cands s l a) as E1.
  { induction l as [|x l IH]; intros a; simpl; [done|].
    change (cand_of (with_pc m s) x) with (cand_of s x). destruct (cand_of s x); simpl; auto. }
  assert (∀ l a, sibling_cands (with_pc m' s) l a = sibling_cands s l a) as E2.
  { induction l as [|x l IH]; intros a; simpl; [done|].
    change (cand_of (with_pc m' s) x) with (cand_of s x). destruct (cand_of s x); simpl; auto. }
  unfold bind.
  destruct (bool_decide (ptc ∩ tcands ≠ ∅)).
  - destruct (m !! getattr_cell s p) as [ppc|] eqn:Ep; [|done].
    rewrite (lookup_weaken _ _ _ _ Ep Hm). unfold ret.
    destruct (bool_decide (ptc ≠ tcands)).
    + rewrite E1, E2. destruct (sibling_cands _ _ _); [|done]. by intros [= <- <-].
    + by intros [= <- <-].
  - unfold ret. destruct (bool_decide (ptc ≠ tcands)).
    + rewrite E1, E2. destruct (sibling_cands _ _ _); [|done]. by intros [= <- <-].
    + by intros [= <- <-].
Qed.

Lemma downward_edge_mono s n pe m m' t' :
  _pointerto s n = None → m ⊆ m' →
  downward_edge n pe (with_pc m s) = Ret tt t' →
  ∃ v, t' = with_pc (<[n := v]> m) s ∧
       downward_edge n pe (with_pc m' s) = Ret tt (with_pc (<[n := v]> m') s).
Proof.
  intros Hn Hm. unfold downward_edge. rewrite !bind_get.
  change (isCBB (with_pc m s) pe.1) with (isCBB s pe.1).
  change (isCBB (with_pc m' s) pe.1) with (isCBB s pe.1).
  change (members (with_pc m s) pe.1) with (members s pe.1).
  change (members (with_pc m' s) pe.1) with (members s pe.1).
  change (externalchildren (with_pc m s) pe.1) with (externalchildren s pe.1).
  change (externalchildren (with_pc m' s) pe.1) with (externalchildren s pe.1).
  change (isFirm (with_pc m s) pe.1) with (isFirm s pe.1).
  change (isFirm (with_pc m' s) pe.1) with (isFirm s pe.1).
  change (topcandidates (with_pc m s) pe.1) with (topcandidates s pe.1).
  change (topcandidates (with_pc m' s) pe.1) with (topcandidates s pe.1).
  destruct (isCBB s pe.1).
  - case_bool_decide.
    + intros (c & t1 & Hc & Hi)%bind_Ret_inv.
      apply (member_cands_mono s n _ m m') in Hc as [-> Hc']; [|done].
      unfold bind. rewrite Hc'. by apply iand_parentcandidates_mono.
    + rewrite !bind_assert. case_bool_decide; [|done]. by apply iand_parentcandidates_mono.
  - rewrite !bind_assert. destruct (isFirm s pe.1); [|done].
    by apply iand_parentcandidates_mono.
Qed.

Lemma downward_edges_mono s n es m m' t' :
  _pointerto s n = None → m ⊆ m' →
  for_each es (downward_edge n) (with_pc m s) = Ret tt t' →
  ∃ o, t' = with_pc (upd_at n o m) s ∧
       for_each es (downward_edge n) (with_pc m' s) = Ret tt (with_pc (upd_at n o m') s).
Proof.
  intros Hn. revert m m' t'. induction es as [|pe es IH]; intros m m' t' Hm; simpl.
  - intros [= <-]. by exists None.
  - intros ([] & t1 & He & Hrest)%bind_Ret_inv.
    apply (downward_edge_mono s n pe m m') in He as (v & -> & He'); [|done..].
    apply (IH _ (<[n:=v]> m')) in Hrest as (o & -> & Hrest'); [|by apply insert_mono].
    unfold bind. rewrite He', Hrest'.
    destruct o as [w|]; [exists (Some w)|exists (Some v)]; simpl;
      by rewrite ?insert_insert_eq.
Qed.

Lemma downward_node_rerun s n m t' :
  _pointerto s n = None → downward_node n (with_pc m s) = Ret tt t' →
  ∃ o, t' = with_pc (upd_at n o m) s ∧
       ∀ m', m ⊆ m' → downward_node n (with_pc m' s) = Ret tt (with_pc (upd_at n o m') s).
Proof.
  intros Hn. unfold downward_node. rewrite bind_get, bind_assert.
  change (isCoord (with_pc m s) n) with (isCoord s n).
  change (isRoot (with_pc m s) n) with (isRoot s n).
  destruct (negb (isCoord s n)) eqn:Hco; [|done].
  destruct (negb (isRoot s n)) eqn:Hroot.
  2: { intros [= <-]. exists None. split; [done|]. intros m' _. rewrite bind_get, bind_assert.
       change (isCoord (with_pc m' s) n) with (isCoord s n).
       change (isRoot (with_pc m' s) n) with (isRoot s n). by rewrite Hco, Hroot. }
  change (firmNodes (with_pc m s)) with (firmNodes s).
  change (descendants (with_pc m s) n) with (descendants s n).
  set (seed := py_difference (firmNodes s ∖ {[n]}) (descendants s n)).
  rewrite bind_setattr_parentcandidates, bind_get, bind_assert by done.
  change (parentcandidates (with_pc (<[n:=seed]> m) s) n)
    with ((<[n:=seed]> m) !! getattr_cell s n).
  rewrite getattr_cell_self, lookup_insert_eq by done.
  destruct (truthy (Some seed)) eqn:Hseed; [|done].
  change (parentedges (with_pc (<[n:=seed]> m) s) n) with (parentedges s n).
  intros ([] & t2 & Hedges & Hfin)%bind_Ret_inv.
  apply (downward_edges_mono s n _ _ (<[n:=seed]> m)) in Hedges as Hsame; [|done..].
  destruct Hsame as (o & -> & _).
  set (v := default seed o).
  assert (∀ m0, upd_at n o (<[n:=seed]> m0) = <[n:=v]> m0) as Hupd.
  { intros m0. unfold v. destruct o; simpl; by rewrite ?insert_insert_eq. }
  rewrite Hupd in *. rewrite bind_get in Hfin.
  change (parentcandidates (with_pc (<[n:=v]> m) s) n)
    with ((<[n:=v]> m) !! getattr_cell s n) in Hfin.
  rewrite getattr_cell_self, lookup_insert_eq in Hfin by done.
  destruct (truthy (Some v)) eqn:Hv; [|done]. injection Hfin as <-.
  exists (Some v). split; [done|]. intros m' Hm.
  rewrite bind_get, bind_assert.
  change (isCoord (with_pc m' s) n) with (isCoord s n).
  change (isRoot (with_pc m' s) n) with (isRoot s n). rewrite Hco, Hroot.
  change (firmNodes (with_pc m' s)) with (firmNodes s).
  change (descendants (with_pc m' s) n) with (descendants s n). fold seed.
  rewrite bind_setattr_parentcandidates, bind_get, bind_assert by done.
  change (parentcandidates (with_pc (<[n:=seed]> m') s) n)
    with ((<[n:=seed]> m') !! getattr_cell s n).
  rewrite getattr_cell_self, lookup_insert_eq, Hseed by done.
  change (parentedges (with_pc (<[n:=seed]> m') s) n) with (parentedges s n).
  apply (downward_edges_mono s n _ _ (<[n:=seed]> m')) in Hedges as (o' & Ho' & Hedges');
    [|done|by apply insert_mono].
  assert (upd_at n o' (<[n:=seed]> m') = <[n:=v]> m') as Hupd'.
  { assert (upd_at n o' (<[n:=seed]> m) !! n = Some v) as Hv'.
    { apply (f_equal (λ s, f_parentcandidates (attrs s) !! n)) in Ho'. simpl in Ho'.
      by rewrite lookup_insert_eq in Ho'. }
    destruct o' as [w|]; simpl in Hv' |- *.
    - rewrite lookup_insert_eq in Hv'. injection Hv' as Hw. by rewrite Hw, insert_insert_eq.
    - rewrite lookup_insert_eq in Hv'. injection Hv' as Hw. by rewrite Hw. }
  unfold bind at 1. rewrite Hedges', Hupd'. rewrite bind_get.
  change (parentcandidates (with_pc (<[n:=v]> m') s) n)
    with ((<[n:=v]> m') !! getattr_cell s n).
  by rewrite getattr_cell_self, lookup_insert_eq, Hv by done.
Qed.

Lemma downward_sorted s :
  downward s =
  for_each (sorted (depth s) (iter (G_nodes s))) downward_node
           (with_pc (f_parentcandidates (attrs s)) s).
Proof. unfold downward. by rewrite bind_get, with_pc_self. Qed.

Lemma downward_idempotent s s1 :
  canonical_nodes s → fresh_parentcandidates s →
  downward s = Ret tt s1 → downward s1 = Ret tt s1.
Proof.
  intros Hcan Hfresh. rewrite downward_sorted.
  destruct (sorted_nodes (depth s) s) as [Hnd Hin].
  intros H. apply (rerun_list with_pc downward_node downward_node_rerun) in H
    as (m1 & -> & _ & Hre); [|done|..].
  - rewrite downward_sorted. apply Hre. done.
  - intros n Hn%Hin. by apply Hcan.
  - intros n Hn%Hin. by apply Hfresh.
Qed.

(** C8.  Running the upward pass again on the state it has left returns
    the same top candidates, and likewise the downward pass and the parent
    candidates. *)
Theorem passes_idempotent s s1 :
  canonical_nodes s →
  (fresh_topcandidates s → upward s = Ret tt s1 →
     ∃ s2, upward s1 = Ret tt s2 ∧ ∀ B, topcandidates s2 B = topcandidates s1 B) ∧
  (fresh_parentcandidates s → downward s = Ret tt s1 →
     ∃ s2, downward s1 = Ret tt s2 ∧ ∀ n, parentcandidates s2 n = parentcandidates s1 n).
Proof.
  intros Hcan. split; intros Hf H; exists s1.
  - split; [by eapply upward_idempotent|done].
  - split; [by eapply downward_idempotent|done].
Qed.

(** *** What the downward pass takes away for the descendants

    [descendants] holds the pairs that [itertools.groupby] yields, so no
    node is an element of it and the difference with it drops nothing. *)
Lemma descendants_hold_no_node s n x : ONode x ∉ descendants s n.
Proof.
  unfold descendants. intros (i & k & [=] & _)%elem_of_lookup_imap.
Qed.

Lemma py_difference_descendants X s n :
  py_difference X (descendants s n) = X.
Proof.
  unfold py_difference. apply set_eq. intros x. rewrite elem_of_filter.
  split; [by intros [_ ?]|]. intros Hx. split; [apply descendants_hold_no_node|done].
Qed.

(** * Further properties of the code *)

(** ** Searching along child edges *)

Lemma reachable_S k s a b :
  reachable (S k) s a b =
  if decide (a = b) then Some true
  else scan_children (λ c, reachable k s c b) (iter (children s a)).
Proof. reflexivity. Qed.

Lemma scan_children_true f l :
  scan_children f l = Some true → ∃ c, c ∈ l ∧ f c = Some true.
Proof.
  induction l as [|x l IH]; simpl; [done|].
  destruct (f x) as [[]|] eqn:E; try done.
  - intros _. exists x. split; [left|done].
  - intros (c & Hc & Hf)%IH. exists c. split; [by right|done].
Qed.

Lemma scan_children_returns f l :
  (∀ c, c ∈ l → is_Some (f c)) → is_Some (scan_children f l).
Proof.
  induction l as [|x l IH]; intros H; simpl; [by eexists|].
  destruct (H x) as [[] E]; [left|..]; rewrite E; [by eexists|].
  apply IH. intros c Hc. apply H. by right.
Qed.

Lemma scan_children_overflow f l c :
  (∀ x, x ∈ l → f x ≠ Some true) → c ∈ l → f c = None → scan_children f l = None.
Proof.
  induction l as [|x l IH]; intros Hno Hc Hf; [by apply elem_of_nil in Hc|].
  simpl. destruct (f x) as [[]|] eqn:E; [|..|done].
  - destruct (Hno x); [left|done].
  - apply elem_of_cons in Hc as [->|Hc]; [congruence|].
    apply IH; [|done..]. intros y Hy. apply Hno. by right.
Qed.

Lemma reachable_true fuel s a b : reachable fuel s a b = Some true → reaches s a b.
Proof.
  revert a. induction fuel as [|k IH]; intros a; [done|].
  rewrite reachable_S. case_decide as Hab; [subst; constructor|].
  intros (c & Hc%elem_of_iter & Hf)%scan_children_true.
  eapply reaches_child; [done|]. by apply IH.
Qed.

Lemma reaches_trans s a b c : reaches s a b → reaches s b c → reaches s a c.
Proof. induction 1; [done|]. intros. eapply reaches_child; eauto. Qed.

(** Where the child edges descend along a rank, the search returns as soon
    as the recursion limit is above the rank of its start, and its answer is
    whether the target can be reached. *)
Theorem reachable_decides (rank : ref → nat) fuel s a b :
  (∀ n c, c ∈ children s n → (rank c < rank n)%nat) →
  (rank a < fuel)%nat →
  ∃ r, reachable fuel s a b = Some r ∧ (r = true ↔ reaches s a b).
Proof.
  intros Hrank Hfuel.
  assert (is_Some (reachable fuel s a b)) as [r Hr].
  { revert a Hfuel. induction fuel as [|k IH]; intros a Hfuel; [lia|].
    rewrite reachable_S. case_decide; [by eexists|].
    apply scan_children_returns. intros c Hc%elem_of_iter.
    apply IH. specialize (Hrank _ _ Hc). lia. }
  exists r. split; [done|]. destruct r.
  - split; [|done]. intros _. by eapply reachable_true.
  - split; [done|]. intros Hreach. by apply reachable_false in Hr.
Qed.

(** The search keeps no record of the nodes it has seen: from a start that
    leads into a cycle and not to the target, it overflows every recursion
    limit. *)
Theorem reachable_cycle_overflow s a n c b fuel :
  reaches s a n → c ∈ children s n → reaches s c n → ¬ reaches s a b →
  reachable fuel s a b = None.
Proof.
  intros Han Hc Hcn Hab. revert a Han Hab.
  induction fuel as [|k IH]; intros a Han Hab; [done|].
  rewrite reachable_S. case_decide as E; [subst; destruct Hab; constructor|].
  assert (∃ x, x ∈ children s a ∧ reaches s x n) as (x & Hx & Hxn).
  { inversion Han as [|? y ? Hy Hyn]; subst; eauto. }
  apply (scan_children_overflow _ _ x).
  - intros y Hy%elem_of_iter Ht%reachable_true. apply Hab. by eapply reaches_child.
  - by apply elem_of_iter.
  - apply IH; [done|]. intros Hxb. apply Hab. by eapply reaches_child.
Qed.

(** ** Yields *)

Lemma get_yield_S k s n :
  get_yield (S k) s n =
  below ← yield_children (get_yield k s) (iter (children s n));
  Some (if isLexical s n then tokens s n ∪ below else below).
Proof. reflexivity. Qed.

Lemma yield_children_spec f l Y :
  yield_children f l = Some Y →
  (∀ c, c ∈ l → is_Some (f c)) ∧
  ∀ t, t ∈ Y ↔ ∃ c y, c ∈ l ∧ f c = Some y ∧ t ∈ y.
Proof.
  revert Y. induction l as [|x l IH]; intros Y; simpl.
  - intros [= <-]. split; [by intros ? ?%elem_of_nil|].
    intros t. split; [set_solver|]. by intros (? & ? & ?%elem_of_nil & _).
  - destruct (f x) as [y|] eqn:E; [|done]. simpl.
    destruct (yield_children f l) as [r|]; [|done]. simpl. intros [= <-].
    destruct (IH r eq_refl) as [Hall Hiff]. split.
    + intros c [->|Hc]%elem_of_cons; [by eexists|by apply Hall].
    + intros t. rewrite elem_of_union, Hiff. split.
      * intros [Ht|(c & y' & Hc & Hy & Ht)]; [exists x, y|exists c, y'];
          (split; [by constructor|done]).
      * intros (c & y' & [->|Hc]%elem_of_cons & Hy & Ht).
        -- left. congruence.
        -- right. eauto.
Qed.

(** The yield of a node, when the recursion returns, is made of the tokens
    of the lexical nodes that the node reaches along child edges, itself
    included. *)
Theorem get_yield_tokens fuel s n Y :
  get_yield fuel s n = Some Y →
  ∀ t, t ∈ Y ↔ ∃ m, reaches s n m ∧ isLexical s m = true ∧ t ∈ tokens s m.
Proof.
  revert n Y. induction fuel as [|k IH]; intros n Y; [done|].
  rewrite get_yield_S.
  destruct (yield_children _ _) as [below|] eqn:E; [|done]. simpl. intros [= <-].
  apply yield_children_spec in E as [Hall Hiff]. intros t.
  assert (t ∈ below ↔
          ∃ c m, c ∈ children s n ∧ reaches s c m ∧ isLexical s m = true ∧ t ∈ tokens s m)
    as Hbelow.
  { rewrite Hiff. split.
    - intros (c & y & Hc%elem_of_iter & Hy & Ht).
      apply (IH _ _ Hy) in Ht as (m & ? & ? & ?). eauto 10.
    - intros (c & m & Hc & Hcm & Hl & Ht).
      assert (is_Some (get_yield k s c)) as [y Hy].
      { by apply Hall, elem_of_iter. }
      exists c, y. split; [by apply elem_of_iter|]. split; [done|].
      apply (IH _ _ Hy). eauto. }
  split.
  - intros Ht. assert (t ∈ below ∨ (isLexical s n = true ∧ t ∈ tokens s n)) as [Hb|[Hl Hn]].
    { destruct (isLexical s n); set_solver. }
    + apply Hbelow in Hb as (c & m & Hc & Hcm & Hl & Hm).
      exists m. split; [by eapply reaches_child|done].
    + exists n. split; [constructor|done].
  - intros (m & Hnm & Hl & Ht). inversion Hnm as [|? c ? Hc Hcm]; subst.
    + rewrite Hl. set_solver.
    + assert (t ∈ below) by (apply Hbelow; eauto 10).
      destruct (isLexical s n); set_solver.
Qed.

(** ** Constructors *)

Lemma bind_setattr_height_self {B} n v (k : unit → M B) s :
  _pointerto s n = None →
  bind (setattr_height n v) k s = k tt (with_attrs (up_height <[n := v]>) s).
Proof. intros Hn. unfold bind, setattr_height. by rewrite setattr_cell_self. Qed.

Lemma bind_setattr_depth_self {B} n v (k : unit → M B) s :
  _pointerto s n = None →
  bind (setattr_depth n v) k s = k tt (with_attrs (up_depth <[n := v]>) s).
Proof. intros Hn. unfold bind, setattr_depth. by rewrite setattr_cell_self. Qed.

Lemma bind_assoc {A B C} (m : M A) (k1 : A → M B) (k2 : B → M C) s :
  bind (bind m k1) k2 s = bind m (λ a, bind (k1 a) k2) s.
Proof. unfold bind. by destruct (m s). Qed.

Ltac mnorm := repeat first [rewrite bind_assoc | rewrite bind_get | rewrite bind_modify].

Lemma bind_for_each_assert_true {A B} ln (b : A → bool) l (k : unit → M B) s :
  (∀ x, x ∈ l → b x = true) →
  bind (for_each l (λ x, py_assert ln (b x))) k s = k tt s.
Proof.
  intros H. unfold bind. revert H. induction l as [|x l IH]; intros H; simpl; [done|].
  rewrite bind_assert, H by left. apply IH. intros y Hy. apply H. by right.
Qed.

Lemma for_each_assert_true {A} ln (b : A → bool) l s :
  (∀ x, x ∈ l → b x = true) → for_each l (λ x, py_assert ln (b x)) s = Ret tt s.
Proof.
  induction l as [|x l IH]; intros H; simpl; [done|].
  rewrite bind_assert, H by left. apply IH. intros y Hy. apply H. by right.
Qed.

Lemma FUDGNode_init_made r nm chs s :
  _pointerto s r = None → FUDGNode_init r nm chs s = Ret tt (FUDGNode_made r nm chs s).
Proof.
  intros Hr. unfold FUDGNode_init, TreeNode_init, Fragment_init.
  repeat first [rewrite bind_assoc | rewrite bind_modify].
  rewrite bind_setattr_height_self by exact Hr.
  rewrite bind_setattr_depth_self by exact Hr.
  repeat first [rewrite bind_assoc | rewrite bind_modify].
  rewrite bind_for_each_assert_true.
  - by rewrite bind_modify.
  - intros x Hx%elem_of_iter. by apply bool_decide_eq_true.
Qed.

Lemma claim_tokens_Ret self l s :
  NoDup l → (∀ t, t ∈ l → G_token2lexnode s !! t = None) →
  ∃ m, claim_tokens self l s = Ret tt (with_G_token2lexnode m s) ∧
       ∀ t, m !! t = if decide (t ∈ l) then Some self else G_token2lexnode s !! t.
Proof.
  unfold claim_tokens. revert s. induction l as [|x l IH]; intros s Hnd Hfree; cbn [for_each].
  - exists (G_token2lexnode s). split; [by destruct s|].
    intros t. case_decide as E; [by apply elem_of_nil in E|done].
  - apply NoDup_cons in Hnd as [Hx Hnd].
    mnorm. rewrite bind_assert, bool_decide_eq_true_2 by (apply Hfree; left).
    mnorm.
    destruct (IH (with_G_token2lexnode (<[x:=self]> (G_token2lexnode s)) s) Hnd)
      as (m & Hm & Hlook).
    { intros t Ht. simpl. rewrite lookup_insert_ne; [apply Hfree; by right|].
      by intros ->. }
    exists m. split; [by rewrite Hm|]. intros t. rewrite Hlook. simpl.
    destruct (decide (t = x)) as [->|Hne].
    + rewrite decide_False by done. rewrite decide_True by left.
      by rewrite lookup_insert_eq.
    + rewrite lookup_insert_ne by done.
      destruct (decide (t ∈ l)).
      * rewrite decide_True; [done|by right].
      * rewrite decide_False; [done|]. by intros [?|?]%elem_of_cons.
Qed.

Lemma claim_tokens_Exn self l s t :
  t ∈ l → G_token2lexnode s !! t ≠ None →
  ∃ s', claim_tokens self l s = Exn (AssertionError 144) s'.
Proof.
  unfold claim_tokens. revert s. induction l as [|x l IH]; intros s Ht Hbusy; cbn [for_each].
  - by apply elem_of_nil in Ht.
  - mnorm. rewrite bind_assert. case_bool_decide as Hx; [|by eexists].
    mnorm. apply elem_of_cons in Ht as [->|Ht]; [done|].
    apply IH; [done|]. simpl.
    destruct (decide (t = x)) as [->|]; [by rewrite lookup_insert_eq|].
    by rewrite lookup_insert_ne.
Qed.

(** [LexicalNode.__init__] has three outcomes: the reserved name fails the
    assertion of line 140; a token that another lexical node holds fails
    the assertion of line 144; otherwise the node is made, and the tokens
    given, and no others, come to point at it. *)
Theorem LexicalNode_init_outcome s self nm tkns :
  (nm = "$$" → ∃ s', LexicalNode_init self nm tkns s = Exn (AssertionError 140) s') ∧
  (nm ≠ "$$" → (∃ t, t ∈ tkns ∧ G_token2lexnode s !! t ≠ None) →
     ∃ s', LexicalNode_init self nm tkns s = Exn (AssertionError 144) s') ∧
  (nm ≠ "$$" → (∀ t, t ∈ tkns → G_token2lexnode s !! t = None) →
     ∃ s', LexicalNode_init self nm tkns s = Ret tt s' ∧
           (∀ t, G_token2lexnode s' !! t =
                 if decide (t ∈ tkns) then Some self else G_token2lexnode s !! t) ∧
           isLexical s' self = true ∧ name s' self = nm ∧ tokens s' self = tkns ∧
           G_nodes s' = G_nodes s).
Proof.
  set (s0 := with_attrs (up_parentcandidates (delete self))
               (with_static (λ st, mkStatic (<[self := LexicalNode]> (f_class st))
                                            (f_name st) (f_tokens st)) s)).
  assert (Hptr : _pointerto s0 self = None).
  { unfold _pointerto, isCBB, class_of. simpl. by rewrite lookup_insert_eq. }
  assert (Hhead : nm ≠ "$$" →
    LexicalNode_init self nm tkns s =
    claim_tokens self (iter tkns)
      (with_static (λ st, mkStatic (f_class st) (f_name st) (<[self := tkns]> (f_tokens st)))
         (FUDGNode_made self nm ∅ s0))).
  { intros Hnm. unfold LexicalNode_init. rewrite !bind_modify, bind_assert.
    rewrite bool_decide_eq_true_2 by done. fold s0.
    unfold bind at 1. rewrite FUDGNode_init_made by exact Hptr.
    by rewrite bind_modify. }
  split; [|split].
  - intros ->. unfold LexicalNode_init. rewrite !bind_modify, bind_assert.
    rewrite bool_decide_eq_false_2 by (by intros []). by eexists.
  - intros Hnm (t & Ht & Hbusy). rewrite Hhead by done.
    apply (claim_tokens_Exn _ _ _ t); [by apply elem_of_iter|done].
  - intros Hnm Hfree. rewrite Hhead by done.
    match goal with |- ∃ _, claim_tokens _ _ ?s1 = _ ∧ _ =>
      destruct (claim_tokens_Ret self (iter tkns) s1) as (m & -> & Hm) end.
    + apply NoDup_iter.
    + intros t Ht%elem_of_iter. by apply Hfree.
    + eexists. split; [done|]. split; [|split; [|split; [|split]]].
      * intros t. simpl. rewrite Hm. simpl.
        destruct (decide (t ∈ iter tkns)) as [H|H]; rewrite elem_of_iter in H.
        -- by rewrite decide_True.
        -- by rewrite decide_False.
      * unfold isLexical, class_of. simpl. apply bool_decide_eq_true.
        by rewrite lookup_insert_eq.
      * unfold name. simpl. by rewrite lookup_total_insert_eq.
      * unfold tokens. simpl. by rewrite lookup_total_insert_eq.
      * done.
Qed.

(** ** What a successful [add_child] leaves *)

Lemma FUDGNode_add_child_topo s self node lbl s' :
  FUDGNode_add_child self node lbl s = Ret tt s' →
  reachable (S recursion_limit) (forward_half self node lbl s) node self = Some false ∧
  static s' = static s ∧ topo s' = topo (linked self node lbl s).
Proof.
  unfold FUDGNode_add_child. rewrite bind_get, !bind_assert.
  destruct (bool_decide _); [|done]. destruct (_ || _); [|done].
  unfold insert_edge, TreeNode_add_child. mnorm.
  change (with_topo _ (with_topo _ s)) with (forward_half self node lbl s).
  destruct (reachable _ _ _ _) as [[]|] eqn:Hreach; [done| |done].
  mnorm. intros Hrest. split; [done|].
  frame_of structure_view Hrest. by injection Hframe.
Qed.


(** ** Cycles *)

Lemma reaches_ext s1 s2 a b :
  (∀ n, children s1 n = children s2 n) → reaches s1 a b → reaches s2 a b.
Proof.
  intros H. induction 1 as [|n c m Hc _ IH]; [constructor|].
  eapply reaches_child; [|done]. by rewrite <- H.
Qed.

(** A path in the graph with the new edge either is an old path, or goes
    through the new edge. *)
Lemma reaches_through self node lbl s a b :
  (∀ n, sets_of s n = sets_of s self → n = self) →
  reaches (forward_half self node lbl s) a b →
  reaches s a b ∨ (reaches s a self ∧ reaches (forward_half self node lbl s) node b).
Proof.
  intros Hown. induction 1 as [|n c m Hc Hcm IH]; [left; constructor|].
  rewrite children_forward_half in Hc. case_decide as E.
  - apply Hown in E as ->. apply elem_of_union in Hc as [Hc|Hc%elem_of_singleton];
      [|subst c].
    + destruct IH as [IH|[IH1 IH2]]; [left|right].
      * by eapply reaches_child.
      * split; [by eapply reaches_child|done].
    + right. split; [constructor|done].
  - destruct IH as [IH|[IH1 IH2]]; [left|right].
    + by eapply reaches_child.
    + split; [by eapply reaches_child|done].
Qed.

(** [FUDGNode.add_child] keeps a graph without cycles free of them, when the
    [children] set of the parent is bound to no other node. *)
Theorem add_child_acyclic s self node lbl s' :
  acyclic s → (∀ n, sets_of s n = sets_of s self → n = self) →
  FUDGNode_add_child self node lbl s = Ret tt s' →
  acyclic s'.
Proof.
  intros Hacyc Hown Hret.
  destruct (FUDGNode_add_child_topo _ _ _ _ _ Hret) as (Hsearch%reachable_false & _ & Htopo).
  set (fh := forward_half self node lbl s) in *.
  assert (∀ n, children s' n = children fh n) as Hch.
  { intros n. unfold children, sets_of. by rewrite Htopo. }
  intros n c Hc Hcn. rewrite Hch in Hc.
  apply (reaches_ext _ fh) in Hcn; [|done].
  assert (∀ a b, reaches s a b → reaches fh a b) as Hlift
    by (intros; by apply reaches_forward_half).
  apply (reaches_through self node lbl s) in Hcn as Hcase; [|done].
  unfold fh in Hc. rewrite children_forward_half in Hc. case_decide as E.
  - apply Hown in E as ->. apply elem_of_union in Hc as [Hc|Hc%elem_of_singleton];
      [|subst c].
    + destruct Hcase as [Hold|[Hcs Hns]]; [by eapply Hacyc|].
      by eapply Hacyc.
    + done.
  - destruct Hcase as [Hold|[Hcs Hnn]]; [by eapply Hacyc|].
    apply Hsearch. eapply reaches_trans; [exact Hnn|].
    eapply reaches_child; [|by apply Hlift].
    unfold fh. rewrite children_forward_half. by rewrite decide_False.
Qed.

(** ** Heights *)

Lemma with_h_self s : with_h (f_height (attrs s)) s = s.
Proof. by destruct s as [? ? [] ? ? ? ?]. Qed.

Lemma bind_setattr_height_with_h {B} n v (k : unit → M B) g s :
  _pointerto s n = None →
  bind (setattr_height n v) k (with_h g s) = k tt (with_h (<[n := v]> g) s).
Proof.
  intros Hn. unfold bind, setattr_height, with_h.
  rewrite setattr_cell_with_attrs, setattr_cell_self by done. done.
Qed.

Lemma height_with_h g s n : _pointerto s n = None → height (with_h g s) n = g !!! n.
Proof.
  intros Hn. change (height (with_h g s) n) with (g !!! getattr_cell s n).
  by rewrite getattr_cell_self.
Qed.

Section SetMinHeight.
Context (rank : ref → nat) (s : State).
Context (Hptr : ∀ n, _pointerto s n = None).
Context (Hrank : ∀ c p, p ∈ parents s c → (rank c < rank p)%nat).

(** Raising [x] to [h] repairs, above [x], what it has to: the heights
    only grow, nothing at or below the rank of [x] moves but [x], and every
    edge from the rank of [x] upwards is in order again. *)
Lemma setMinHeight_run fuel x h g s' :
  (∀ c p, p ∈ parents s c → (rank x ≤ rank c)%nat → g !!! c + 1 ≤ g !!! p) →
  _setMinHeight fuel x h (with_h g s) = Ret tt s' →
  ∃ g', s' = with_h g' s ∧ h ≤ g' !!! x ∧ (∀ n, g !!! n ≤ g' !!! n) ∧
        (∀ n, n ≠ x → (rank n ≤ rank x)%nat → g' !!! n = g !!! n) ∧
        (∀ c p, p ∈ parents s c → (rank x ≤ rank c)%nat → g' !!! c + 1 ≤ g' !!! p).
Proof.
  revert x h g s'. induction fuel as [|k IH]; intros x h g s' Hok; [done|].
  cbn [_setMinHeight]. rewrite bind_get, height_with_h by done.
  destruct (g !!! x <? h) eqn:Hlt.
  2: { intros [= <-]. exists g. apply Z.ltb_ge in Hlt. repeat split; auto; lia. }
  apply Z.ltb_lt in Hlt.
  rewrite bind_setattr_height_with_h, bind_get by done.
  change (parents (with_h (<[x:=h]> g) s) x) with (parents s x).
  set (body := λ p : ref, bind get _).
  assert (∀ l t g1,
    (∀ p, p ∈ l → p ∈ parents s x) →
    g1 !!! x = h →
    (∀ n, n ≠ x → (rank n ≤ rank x)%nat → g1 !!! n = g !!! n) →
    (∀ c p, p ∈ parents s c → (rank x ≤ rank c)%nat → c ≠ x → g1 !!! c + 1 ≤ g1 !!! p) →
    for_each l body (with_h g1 s) = Ret tt t →
    ∃ g2, t = with_h g2 s ∧ g2 !!! x = h ∧ (∀ n, g1 !!! n ≤ g2 !!! n) ∧
          (∀ n, n ≠ x → (rank n ≤ rank x)%nat → g2 !!! n = g !!! n) ∧
          (∀ c p, p ∈ parents s c → (rank x ≤ rank c)%nat → c ≠ x →
                  g2 !!! c + 1 ≤ g2 !!! p) ∧
          (∀ p, p ∈ l → h + 1 ≤ g2 !!! p)) as Hloop.
  { induction l as [|p l IHl]; intros t g1 Hl Hx Hlow Hup; cbn [for_each].
    - intros [= <-]. exists g1. repeat split; auto; try lia. by intros ? ?%elem_of_nil.
    - intros ([] & t1 & Hp & Hrest)%bind_Ret_inv.
      assert (p ∈ parents s x) as Hpx by (apply Hl; left).
      pose proof (Hrank _ _ Hpx) as Hrk.
      unfold body in Hp. rewrite bind_get, bind_assert in Hp.
      destruct (bool_decide _); [|done].
      apply IH in Hp as (g2 & -> & Hh & Hmono & Hframe & Hok2).
      2: { intros c q Hq Hc. apply Hup; [done|lia|]. intros ->. lia. }
      apply IHl in Hrest as (g3 & -> & Hx3 & Hmono3 & Hlow3 & Hup3 & Hdone3).
      + exists g3. split; [done|]. split; [done|]. split; [|split; [done|split; [done|]]].
        * intros n. etrans; [apply Hmono|apply Hmono3].
        * intros q [->|Hq]%elem_of_cons; [|by apply Hdone3].
          etrans; [apply Hh|apply Hmono3].
      + intros q Hq. apply Hl. by right.
      + rewrite Hframe; [done| |lia]. intros ->. lia.
      + intros n Hn Hr. rewrite Hframe; [by apply Hlow| |lia]. intros ->. lia.
      + intros c q Hq Hc Hcx. destruct (decide (rank p ≤ rank c)%nat) as [Hpc|Hpc].
        * by apply Hok2.
        * rewrite (Hframe c); [|by intros ->; lia|lia].
          etrans; [by apply Hup|apply Hmono]. }
  intros Hrun. apply Hloop in Hrun as (g2 & -> & Hx2 & Hmono2 & Hlow2 & Hup2 & Hdone2).
  - exists g2. split; [done|]. split; [lia|]. split; [|split; [done|]].
    + intros n. etrans; [|apply Hmono2].
      destruct (decide (n = x)) as [->|Hn].
      * rewrite lookup_total_insert_eq. lia.
      * by rewrite lookup_total_insert_ne.
    + intros c p Hp Hc. destruct (decide (c = x)) as [->|Hcx].
      * rewrite Hx2. apply Hdone2. by apply elem_of_iter.
      * by apply Hup2.
  - intros p Hp%elem_of_iter. done.
  - by rewrite lookup_total_insert_eq.
  - intros n Hn _. by rewrite lookup_total_insert_ne.
  - intros c p Hp Hc Hcx. rewrite (lookup_total_insert_ne _ x c) by done.
    etrans; [by apply Hok|].
    destruct (decide (p = x)) as [->|Hpx].
    + rewrite lookup_total_insert_eq. lia.
    + by rewrite lookup_total_insert_ne.
Qed.
End SetMinHeight.

Lemma heights_ok_view s s' : heights_view s' = heights_view s → heights_ok s → heights_ok s'.
Proof.
  intros [= Hst Hto Hh] Hok c p.
  assert (∀ n, height s' n = height s n) as E.
  { intros n. unfold height, getattr_cell, _pointerto, isCBB, class_of.
    by rewrite Hst, Hto, Hh. }
  assert (parents s' c = parents s c) as ->.
  { unfold parents, sets_of. by rewrite Hto. }
  rewrite !E. apply Hok.
Qed.

Lemma parents_linked self node lbl s c :
  parents (linked self node lbl s) c =
  if decide (sets_of s c = sets_of s node) then parents s node ∪ {[self]} else parents s c.
Proof.
  unfold linked, parents at 1, sets_of at 1. simpl. fold (sets_of s c). case_decide as E.
  - rewrite E. by rewrite lookup_total_insert_eq.
  - by rewrite lookup_total_insert_ne.
Qed.

(** [FUDGNode.add_child] keeps every parent above its children, on a graph
    where no bundles have been merged and whose edges, the new one included,
    descend along a rank.  In particular the parent ends above the child. *)
Theorem add_child_heights (rank : ref → nat) s self node lbl s' :
  unmerged s → heights_ok s →
  (∀ c p, p ∈ parents s c → (rank c < rank p)%nat) → (rank node < rank self)%nat →
  FUDGNode_add_child self node lbl s = Ret tt s' →
  heights_ok s' ∧ height s' node + 1 ≤ height s' self.
Proof.
  intros Hun Hok Hrank Hnew Hret.
  assert (self ∈ parents s' node) as Hedge.
  { destruct (FUDGNode_add_child_topo _ _ _ _ _ Hret) as (_ & _ & Htopo).
    assert (parents s' node = parents (linked self node lbl s) node) as ->.
    { unfold parents, sets_of. by rewrite Htopo. }
    rewrite parents_linked, decide_True by done. set_solver. }
  enough (heights_ok s') as Hok'; [split; [done|by apply Hok']|]. clear Hedge.
  revert Hret. unfold FUDGNode_add_child. rewrite bind_get, !bind_assert.
  destruct (bool_decide _); [|done]. destruct (_ || _); [|done].
  unfold insert_edge, TreeNode_add_child. mnorm.
  change (with_topo _ (with_topo _ s)) with (forward_half self node lbl s).
  destruct (reachable _ _ _ _) as [[]|]; [done| |done]. mnorm.
  change (with_topo _ (with_topo _ (forward_half self node lbl s)))
    with (linked self node lbl s).
  set (s4 := linked self node lbl s).
  intros ([] & s5 & Hraise & Hrest)%bind_Ret_inv.
  frame_of heights_view Hrest. apply (heights_ok_view s5); [done|]. clear Hrest Hframe.
  assert (∀ n, _pointerto s4 n = None) as Hptr by (intros n; apply Hun).
  assert (∀ c, parents s4 c = if decide (c = node) then parents s node ∪ {[self]}
                              else parents s c) as Hpar.
  { intros c. unfold s4. rewrite parents_linked.
    rewrite !(proj2 (Hun _)). done. }
  assert (∀ c p, p ∈ parents s4 c → p ∈ parents s c ∨ (c = node ∧ p = self)) as Hcases.
  { intros c p. rewrite Hpar. case_decide as E; [subst c|by left].
    intros [Hp|Hp%elem_of_singleton]%elem_of_union; [by left|by right]. }
  assert (∀ c p, p ∈ parents s4 c → (rank c < rank p)%nat) as Hrank4.
  { intros c p [Hp|[-> ->]]%Hcases; [by apply Hrank|done]. }
  set (g := f_height (attrs s)).
  assert (∀ n, height s n = g !!! n) as Hg.
  { intros n. unfold height. by rewrite getattr_cell_self by apply Hun. }
  rewrite <- (with_h_self s4) in Hraise.
  change (f_height (attrs s4)) with g in Hraise.
  rewrite height_with_h in Hraise by done.
  apply (setMinHeight_run rank s4 Hptr Hrank4) in Hraise
    as (g' & -> & Hh & Hmono & Hlow & Hup).
  2: { intros c p [Hp|[-> ->]]%Hcases Hc; [|lia].
       specialize (Hok c p Hp). by rewrite !Hg in Hok. }
  intros c p Hp. rewrite !height_with_h by done.
  change (parents (with_h g' s4) c) with (parents s4 c) in Hp.
  destruct (decide (rank self ≤ rank c)%nat) as [Hc|Hc]; [by apply Hup|].
  rewrite (Hlow c) by (try intros ->; lia).
  apply Hcases in Hp as [Hp|[-> ->]]; [|done].
  etrans; [|apply Hmono]. specialize (Hok c p Hp). by rewrite !Hg in Hok.
Qed.

(** ** Fragments *)

Lemma for_each_set_frag f l s :
  ∃ g, for_each l (λ n, modify (with_frags (up_frag <[n := f]>))) s =
         Ret tt (with_frags (up_frag (λ _, g)) s) ∧
       ∀ m, g !! m = if decide (m ∈ l) then Some f else f_frag (frags s) !! m.
Proof.
  revert s. induction l as [|x l IH]; intros s; cbn [for_each].
  - exists (f_frag (frags s)). split; [by destruct s as [? ? ? [] ? ? ?]|].
    intros m. by rewrite decide_False by (by intros ?%elem_of_nil).
  - rewrite bind_modify.
    destruct (IH (with_frags (up_frag <[x:=f]>) s)) as (g & -> & Hg).
    exists g. split; [done|]. intros m. rewrite Hg. simpl.
    destruct (decide (m = x)) as [->|Hne].
    + rewrite lookup_insert_eq. rewrite (decide_True (P := x ∈ x :: l)) by left.
      by destruct (decide (x ∈ l)).
    + rewrite lookup_insert_ne by done. destruct (decide (m ∈ l)).
      * rewrite decide_True; [done|by right].
      * rewrite decide_False; [done|]. by intros [?|?]%elem_of_cons.
Qed.

Lemma Fragment_or_Ret f that s r s1 :
  Fragment_or f that s = Ret r s1 →
  r = f ∧
  if decide (f = that) then frags s1 = frags s
  else (∀ m, f_frag (frags s1) !! m =
             if decide (m ∈ nodes s that) then Some f else f_frag (frags s) !! m) ∧
       F_roots (frags s1) = <[f := roots s f ∪ roots s that]> (F_roots (frags s)) ∧
       F_nodes (frags s1) = <[f := nodes s f ∪ nodes s that]> (F_nodes (frags s)).
Proof.
  unfold Fragment_or. case_decide as E; [by intros [= <- <-]|].
  mnorm.
  match goal with |- bind (for_each ?l _) _ ?s0 = _ → _ =>
    destruct (for_each_set_frag f l s0) as (g & Hloop & Hg) end.
  unfold bind at 1. rewrite Hloop. intros [= <- <-]. split; [done|].
  split; [|done]. intros m. simpl. rewrite Hg. simpl.
  assert (nodes (with_frags (up_nodes <[f:=nodes (with_frags
            (up_roots <[f:=roots s f ∪ roots s that]>) s) f ∪ nodes (with_frags
            (up_roots <[f:=roots s f ∪ roots s that]>) s) that]>)
            (with_frags (up_roots <[f:=roots s f ∪ roots s that]>) s)) that
          = nodes s that) as ->.
  { unfold nodes. simpl. by rewrite lookup_total_insert_ne. }
  destruct (decide (m ∈ iter (nodes s that))) as [H|H]; rewrite elem_of_iter in H.
  - by rewrite decide_True.
  - by rewrite decide_False.
Qed.

(** When [FUDGNode.add_child] returns, the fragment of the parent has taken
    in the fragment of the child: it holds the nodes of both, parent and
    child are in it, the child is none of its roots, and the fragments still
    divide the nodes among them. *)
Theorem add_child_fragments s self node lbl s' :
  frag_ok s →
  is_Some (f_frag (frags s) !! self) → is_Some (f_frag (frags s) !! node) →
  FUDGNode_add_child self node lbl s = Ret tt s' →
  frag_ok s' ∧
  frag s' self = frag s self ∧ frag s' node = frag s self ∧
  (∀ m, m ∈ nodes s' (frag s' self) ↔
        m ∈ nodes s (frag s self) ∨ m ∈ nodes s (frag s node)) ∧
  node ∉ roots s' (frag s' self).
Proof.
  intros Hok Hself Hnode. unfold FUDGNode_add_child. rewrite bind_get, !bind_assert.
  destruct (bool_decide _); [|done]. destruct (_ || _); [|done].
  unfold insert_edge, TreeNode_add_child. mnorm.
  destruct (reachable _ _ _ _) as [[]|]; [done| |done]. mnorm.
  intros ([] & s5 & Hraise & Hrest)%bind_Ret_inv.
  frame_of frags Hraise. simpl in Hframe. clear Hraise.
  revert Hrest. mnorm.
  assert (frag s5 self = frag s self) as -> by (unfold frag; by rewrite Hframe).
  assert (frag s5 node = frag s node) as -> by (unfold frag; by rewrite Hframe).
  assert (∀ x, nodes s5 x = nodes s x) as Hn5 by (intros; unfold nodes; by rewrite Hframe).
  assert (∀ x, roots s5 x = roots s x) as Hr5 by (intros; unfold roots; by rewrite Hframe).
  set (f := frag s self). set (that := frag s node).
  intros (r & s6 & Hor & Hrest)%bind_Ret_inv.
  apply Fragment_or_Ret in Hor as [-> Hor]. revert Hrest. mnorm.
  set (s7 := with_frags (up_frag <[self:=f]>) s6).
  assert (frag s7 self = f) as Hf7.
  { unfold frag, s7. simpl. by rewrite lookup_insert_eq. }
  rewrite Hf7.
  intros Hrest. frame_of frags Hrest. clear Hrest. simpl in Hframe0.
  (* what the invariant says of the two fragments *)
  assert (f_frag (frags s) !! self = Some f) as Efs.
  { unfold f, frag. destruct Hself as [x ->]. done. }
  assert (f_frag (frags s) !! node = Some that) as Efn.
  { unfold that, frag. destruct Hnode as [x ->]. done. }
  pose proof (Hok self Hself) as Hinf. fold f in Hinf.
  pose proof (Hok node Hnode) as Hint. fold that in Hint.
  (* the tables of the final state *)
  assert (∀ m, f_frag (frags s') !! m =
               if decide (m = self ∨ m ∈ nodes s that) then Some f
               else f_frag (frags s) !! m) as HA.
  { intros m. rewrite Hframe0. simpl.
    destruct (decide (m = self)) as [->|Hm].
    { rewrite lookup_insert_eq. rewrite decide_True; [done|by left]. }
    rewrite lookup_insert_ne by done. destruct (decide (f = that)) as [E|E].
    - rewrite Hor, Hframe. case_decide as Hd; [|done].
      destruct Hd as [?|Hd]; [done|]. apply Hint in Hd. by rewrite E.
    - destruct Hor as (Hor & _ & _). rewrite Hor, Hn5, Hframe.
      destruct (decide (m ∈ nodes s that)).
      + rewrite decide_True; [done|by right].
      + rewrite decide_False; [done|]. by intros [?|?]. }
  assert (∀ g, nodes s' g =
               if decide (g = f) then nodes s f ∪ nodes s that else nodes s g) as HB.
  { intros g. unfold nodes at 1. rewrite Hframe0. simpl.
    destruct (decide (f = that)) as [E|E].
    - rewrite Hor, Hframe. fold (nodes s g). case_decide as Hg; [|done].
      subst g. rewrite <- E. set_solver.
    - destruct Hor as (_ & _ & ->). rewrite Hn5, Hframe. case_decide as Hg.
      + subst g. by rewrite lookup_total_insert_eq, Hn5.
      + by rewrite lookup_total_insert_ne. }
  assert (node ∉ roots s' f) as HC.
  { unfold roots at 1. rewrite Hframe0. simpl. rewrite lookup_total_insert_eq. set_solver. }
  assert (∀ n, frag s' n = if decide (n = self ∨ n ∈ nodes s that) then f else frag s n)
    as Hfr.
  { intros n. unfold frag at 1. rewrite HA. destruct (decide (n = self ∨ n ∈ nodes s that)); reflexivity. }
  assert (frag s' self = f) as Hfs.
  { rewrite Hfr. rewrite decide_True; [done|by left]. }
  assert (frag s' node = f) as Hfn.
  { rewrite Hfr. rewrite decide_True; [done|]. right. by apply Hint. }
  split; [|split; [done|split; [done|split]]].
  - assert (∀ m, m ∈ nodes s f ∪ nodes s that ↔ f_frag (frags s') !! m = Some f) as Hmerged.
    { intros m. rewrite HA, elem_of_union.
      destruct (decide (m = self ∨ m ∈ nodes s that)) as [Hd'|Hd'].
      - split; [done|]. intros _. destruct Hd' as [->|?]; [left; by apply Hinf|by right].
      - split; [|intros ?; left; by apply Hinf].
        intros [?%Hinf|Hthat]; [done|]. destruct Hd'. by right. }
    intros n Hn m. rewrite HB, Hfr.
    destruct (decide (n = self ∨ n ∈ nodes s that)) as [Hd|Hd].
    { rewrite decide_True by done. apply Hmerged. }
    rewrite HA in Hn. rewrite decide_False in Hn by done.
    assert (f_frag (frags s) !! n = Some (frag s n)) as En.
    { unfold frag. destruct Hn as [x ->]. done. }
    pose proof (Hok n Hn) as Hing.
    assert (frag s n ≠ that) as Hgt.
    { intros E. destruct Hd. right. apply Hint. by rewrite En, E. }
    destruct (decide (frag s n = f)) as [Egf|Egf]; [rewrite Egf; apply Hmerged|].
    rewrite Hing, HA.
    destruct (decide (m = self ∨ m ∈ nodes s that)) as [Hd'|Hd']; [|done].
    split; [|by intros [=]]. intros Hg.
    destruct Hd' as [->|Hm%Hint]; congruence.
  - intros m. rewrite Hfs, HB. rewrite decide_True by done. set_solver.
  - by rewrite Hfs.
Qed.

(** ** The downward pass, node by node *)

Lemma iand_parentcandidates_run s n x m t' :
  _pointerto s n = None →
  iand_parentcandidates n x (with_pc m s) = Ret tt t' →
  ∃ cur v, m !! n = Some cur ∧ x = Some v ∧ t' = with_pc (<[n := cur ∩ v]> m) s.
Proof.
  intros Hn. unfold iand_parentcandidates. rewrite bind_get.
  change (parentcandidates (with_pc m s) n) with (m !! getattr_cell s n).
  rewrite getattr_cell_self by done.
  destruct (m !! n) as [cur|]; [|done]. destruct x as [v|]; [|done].
  pose proof (bind_setattr_parentcandidates n (cur ∩ v) ret m s Hn) as E.
  unfold bind, ret in E.
  destruct (setattr_parentcandidates n (cur ∩ v) (with_pc m s)) as [[] ?|]; [|done].
  injection E as ->. intros [= <-]. eauto.
Qed.

Lemma edge_bound_mono s n pe w w' : w' ⊆ w → edge_bound s n pe w → edge_bound s n pe w'.
Proof.
  intros Hw [H1 H2]. split.
  - intros Hp. specialize (H1 Hp). set_solver.
  - intros Hp Hm. destruct (H2 Hp Hm) as (t & ? & ?). exists t. split; [done|set_solver].
Qed.

Lemma downward_edge_run s n pe m t' :
  _pointerto s n = None →
  downward_edge n pe (with_pc m s) = Ret tt t' →
  ∃ cur w, m !! n = Some cur ∧ t' = with_pc (<[n := w]> m) s ∧ w ⊆ cur ∧
           edge_bound s n pe w.
Proof.
  intros Hn. unfold downward_edge. rewrite bind_get.
  change (isCBB (with_pc m s) pe.1) with (isCBB s pe.1).
  change (members (with_pc m s) pe.1) with (members s pe.1).
  change (externalchildren (with_pc m s) pe.1) with (externalchildren s pe.1).
  change (isFirm (with_pc m s) pe.1) with (isFirm s pe.1).
  change (topcandidates (with_pc m s) pe.1) with (topcandidates s pe.1).
  destruct (isCBB s pe.1) eqn:Hp.
  - case_bool_decide as Hmem.
    + intros (c & t1 & Hc & Hi)%bind_Ret_inv.
      apply (member_cands_mono s n _ m m) in Hc as [-> _]; [|done].
      apply iand_parentcandidates_run in Hi as (cur & v & Hcur & [= <-] & ->); [|done].
      exists cur, (cur ∩ c). split; [done|]. split; [done|]. split; [set_solver|].
      unfold edge_bound. rewrite Hp. split; [by intros [=]|]. intros _ Hno. done.
    + rewrite bind_assert. case_bool_decide; [|done].
      intros (cur & v & Hcur & Hv & ->)%iand_parentcandidates_run; [|done].
      exists cur, (cur ∩ v). split; [done|]. split; [done|]. split; [set_solver|].
      unfold edge_bound. rewrite Hp. split; [by intros [=]|]. intros _ _. exists v.
      split; [done|set_solver].
  - rewrite bind_assert. destruct (isFirm s pe.1); [|done].
    intros (cur & v & Hcur & [= <-] & ->)%iand_parentcandidates_run; [|done].
    exists cur, (cur ∩ {[pe.1]}). split; [done|]. split; [done|]. split; [set_solver|].
    unfold edge_bound. rewrite Hp. split; [set_solver|by intros [=]].
Qed.

Lemma downward_edges_run s n es m cur t' :
  _pointerto s n = None → m !! n = Some cur →
  for_each es (downward_edge n) (with_pc m s) = Ret tt t' →
  ∃ w, t' = with_pc (<[n := w]> m) s ∧ w ⊆ cur ∧ ∀ pe, pe ∈ es → edge_bound s n pe w.
Proof.
  intros Hn. revert m cur t'. induction es as [|pe es IH]; intros m cur t' Hcur; cbn [for_each].
  - intros [= <-]. exists cur. rewrite insert_id by done.
    split; [done|]. split; [done|]. by intros ? ?%elem_of_nil.
  - intros ([] & t1 & He & Hrest)%bind_Ret_inv.
    apply downward_edge_run in He as (cur' & w & Hcur' & -> & Hw & Hb); [|done].
    assert (cur' = cur) as -> by congruence.
    apply (IH _ w) in Hrest as (w' & -> & Hw' & Hall); [|by rewrite lookup_insert_eq].
    exists w'. rewrite insert_insert_eq. split; [done|]. split; [set_solver|].
    intros pe' [->|Hpe]%elem_of_cons; [by eapply edge_bound_mono|by apply Hall].
Qed.

Lemma downward_node_run s n m t' :
  _pointerto s n = None → isRoot s n = false →
  downward_node n (with_pc m s) = Ret tt t' →
  ∃ v, t' = with_pc (<[n := v]> m) s ∧ visited s n v.
Proof.
  intros Hn Hroot. unfold downward_node. rewrite bind_get, bind_assert.
  change (isCoord (with_pc m s) n) with (isCoord s n).
  change (isRoot (with_pc m s) n) with (isRoot s n). rewrite Hroot.
  destruct (negb (isCoord s n)); [|done]. cbn [negb].
  change (firmNodes (with_pc m s)) with (firmNodes s).
  change (descendants (with_pc m s) n) with (descendants s n).
  set (seed := py_difference (firmNodes s ∖ {[n]}) (descendants s n)).
  rewrite bind_setattr_parentcandidates, bind_get, bind_assert by done.
  change (parentcandidates (with_pc (<[n:=seed]> m) s) n)
    with ((<[n:=seed]> m) !! getattr_cell s n).
  rewrite getattr_cell_self, lookup_insert_eq by done.
  destruct (truthy (Some seed)); [|done].
  change (parentedges (with_pc (<[n:=seed]> m) s) n) with (parentedges s n).
  intros ([] & t2 & Hedges & Hfin)%bind_Ret_inv.
  apply (downward_edges_run s n _ _ seed) in Hedges as (w & -> & Hw & Hall);
    [|done|by rewrite lookup_insert_eq].
  rewrite insert_insert_eq in Hfin. rewrite bind_get in Hfin.
  change (parentcandidates (with_pc (<[n:=w]> m) s) n)
    with ((<[n:=w]> m) !! getattr_cell s n) in Hfin.
  rewrite getattr_cell_self, lookup_insert_eq in Hfin by done.
  unfold py_assert in Hfin. destruct (truthy (Some w)) eqn:Hv; [|done].
  injection Hfin as <-. exists w. split; [done|]. split; [|split].
  - simpl in Hv. by apply bool_decide_eq_true in Hv.
  - etrans; [exact Hw|]. unfold seed, py_difference. intros x Hx.
    by apply elem_of_filter in Hx as [_ ?].
  - intros pe Hpe%elem_of_iter. by apply Hall.
Qed.

Lemma downward_list_run s todo m s1 :
  NoDup todo → (∀ n, n ∈ todo → _pointerto s n = None) →
  for_each todo downward_node (with_pc m s) = Ret tt s1 →
  ∃ m1, s1 = with_pc m1 s ∧ (∀ x, x ∉ todo → m1 !! x = m !! x) ∧
        ∀ n, n ∈ todo → isRoot s n = false → ∃ v, m1 !! n = Some v ∧ visited s n v.
Proof.
  revert m. induction todo as [|n todo IH]; intros m Hnd Hptr; cbn [for_each].
  - intros [= <-]. exists m. split; [done|]. split; [done|]. by intros ? ?%elem_of_nil.
  - apply NoDup_cons in Hnd as [Hn Hnd].
    intros ([] & t' & Hnode & Hrest)%bind_Ret_inv.
    assert (_pointerto s n = None) as Hpn by (apply Hptr; left).
    assert (∃ m', t' = with_pc m' s ∧ (∀ x, x ≠ n → m' !! x = m !! x) ∧
                  (isRoot s n = false → ∃ v, m' !! n = Some v ∧ visited s n v))
      as (m' & -> & Hother & Hhere).
    { destruct (isRoot s n) eqn:Hroot.
      - apply downward_node_rerun in Hnode as (o & -> & _); [|done].
        exists (upd_at n o m). split; [done|]. split; [|done].
        intros x Hx. destruct o; simpl; [by rewrite lookup_insert_ne|done].
      - apply downward_node_run in Hnode as (v & -> & Hv); [|done..].
        exists (<[n:=v]> m). split; [done|]. split.
        + intros x Hx. by rewrite lookup_insert_ne.
        + intros _. exists v. by rewrite lookup_insert_eq. }
    apply IH in Hrest as (m1 & -> & Hkeep & Hall); [|done|intros x Hx; apply Hptr; by right].
    exists m1. split; [done|]. split.
    + intros x Hx. rewrite Hkeep by (intros ?; apply Hx; by right).
      apply Hother. intros ->. apply Hx. left.
    + intros x [->|Hx]%elem_of_cons Hroot; [|by apply Hall].
      rewrite Hkeep by done. by apply Hhere.
Qed.

Lemma downward_run s s' n :
  canonical_nodes s → downward s = Ret tt s' → n ∈ G_nodes s → isRoot s n = false →
  ∃ v, parentcandidates s' n = Some v ∧ visited s n v.
Proof.
  intros Hcan Hrun Hn Hroot. rewrite downward_sorted in Hrun.
  destruct (sorted_nodes (depth s) s) as [Hnd Hin].
  apply downward_list_run in Hrun as (m1 & -> & _ & Hall); [|done|].
  - destruct (Hall n) as (v & Hv & Hgood); [by apply Hin|done|].
    exists v. split; [|done].
    change (parentcandidates (with_pc m1 s) n) with (m1 !! getattr_cell s n).
    by rewrite getattr_cell_self by (by apply Hcan).
  - intros x Hx%Hin. by apply Hcan.
Qed.

(** After the downward pass, the parent candidates of a node of the graph
    other than the root are a set that is not empty, of nodes of the graph
    that are no bundles, and without the node itself. *)
Theorem downward_candidates s s' n :
  canonical_nodes s → downward s = Ret tt s' → n ∈ G_nodes s → isRoot s n = false →
  ∃ v, parentcandidates s' n = Some v ∧ v ≠ ∅ ∧ (n ∉ v) ∧
       ∀ x, x ∈ v → x ∈ G_nodes s ∧ isFirm s' x = true ∧ isCBB s' x = false.
Proof.
  intros Hcan Hrun Hn Hroot.
  destruct (downward_run s s' n Hcan Hrun Hn Hroot) as (v & Hv & Hne & Hsub & _).
  assert (static s' = static s) as Hst.
  { pose proof (preserves_downward static (λ _ _, eq_refl) s) as H.
    unfold frame_by in H. by rewrite Hrun in H. }
  exists v. split; [done|]. split; [done|]. split; [set_solver|].
  intros x Hx. apply Hsub in Hx. apply elem_of_difference in Hx as [Hx _].
  apply elem_of_filter in Hx as [Hfirm Hx]. split; [done|].
  assert (isFirm s x = true) as Hf by (by destruct (isFirm s x)).
  unfold isFirm, isRoot, isLexical, isCoord, isCBB, class_of in *. rewrite Hst.
  split; [done|]. apply bool_decide_eq_false. intros E. rewrite E in Hf.
  by repeat (rewrite bool_decide_eq_false_2 in Hf by done).
Qed.

(** A node that hangs from a parent that is no bundle has that parent as its
    only parent candidate after the downward pass. *)
Theorem downward_firm_parent s s' n p e :
  canonical_nodes s → downward s = Ret tt s' → n ∈ G_nodes s → isRoot s n = false →
  (p, e) ∈ parentedges s n → isCBB s p = false →
  parentcandidates s' n = Some {[p]}.
Proof.
  intros Hcan Hrun Hn Hroot Hpe Hp.
  destruct (downward_run s s' n Hcan Hrun Hn Hroot) as (v & Hv & Hne & _ & Hall).
  destruct (Hall _ Hpe) as [Hb _]. specialize (Hb Hp). cbn [fst] in Hb.
  rewrite Hv. f_equal. apply set_eq. intros x. split; [by apply Hb|].
  intros ->%elem_of_singleton. apply set_choose_L in Hne as [y Hy].
  pose proof (Hb _ Hy) as ->%elem_of_singleton. done.
Qed.

(** So the pass does not return on a graph where a node hangs from two
    different parents that are no bundles. *)
Theorem downward_two_heads s n p e q e' :
  canonical_nodes s → n ∈ G_nodes s → isRoot s n = false →
  (p, e) ∈ parentedges s n → isCBB s p = false →
  (q, e') ∈ parentedges s n → isCBB s q = false → p ≠ q →
  ∃ err s', downward s = Exn err s'.
Proof.
  intros Hcan Hn Hroot Hp Hpb Hq Hqb Hpq.
  destruct (downward s) as [[] s'|err s'] eqn:Hrun; [|by eauto].
  destruct (downward_run s s' n Hcan Hrun Hn Hroot) as (v & _ & Hne & _ & Hall).
  destruct (Hall _ Hp) as [H1 _]. destruct (Hall _ Hq) as [H2 _].
  specialize (H1 Hpb). specialize (H2 Hqb). cbn [fst] in H1, H2.
  apply set_choose_L in Hne as [y Hy]. set_solver.
Qed.

(** A node that modifies a bundle from outside keeps, as parent candidates,
    only top candidates of the bundle. *)
Theorem downward_bundle_modifier s s' n p e :
  canonical_nodes s → downward s = Ret tt s' → n ∈ G_nodes s → isRoot s n = false →
  (p, e) ∈ parentedges s n → isCBB s p = true → n ∉ members s p →
  ∃ v t, parentcandidates s' n = Some v ∧ topcandidates s' p = Some t ∧ v ⊆ t.
Proof.
  intros Hcan Hrun Hn Hroot Hpe Hp Hmem.
  destruct (downward_run s s' n Hcan Hrun Hn Hroot) as (v & Hv & _ & _ & Hall).
  destruct (Hall _ Hpe) as [_ Hb]. destruct (Hb Hp Hmem) as (t & Ht & Hsub).
  exists v, t. split; [done|]. split; [|done].
  pose proof (preserves_downward downward_view (λ _ _, eq_refl) s) as H.
  unfold frame_by in H. rewrite Hrun in H. simpl in H.
  injection H as Hst Hto _ _ _ _ _ _ Htc.
  unfold topcandidates, getattr_cell, _pointerto, isCBB, class_of in *.
  by rewrite Hst, Hto, Htc.
Qed.

(** Neither pass writes anything but its own table of candidates, whether
    it returns or raises. *)
Theorem passes_write_candidates_only s :
  upward_view (final (upward s)) = upward_view s ∧
  downward_view (final (downward s)) = downward_view s.
Proof.
  split.
  - apply (preserves_upward upward_view). reflexivity.
  - apply (preserves_downward downward_view). reflexivity.
Qed.

(** ** Merging two bundles *)

Lemma add_child_external c x t t' :
  isCBB t c = true → add_child c x None t = Ret tt t' →
  externalchildren t' c = externalchildren t c ∪ {[x]} ∧ merge_view t' = merge_view t.
Proof.
  intros Hc. unfold add_child. rewrite bind_get, Hc. unfold CBBNode_add_child.
  rewrite bind_modify. intros H.
  frame_of merge_ext_view H. injection Hframe as Hst Hme Hse Hto Hpt Hex.
  split.
  - unfold externalchildren at 1, sets_of. rewrite Hex, Hse.
    fold (sets_of t c). by rewrite lookup_total_insert_eq.
  - unfold merge_view. by rewrite Hst, Hme, Hse, Hto, Hpt.
Qed.

Lemma isCBB_merge_view s s' n : merge_view s' = merge_view s → isCBB s' n = isCBB s n.
Proof. intros [= Hst _ _ _ _]. unfold isCBB, class_of. by rewrite Hst. Qed.

Lemma add_children_external c l t t' :
  isCBB t c = true → for_each l (λ x, add_child c x None) t = Ret tt t' →
  externalchildren t' c = externalchildren t c ∪ list_to_set l ∧
  merge_view t' = merge_view t.
Proof.
  revert t. induction l as [|x l IH]; intros t Hc; cbn [for_each].
  - intros [= <-]. split; [set_solver|done].
  - intros ([] & t1 & H1 & Hrest)%bind_Ret_inv.
    apply add_child_external in H1 as [Hx Hv]; [|done].
    apply IH in Hrest as [Hl Hv']; [|by rewrite (isCBB_merge_view _ _ _ Hv)].
    split; [|congruence]. rewrite Hl, Hx. set_solver.
Qed.

(** When [become_pointer] returns on a bundle [a] and a node [c]: [c] is a
    bundle with the members of [a], and their designated tops did not
    disagree; [a] is now an alias of [c], bound to the set objects of [c];
    both have the same designated top, the one either of them had; and the
    external children of [a] have become external children of [c]. *)
Theorem become_pointer_merges s a c s' :
  isCBB s a = true → become_pointer a c s = Ret tt s' →
  (isCBB s c = true ∧ members s c = members s a ∧
   (top s c = None ∨ top s a = None ∨ top s c = top s a)) ∧
  _pointerto s' a = Some c ∧ sets_of s' a = sets_of s' c ∧
  top s' a = top s' c ∧
  top s' c = (match top s c with Some t => Some t | None => top s a end) ∧
  members s' c = members s c ∧
  externalchildren s' c = externalchildren s c ∪ externalchildren s a.
Proof.
  intros Ha. unfold become_pointer. rewrite bind_get, !bind_assert.
  destruct (isCBB s c) eqn:Hc; [|done].
  case_bool_decide as Hm; [|done].
  destruct (_ || _) eqn:Htop; [|done].
  rewrite bind_modify. rewrite bind_get.
  set (s0 := match top s c with
             | Some t => with_topo (up_top <[a:=t]>) s
             | None => with_topo (up_top (λ m, match top s a with
                                               | Some t => <[c:=t]> m
                                               | None => delete c m end)) s
             end).
  assert (static s0 = static s ∧ f_members (topo s0) = f_members (topo s) ∧
          f_sets (topo s0) = f_sets (topo s) ∧
          f_externalchildren (topo s0) = f_externalchildren (topo s) ∧
          f_pointerto (topo s0) = f_pointerto (topo s)) as (Hst0 & Hme0 & Hse0 & Hex0 & Hpt0).
  { unfold s0. by destruct (top s c). }
  assert (top s0 a = top s0 c ∧
          top s0 c = match top s c with Some t => Some t | None => top s a end)
    as [Htop1 Htop2].
  { unfold s0, top. destruct (f_top (topo s) !! c) as [t|] eqn:Etc; simpl.
    - rewrite lookup_insert_eq. destruct (decide (c = a)) as [->|Hne].
      + by rewrite lookup_insert_eq.
      + rewrite lookup_insert_ne by done. by rewrite Etc.
    - destruct (f_top (topo s) !! a) as [t|] eqn:Eta; simpl.
      + rewrite lookup_insert_eq. destruct (decide (c = a)) as [->|Hne]; [congruence|].
        by rewrite lookup_insert_ne.
      + rewrite lookup_delete_eq. destruct (decide (c = a)) as [->|Hne].
        * by rewrite lookup_delete_eq.
        * by rewrite lookup_delete_ne. }
  intros ([] & s1 & (g1 & ->)%setattr_height_Ret & Hr)%bind_Ret_inv.
  rewrite bind_get in Hr.
  apply bind_Ret_inv in Hr as ([] & s2 & (g2 & ->)%setattr_depth_Ret & Hr).
  rewrite bind_get in Hr.
  apply bind_Ret_inv in Hr as ([] & s3 & Hloop & Hr).
  rewrite !bind_modify in Hr. injection Hr as <-.
  apply add_children_external in Hloop as [Hext Hview].
  2: { unfold isCBB, class_of in *. simpl. by rewrite Hst0. }
  injection Hview as Hst Hme Hse Hto Hpt. simpl in Hst, Hme, Hse, Hto, Hpt.
  assert (∀ n, sets_of s3 n = sets_of s n) as Hsets.
  { intros n. unfold sets_of. by rewrite Hse, Hse0. }
  split; [|split; [|split; [|split; [|split; [|split]]]]].
  - split; [done|]. split; [done|].
    apply orb_true_iff in Htop as [Htop|Htop]; [apply orb_true_iff in Htop as [Htop|Htop]|];
      apply bool_decide_eq_true in Htop; auto.
  - unfold _pointerto, isCBB, class_of in *. simpl. rewrite Hst, Hst0, Ha.
    by rewrite lookup_insert_eq.
  - unfold sets_of. simpl. rewrite lookup_insert_eq. simpl.
    destruct (decide (c = a)) as [->|Hne]; [by rewrite lookup_insert_eq|].
    by rewrite lookup_insert_ne.
  - unfold top in *. simpl. by rewrite Hto.
  - unfold top in *. simpl. by rewrite Hto.
  - unfold members, sets_of. simpl.
    assert (default c (<[a:=default c (f_sets (topo s3) !! c)]> (f_sets (topo s3)) !! c)
            = sets_of s c) as ->.
    { destruct (decide (c = a)) as [->|Hne].
      - rewrite lookup_insert_eq. apply Hsets.
      - rewrite lookup_insert_ne by done. apply Hsets. }
    by rewrite Hme, Hme0.
  - unfold externalchildren at 1, sets_of. simpl.
    assert (default c (<[a:=default c (f_sets (topo s3) !! c)]> (f_sets (topo s3)) !! c)
            = sets_of s3 c) as ->.
    { destruct (decide (c = a)) as [->|Hne].
      - by rewrite lookup_insert_eq.
      - by rewrite lookup_insert_ne. }
    fold (externalchildren s3 c). rewrite Hext.
    assert (externalchildren (with_attrs (up_depth g2) (with_attrs (up_height g1) s0)) c
            = externalchildren s c) as ->.
    { unfold externalchildren, sets_of. simpl. by rewrite Hex0, Hse0. }
    assert (externalchildren (with_attrs (up_depth g2) (with_attrs (up_height g1) s0)) a
            = externalchildren s a) as ->.
    { unfold externalchildren, sets_of. simpl. by rewrite Hex0, Hse0. }
    apply set_eq. intros x. rewrite !elem_of_union, elem_of_list_to_set, elem_of_iter. done.
Qed.

(** ** Checking a given graph *)

(** The properties above quantify over all nodes; on a given heap they
    come down to the finitely many nodes that its tables mention. *)

Lemma children_dom s n c :
  c ∈ children s n → n ∈ dom (f_sets (topo s)) ∪ dom (f_children (topo s)).
Proof.
  unfold children, sets_of. intros Hc. apply elem_of_union.
  destruct (f_sets (topo s) !! n) as [o|] eqn:E; [left; by apply elem_of_dom|right].
  simpl in Hc. apply elem_of_dom. rewrite lookup_total_alt in Hc.
  destruct (f_children (topo s) !! n); [done|]. by apply elem_of_empty in Hc.
Qed.

Lemma parents_dom s n p :
  p ∈ parents s n → n ∈ dom (f_sets (topo s)) ∪ dom (f_parents (topo s)).
Proof.
  unfold parents, sets_of. intros Hc. apply elem_of_union.
  destruct (f_sets (topo s) !! n) as [o|] eqn:E; [left; by apply elem_of_dom|right].
  simpl in Hc. apply elem_of_dom. rewrite lookup_total_alt in Hc.
  destruct (f_parents (topo s) !! n); [done|]. by apply elem_of_empty in Hc.
Qed.

Lemma child_edges_check (P : ref → ref → Prop) s :
  set_Forall (λ n, set_Forall (P n) (children s n))
             (dom (f_sets (topo s)) ∪ dom (f_children (topo s))) →
  ∀ n c, c ∈ children s n → P n c.
Proof. intros H n c Hc. by apply (H n (children_dom _ _ _ Hc)). Qed.

Lemma parent_edges_check (P : ref → ref → Prop) s :
  set_Forall (λ n, set_Forall (P n) (parents s n))
             (dom (f_sets (topo s)) ∪ dom (f_parents (topo s))) →
  ∀ n p, p ∈ parents s n → P n p.
Proof. intros H n p Hp. by apply (H n (parents_dom _ _ _ Hp)). Qed.

Lemma acyclic_check fuel s :
  set_Forall (λ n, set_Forall (λ c, reachable fuel s c n = Some false) (children s n))
             (dom (f_sets (topo s)) ∪ dom (f_children (topo s))) →
  acyclic s.
Proof.
  intros H n c Hc. apply (reachable_false fuel).
  exact (child_edges_check (λ n c, reachable fuel s c n = Some false) s H n c Hc).
Qed.

Lemma unmerged_check s :
  f_pointerto (topo s) = ∅ → map_Forall (λ k o, o = k) (f_sets (topo s)) → unmerged s.
Proof.
  intros Hp Hs n. split.
  - unfold _pointerto. rewrite Hp, lookup_empty. by destruct (isCBB s n).
  - unfold sets_of. destruct (f_sets (topo s) !! n) as [o|] eqn:E; [|done].
    by apply Hs in E.
Qed.

Lemma frag_ok_check s :
  map_Forall (λ n f, nodes s f = dom (filter (λ kv, kv.2 = f) (f_frag (frags s))))
             (f_frag (frags s)) →
  frag_ok s.
Proof.
  intros H n [f Hn] m. unfold frag. rewrite Hn. simpl. rewrite (H n f Hn).
  rewrite elem_of_dom. split.
  - intros [g [Hg ?]%map_lookup_filter_Some]. simpl in *. congruence.
  - intros Hm. exists f. by apply map_lookup_filter_Some.
Qed.

(** A set of nodes closed under children holds every node reached from it. *)
Lemma reaches_closed (X : gset ref) s a b :
  set_Forall (λ n, children s n ⊆ X) X → reaches s a b → a ∈ X → b ∈ X.
Proof.
  intros H. induction 1 as [|n c m Hc _ IH]; [done|].
  intros Hn. apply IH. by apply (H n Hn).
Qed.

(** ** Merging the bundles with the same members *)

Lemma become_pointer_shape a c s s' :
  become_pointer a c s = Ret tt s' →
  members s c = members s a ∧ static s' = static s ∧ G_nodes s' = G_nodes s ∧
  f_members (topo s') = f_members (topo s) ∧
  f_sets (topo s') = <[a := sets_of s c]> (f_sets (topo s)) ∧
  f_pointerto (topo s') = <[a := c]> (f_pointerto (topo s)).
Proof.
  unfold become_pointer. rewrite bind_get, !bind_assert.
  destruct (isCBB s c) eqn:Hc; [|done].
  case_bool_decide as Hm; [|done].
  destruct (_ || _); [|done].
  rewrite bind_modify. rewrite bind_get.
  set (s0 := match top s c with
             | Some t => with_topo (up_top <[a:=t]>) s
             | None => with_topo (up_top (λ m, match top s a with
                                               | Some t => <[c:=t]> m
                                               | None => delete c m end)) s
             end).
  assert (graph_view (with_topo (up_top (λ _, f_top (topo s))) s0) =
          graph_view (with_topo (up_top (λ _, f_top (topo s))) s)) as H0.
  { unfold s0. by destruct (top s c). }
  injection H0 as Hst0 Hme0 Hse0 Hpt0 Hg0.
  intros ([] & s1 & (g1 & ->)%setattr_height_Ret & Hr)%bind_Ret_inv.
  rewrite bind_get in Hr.
  apply bind_Ret_inv in Hr as ([] & s2 & (g2 & ->)%setattr_depth_Ret & Hr).
  rewrite bind_get in Hr.
  apply bind_Ret_inv in Hr as ([] & s3 & Hloop & Hr).
  rewrite !bind_modify in Hr. injection Hr as <-.
  assert (merge_view s3 = merge_view s0 ∧ G_nodes s3 = G_nodes s0) as [Hv Hg].
  { frame_of G_nodes Hloop. split; [|done].
    apply add_children_external in Hloop as [_ Hv]; [done|].
    unfold isCBB, class_of in *. simpl. by rewrite Hst0. }
  injection Hv as Hst Hme Hse Hto Hpt. simpl in *.
  split; [done|]. split; [congruence|]. split; [congruence|]. split; [congruence|].
  split; [|congruence].
  unfold sets_of. rewrite Hse, Hse0. done.
Qed.

Lemma members_after_merge a c s s' n :
  become_pointer a c s = Ret tt s' → members s' n = members s n.
Proof.
  intros (Hm & _ & _ & Hme & Hse & _)%become_pointer_shape.
  unfold members at 1, sets_of at 1. rewrite Hme, Hse.
  destruct (decide (n = a)) as [->|Hne].
  - rewrite lookup_insert_eq. simpl. fold (members s c). done.
  - rewrite lookup_insert_ne by done. done.
Qed.

Lemma pointerto_after_merge a c s s' n :
  become_pointer a c s = Ret tt s' →
  _pointerto s' n = if decide (n = a) then (if isCBB s a then Some c else None)
                    else _pointerto s n.
Proof.
  intros (_ & Hst & _ & _ & _ & Hpt)%become_pointer_shape.
  unfold _pointerto, isCBB, class_of. rewrite Hst, Hpt.
  destruct (decide (n = a)) as [->|Hne].
  - by rewrite lookup_insert_eq.
  - by rewrite lookup_insert_ne.
Qed.

Lemma merge_match_Ret ci ch cbbnodes s r s' :
  merge_match ci ch cbbnodes s = Ret r s' →
  match r with
  | inr cbbnodes' => merged_into ci ch cbbnodes cbbnodes' s s'
  | inl _ => True
  end.
Proof.
  unfold merge_match. intros ([] & s1 & Hbp & Hrest)%bind_Ret_inv.
  destruct (decide (ci ∈ cbbnodes)) as [Hin|]; [|by injection Hrest as <- <-].
  rewrite bind_get in Hrest.
  destruct (decide (ci ∈ G_nodes s1)) as [Hin'|]; [|by injection Hrest as <- <-].
  rewrite bind_modify in Hrest. injection Hrest as <- <-.
  pose proof (become_pointer_shape _ _ _ _ Hbp) as (_ & Hst & Hg & _).
  split; [exact Hst|]. split; [intros n; exact (members_after_merge _ _ _ _ n Hbp)|].
  split; [intros n; exact (pointerto_after_merge _ _ _ _ n Hbp)|].
  simpl. rewrite <- Hg. done.
Qed.

Lemma merge_scan_Ret settled ci cbbnodes s r s' :
  merge_scan settled ci cbbnodes s = Ret r s' →
  match r with
  | inr (true, cbbnodes') =>
      ∃ h, Some h ∈ settled ∧ members s h = members s ci ∧
           merged_into ci h cbbnodes cbbnodes' s s'
  | inr (false, cbbnodes') =>
      s' = s ∧ cbbnodes' = cbbnodes ∧ ∀ h, Some h ∈ settled → members s h ≠ members s ci
  | inl _ => True
  end.
Proof.
  induction settled as [|ch settled IH]; cbn [merge_scan].
  - intros [= <- <-]. split; [done|]. split; [done|]. by intros ? ?%elem_of_nil.
  - assert (merge_scan settled ci cbbnodes s = Ret r s' →
            (∀ h, ch = Some h → members s h ≠ members s ci) →
            match r with
            | inr (true, cbbnodes') =>
                ∃ h, Some h ∈ ch :: settled ∧ members s h = members s ci ∧
                     merged_into ci h cbbnodes cbbnodes' s s'
            | inr (false, cbbnodes') =>
                s' = s ∧ cbbnodes' = cbbnodes ∧
                ∀ h, Some h ∈ ch :: settled → members s h ≠ members s ci
            | inl _ => True
            end) as Hskip.
    { intros Hr%IH Hch. destruct r as [|[[] c']]; [done|..].
      - destruct Hr as (h & ? & ?). exists h. split; [by right|done].
      - destruct Hr as (-> & -> & Hall). split; [done|]. split; [done|].
        intros h [Heq|?]%elem_of_cons; [by apply Hch|by apply Hall]. }
    destruct ch as [h|]; [|intros Hr; by apply Hskip].
    rewrite bind_get. case_decide as Hm; [|intros Hr; apply Hskip; [done|congruence]].
    intros (r0 & s1 & Hmatch%merge_match_Ret & [= <- <-])%bind_Ret_inv.
    destruct r0 as [|c']; [done|]. exists h. split; [left|done].
Qed.

Lemma merge_loop_Ret settled todo cbbnodes s cbbs' cbbnodes' s' :
  NoDup todo →
  (∀ b, b ∈ todo → isCBB s b = true ∧ _pointerto s b = None ∧ (Some b ∉ settled)) →
  settled_ok settled s →
  merge_loop settled todo cbbnodes s = Ret (inr (cbbs', cbbnodes')) s' →
  static s' = static s ∧ (∀ n, members s' n = members s n) ∧
  G_nodes s' ⊆ G_nodes s ∧ cbbnodes' ⊆ cbbnodes ∧
  (∀ n, n ∉ todo → _pointerto s' n = _pointerto s n) ∧
  (∀ b, Some b ∈ cbbs' → Some b ∈ settled ∨ b ∈ todo) ∧
  settled_ok cbbs' s' ∧
  (∀ b, Some b ∈ settled → Some b ∈ cbbs') ∧
  (∀ b, b ∈ todo →
        Some b ∈ cbbs' ∨
        ∃ c, Some c ∈ cbbs' ∧ _pointerto s' b = Some c ∧ members s c = members s b ∧
             (b ∉ G_nodes s') ∧ (b ∉ cbbnodes')).
Proof.
  revert settled cbbnodes s. induction todo as [|ci todo IH];
    intros settled cbbnodes s Hnd Htodo Hok; cbn [merge_loop].
  - intros [= <- <- <-]. repeat split; try done; try apply Hok; auto.
    by intros ? ?%elem_of_nil.
  - apply NoDup_cons in Hnd as [Hci Hnd].
    destruct (Htodo ci) as (Hcbb & Hptr & Hnew); [left|].
    intros (r & s1 & Hscan%merge_scan_Ret & Hrest)%bind_Ret_inv.
    destruct r as [e|[merged c1]]; [by injection Hrest|].
    set (settled1 := settled ++ [if merged then None else Some ci]) in *.
    assert (static s1 = static s ∧ (∀ n, members s1 n = members s n) ∧
            G_nodes s1 ⊆ G_nodes s ∧ c1 ⊆ cbbnodes ∧
            (∀ n, n ≠ ci → _pointerto s1 n = _pointerto s n) ∧
            settled_ok settled1 s1 ∧
            (Some ci ∈ settled1 ∨
             ∃ c, Some c ∈ settled1 ∧ _pointerto s1 ci = Some c ∧
                  members s c = members s ci ∧ (ci ∉ G_nodes s1) ∧ (ci ∉ c1)))
      as (Hst1 & Hmem1 & Hg1 & Hc1 & Hptr1 & Hok1 & Hci1).
    { destruct Hok as [Hok1 Hok2]. subst settled1. destruct merged.
      - destruct Hscan as (h & Hh & Hm & Hst & Hmem & Hp & Hin & Hg & Hin' & ->).
        split; [done|]. split; [done|]. split; [set_solver|]. split; [set_solver|].
        split; [intros n Hn; by rewrite Hp, decide_False|]. split; [split|].
        + intros b [Hb|[=]%list_elem_of_singleton]%elem_of_app.
          rewrite Hp, decide_False; [by apply Hok1|]. by intros ->.
        + intros b c [Hb|[=]%list_elem_of_singleton]%elem_of_app
                     [Hc|[=]%list_elem_of_singleton]%elem_of_app.
          rewrite !Hmem. by apply Hok2.
        + right. exists h. split; [apply elem_of_app; by left|].
          split; [by rewrite Hp, decide_True, Hcbb|]. split; [done|]. set_solver.
      - destruct Hscan as (-> & -> & Hdiff). repeat split; try done.
        + intros b [Hb|[= ->]%list_elem_of_singleton]%elem_of_app; [by apply Hok1|done].
        + intros b c [Hb|[= ->]%list_elem_of_singleton]%elem_of_app
                     [Hc|[= ->]%list_elem_of_singleton]%elem_of_app; try done.
          * by apply Hok2.
          * intros E. by destruct (Hdiff b Hb).
          * intros E. by destruct (Hdiff c Hc).
        + left. apply elem_of_app. right. by apply list_elem_of_singleton. }
    apply IH in Hrest as (Hst & Hmem & Hg & Hc & Hptr' & Hfrom & Hok' & Hkeep & Hall);
      [|done| |done].
    2: { intros b Hb. destruct (Htodo b) as (? & ? & ?); [by right|].
         assert (b ≠ ci) by (by intros ->).
         split; [unfold isCBB, class_of in *; by rewrite Hst1|].
         split; [by rewrite Hptr1|].
         intros [?|Hx%list_elem_of_singleton]%elem_of_app; [done|].
         destruct merged; congruence. }
    split; [congruence|]. split; [intros n; by rewrite Hmem|].
    split; [set_solver|]. split; [set_solver|]. split; [|split; [|split; [done|split]]].
    + intros n Hn. rewrite Hptr' by (intros ?; apply Hn; by right).
      apply Hptr1. intros ->. apply Hn. left.
    + intros b [[Hb|Hb%list_elem_of_singleton]%elem_of_app|Hb]%Hfrom.
      * by left.
      * right. destruct merged; [done|]. injection Hb as ->. left.
      * right. by right.
    + intros b Hb. apply Hkeep. apply elem_of_app. by left.
    + intros b [->|Hb]%elem_of_cons.
      * destruct Hci1 as [Hs|(c & Hc' & Hp & Hm & Hng & Hnc)]; [left; by apply Hkeep|].
        right. exists c. split; [by apply Hkeep|]. split; [by rewrite Hptr'|].
        split; [done|]. set_solver.
      * destruct (Hall b Hb) as [?|(c & ? & ? & Hm & ? & ?)]; [by left|].
        right. exists c. rewrite !Hmem1 in Hm. done.
Qed.

Lemma insert_by_name_perm s x l : insert_by_name s x l ≡ₚ x :: l.
Proof.
  induction l as [|y l IH]; simpl; [done|].
  destruct (String.ltb _ _); [|done]. rewrite IH. apply Permutation_swap.
Qed.

Lemma sorted_by_name_perm s l : sorted_by_name s l ≡ₚ l.
Proof.
  induction l as [|x l IH]; simpl; [done|]. by rewrite insert_by_name_perm, IH.
Qed.

Lemma merge_cbbs_Ret cbbnodes s cbbnodes' s' :
  bundles_unmerged cbbnodes s →
  merge_cbbs cbbnodes s = Ret (inr cbbnodes') s' →
  static s' = static s ∧ (∀ n, members s' n = members s n) ∧
  G_nodes s' ⊆ G_nodes s ∧ cbbnodes' ⊆ cbbnodes ∧
  (∀ n, n ∉ cbbnodes → _pointerto s' n = _pointerto s n) ∧
  ∃ cbbs', settled_ok cbbs' s' ∧ (∀ b, Some b ∈ cbbs' → b ∈ cbbnodes) ∧
    ∀ b, b ∈ cbbnodes →
      Some b ∈ cbbs' ∨
      ∃ c, Some c ∈ cbbs' ∧ _pointerto s' b = Some c ∧ members s c = members s b ∧
           (b ∉ G_nodes s') ∧ (b ∉ cbbnodes').
Proof.
  intros Hun. unfold merge_cbbs. rewrite bind_get.
  intros (r & s1 & Hloop & Hr)%bind_Ret_inv.
  destruct r as [e|[cbbs' c']]; [by injection Hr|]. injection Hr as <- <-.
  assert (∀ b, b ∈ sorted_by_name s (iter cbbnodes) ↔ b ∈ cbbnodes) as Hin.
  { intros b. by rewrite sorted_by_name_perm, elem_of_iter. }
  apply merge_loop_Ret in Hloop as (Hst & Hmem & Hg & Hc & Hptr & Hfrom & Hok & _ & Hall).
  - split; [done|]. split; [done|]. split; [done|]. split; [done|].
    split; [intros n Hn; apply Hptr; by rewrite Hin|].
    exists cbbs'. split; [done|]. split.
    + intros b [Hb%elem_of_nil|Hb]%Hfrom; [done|by apply Hin].
    + intros b Hb. apply Hall. by apply Hin.
  - rewrite sorted_by_name_perm. apply NoDup_iter.
  - intros b Hb%Hin. destruct (Hun b Hb). split; [done|]. split; [done|].
    by intros ?%elem_of_nil.
  - split; [by intros ? ?%elem_of_nil|by intros ? ? ?%elem_of_nil].
Qed.

(** When the merging loop of the constructor returns, no node left among the
    graph's nodes is an alias; the loop adds no node and changes the members
    of none. *)
Theorem merge_cbbs_canonical cbbnodes s cbbnodes' s' :
  canonical_nodes s → bundles_unmerged cbbnodes s →
  merge_cbbs cbbnodes s = Ret (inr cbbnodes') s' →
  canonical_nodes s' ∧ G_nodes s' ⊆ G_nodes s ∧ ∀ n, members s' n = members s n.
Proof.
  intros Hcan Hun (Hst & Hmem & Hg & _ & Hptr & cbbs' & [Hok _] & _ & Hall)%merge_cbbs_Ret;
    [|done].
  split; [|done]. intros n Hn.
  destruct (decide (n ∈ cbbnodes)) as [Hb|Hb].
  - destruct (Hall n Hb) as [Hs|(c & _ & _ & _ & Hout & _)]; [by apply Hok|done].
  - rewrite Hptr by done. apply Hcan. by apply Hg.
Qed.

(** When it returns, the bundles that are still no aliases have pairwise
    different members, and every bundle that has become an alias has left
    the graph and points at one of those, with the same members. *)
Theorem merge_cbbs_merged cbbnodes s cbbnodes' s' :
  bundles_unmerged cbbnodes s →
  merge_cbbs cbbnodes s = Ret (inr cbbnodes') s' →
  (∀ b c, b ∈ cbbnodes → c ∈ cbbnodes →
          _pointerto s' b = None → _pointerto s' c = None →
          members s' b = members s' c → b = c) ∧
  (∀ b c, b ∈ cbbnodes → _pointerto s' b = Some c →
          c ∈ cbbnodes ∧ _pointerto s' c = None ∧ members s' c = members s' b ∧
          (b ∉ G_nodes s') ∧ (b ∉ cbbnodes')).
Proof.
  intros Hun (Hst & Hmem & Hg & _ & Hptr & cbbs' & [Hok1 Hok2] & Hfrom & Hall)%merge_cbbs_Ret;
    [|done].
  split.
  - intros b c Hb Hc Hpb Hpc Hm.
    destruct (Hall b Hb) as [Hsb|(? & _ & ? & _)]; [|congruence].
    destruct (Hall c Hc) as [Hsc|(? & _ & ? & _)]; [|congruence].
    by apply Hok2.
  - intros b c Hb Hp.
    destruct (Hall b Hb) as [Hsb|(c' & Hc' & Hp' & Hm & Hng & Hnc)].
    { apply Hok1 in Hsb. congruence. }
    assert (c' = c) as -> by congruence.
    split; [by apply Hfrom|]. split; [by apply Hok1|]. by rewrite !Hmem.
Qed.

(** ** [FixedDict] *)

(** A run of assignments to a [FixedDict] goes through exactly when the keys
    are new and pairwise different; the dictionary then holds what it held
    and what was assigned, and nothing else. *)
Theorem FixedDict_assign_spec `{Countable K} {V} (l : list (K * V)) (d : gmap K V) :
  (is_Some (FixedDict_assign l d) ↔ NoDup l.*1 ∧ ∀ k, k ∈ l.*1 → d !! k = None) ∧
  ∀ d', FixedDict_assign l d = Some d' →
        (∀ k v, d !! k = Some v → d' !! k = Some v) ∧
        (∀ k v, (k, v) ∈ l → d' !! k = Some v) ∧
        (∀ k, is_Some (d' !! k) → is_Some (d !! k) ∨ k ∈ l.*1).
Proof.
  revert d. induction l as [|[k v] l IH]; intros d; simpl.
  - split.
    + split; [intros _; split; [constructor|by intros ? ?%elem_of_nil]|by eexists].
    + intros d' [= <-]. split; [done|]. split; [by intros ? ? ?%elem_of_nil|by left].
  - unfold FixedDict_setitem. destruct (decide (is_Some (d !! k))) as [Hk|Hk]; simpl.
    + split; [|done]. split; [by intros [? [=]]|].
      intros [_ Hfree]. rewrite Hfree in Hk by left. by destruct Hk.
    + apply eq_None_not_Some in Hk. destruct (IH (<[k:=v]> d)) as [Hiff Hres].
      split.
      * rewrite Hiff, NoDup_cons. split.
        -- intros [Hnd Hfree]. split; [split; [|done]|].
           ++ intros Hin. specialize (Hfree k Hin). by rewrite lookup_insert_eq in Hfree.
           ++ intros k' [->|Hk']%elem_of_cons; [done|].
              specialize (Hfree k' Hk'). destruct (decide (k' = k)) as [->|]; [done|].
              by rewrite lookup_insert_ne in Hfree.
        -- intros [[Hnk Hnd] Hfree]. split; [done|]. intros k' Hk'.
           rewrite lookup_insert_ne; [apply Hfree; by right|]. by intros ->.
      * intros d' Hd'. destruct (Hres d' Hd') as (Hold & Hnew & Honly).
        split; [|split].
        -- intros k' v' Hk'. apply Hold. rewrite lookup_insert_ne; [done|]. congruence.
        -- intros k' v' [[= -> ->]|Hin]%elem_of_cons; [|by apply Hnew].
           apply Hold. by rewrite lookup_insert_eq.
        -- intros k' Hk'. destruct (Honly k' Hk') as [Hd|Hl]; [|right; by right].
           destruct (decide (k' = k)) as [->|Hne]; [right; left|left].
           by rewrite lookup_insert_ne in Hd.
Qed.

(** ** Paths *)

Lemma traverse_S k s node path listPaths :
  traverse (S k) s node path listPaths =
  if isCBB s node then
    cbbName ← collect_cbb_members k s node;
    traverse_members (traverse k s) (iter (members s node))
                     (listPaths ++ [path ++ [cbbName]])
  else
    match iter (childedges s node) with
    | [] => Some (listPaths ++ [path ++ [name s node]])
    | [(childNode, _)] => traverse k s childNode (path ++ [name s node]) listPaths
    | es => traverse_edges (traverse k s) (name s node) es
                           (listPaths ++ [path ++ [name s node]])
    end.
Proof. reflexivity. Qed.

Lemma traverse_members_emits f s cs L L' :
  (∀ c path L L', f c path L = Some L' → emits s c path L L') →
  traverse_members f cs L = Some L' →
  ∃ new, L' = L ++ new ∧
    ∀ c m, c ∈ cs → below s c m → ∃ lab p, path_label s m lab ∧ p ∈ new ∧ lab ∈ p.
Proof.
  intros Hf. revert L. induction cs as [|c cs IH]; intros L; simpl.
  - intros [= <-]. exists []. split; [by rewrite app_nil_r|]. by intros ? ? ?%elem_of_nil.
  - destruct (f c [] L) as [L1|] eqn:E; [|done]. simpl.
    intros (new & -> & Hnew)%IH.
    apply Hf in E as (suffix & rest & -> & _ & Hcov).
    exists ((suffix :: rest) ++ new). split; [by rewrite <- app_assoc|].
    intros x m [->|Hx]%elem_of_cons Hm.
    + destruct (Hcov m Hm) as (lab & Hlab & [Hin|(p & Hp & Hin)]).
      * exists lab, suffix. split; [done|]. split; [|done]. apply elem_of_app. left. left.
      * exists lab, p. split; [done|]. split; [|done]. apply elem_of_app. left. by right.
    + destruct (Hnew x m Hx Hm) as (lab & p & ? & ? & ?).
      exists lab, p. split; [done|]. split; [|done]. apply elem_of_app. by right.
Qed.

Lemma traverse_edges_emits f s nm es L L' :
  (∀ c path L L', f c path L = Some L' → emits s c path L L') →
  traverse_edges f nm es L = Some L' →
  ∃ new, L' = L ++ new ∧
    ∀ c e m, (c, e) ∈ es → below s c m → ∃ lab p, path_label s m lab ∧ p ∈ new ∧ lab ∈ p.
Proof.
  intros Hf. revert L. induction es as [|[c e] es IH]; intros L; simpl.
  - intros [= <-]. exists []. split; [by rewrite app_nil_r|]. by intros ? ? ? ?%elem_of_nil.
  - destruct (f c [nm] L) as [L1|] eqn:E; [|done]. simpl.
    intros (new & -> & Hnew)%IH.
    apply Hf in E as (suffix & rest & -> & _ & Hcov).
    exists ((([nm] ++ suffix) :: rest) ++ new). split; [by rewrite <- app_assoc|].
    intros x e' m [[= -> ->]|Hx]%elem_of_cons Hm.
    + destruct (Hcov m Hm) as (lab & Hlab & [Hin|(p & Hp & Hin)]).
      * exists lab, ([nm] ++ suffix). split; [done|]. split.
        -- apply elem_of_app. left. left.
        -- apply elem_of_app. by right.
      * exists lab, p. split; [done|]. split; [|done]. apply elem_of_app. left. by right.
    + destruct (Hnew x e' m Hx Hm) as (lab & p & ? & ? & ?).
      exists lab, p. split; [done|]. split; [|done]. apply elem_of_app. by right.
Qed.

Lemma traverse_emits fuel s n path L L' :
  traverse fuel s n path L = Some L' → emits s n path L L'.
Proof.
  revert n path L L'. induction fuel as [|k IH]; intros n path L L'; [done|].
  rewrite traverse_S. destruct (isCBB s n) eqn:Hn.
  - destruct (collect_cbb_members k s n) as [cbbName|] eqn:Hname; [|done]. simpl.
    intros (new & -> & Hnew)%(traverse_members_emits _ s); [|exact IH].
    exists [cbbName], new. split; [by rewrite <- app_assoc|]. split; [done|].
    intros m Hm. inversion Hm as [|? c ? _ Hc Hcm|? c e ? Hf]; subst.
    + exists cbbName. split; [|left; left].
      unfold path_label. rewrite Hn. by exists k.
    + destruct (Hnew c m) as (lab & p & ? & ? & ?); [by apply elem_of_iter|done|].
      exists lab. split; [done|]. right. by exists p.
    + congruence.
  - assert (∀ m, below s n m →
                 m = n ∨ ∃ c e, (c, e) ∈ iter (childedges s n) ∧ below s c m) as Hcases.
    { intros m Hm. inversion Hm as [|? c ? Hf|? c e ? _ Hc Hcm]; subst.
      - by left.
      - congruence.
      - right. exists c, e. split; [by apply elem_of_iter|done]. }
    assert (path_label s n (name s n)) as Hself by (unfold path_label; by rewrite Hn).
    destruct (iter (childedges s n)) as [|[c e] [|e2 es]] eqn:Hes.
    + intros [= <-]. exists [name s n], []. split; [done|]. split; [done|].
      intros m [->|(? & ? & ?%elem_of_nil & _)]%Hcases; [|done].
      exists (name s n). split; [done|]. left. left.
    + intros (suffix & rest & -> & _ & Hcov)%IH.
      exists ([name s n] ++ suffix), rest. split; [by rewrite <- app_assoc|]. split; [done|].
      intros m [->|(c' & e' & Hin%list_elem_of_singleton & Hm)]%Hcases.
      * exists (name s n). split; [done|]. left. left.
      * injection Hin as -> ->. destruct (Hcov m Hm) as (lab & ? & [?|?]).
        -- exists lab. split; [done|]. left. apply elem_of_app. by right.
        -- exists lab. split; [done|]. by right.
    + intros (new & -> & Hnew)%(traverse_edges_emits _ s); [|exact IH].
      exists [name s n], new. split; [by rewrite <- app_assoc|]. split; [done|].
      intros m [->|(c' & e' & Hin & Hm)]%Hcases.
      * exists (name s n). split; [done|]. left. left.
      * destruct (Hnew c' e' m Hin Hm) as (lab & p & ? & ? & ?).
        exists lab. split; [done|]. right. by exists p.
Qed.

(** [traverse] keeps the paths collected so far and adds at least one;
    every node below the start (through members of bundles and children of
    other nodes) is mentioned on one of the added paths, a bundle by the
    string [collect_cbb_members] makes of it. *)
Theorem traverse_covers fuel s n path L L' :
  traverse fuel s n path L = Some L' →
  ∃ new, L' = L ++ new ∧ new ≠ [] ∧
    ∀ m, below s n m → ∃ lab p, path_label s m lab ∧ p ∈ new ∧ lab ∈ p.
Proof.
  intros (suffix & rest & -> & _ & Hcov)%traverse_emits.
  exists ((path ++ suffix) :: rest). split; [done|]. split; [done|].
  intros m Hm. destruct (Hcov m Hm) as (lab & Hlab & [Hin|(p & Hp & Hin)]).
  - exists lab, (path ++ suffix). split; [done|]. split; [left|].
    apply elem_of_app. by right.
  - exists lab, p. split; [done|]. split; [by right|done].
Qed.

(** ** What the passes ask of the graph *)

Lemma for_each_all {A} (I : State → Prop) (P : A → Prop) (l : list A) body s s' :
  (∀ x s s', I s → body x s = Ret tt s' → I s' ∧ P x) →
  I s → for_each l body s = Ret tt s' → ∀ x, x ∈ l → P x.
Proof.
  intros Hb. revert s. induction l as [|y l IH]; intros s HI; cbn [for_each].
  - by intros _ ? ?%elem_of_nil.
  - intros ([] & s1 & H1 & H2)%bind_Ret_inv x [->|Hx]%elem_of_cons.
    + by destruct (Hb _ _ _ HI H1).
    + destruct (Hb _ _ _ HI H1) as [HI1 _]. by eapply IH.
Qed.

Lemma preserves_upward_node {V} (view : State → V) n :
  (∀ s g, view (with_attrs (up_topcandidates g) s) = view s) →
  preserves (frame_by view) (upward_node n).
Proof.
  intros H. unfold upward_node.
  repeat first [ apply preserves_upward_edges; exact H
               | apply preserves_setattr_topcandidates; exact H | frame_step ].
Qed.

Lemma preserves_downward_node {V} (view : State → V) n :
  (∀ s g, view (with_attrs (up_parentcandidates g) s) = view s) →
  preserves (frame_by view) (downward_node n).
Proof.
  intros H. unfold downward_node, downward_edge, iand_parentcandidates, member_cands.
  repeat first [ apply preserves_setattr_parentcandidates; exact H | frame_step ].
Qed.

(** Either pass returns only on a graph without coordination nodes, and the
    upward pass only when no bundle has two child edges labelled [top]. *)
Theorem passes_need_simplified s :
  (∀ s', upward s = Ret tt s' →
     ∀ n, n ∈ G_nodes s →
          isCoord s n = false ∧
          (isCBB s n = true →
           ∀ c c', (c, Some "top") ∈ childedges s n → (c', Some "top") ∈ childedges s n →
                   c = c')) ∧
  (∀ s', downward s = Ret tt s' → ∀ n, n ∈ G_nodes s → isCoord s n = false).
Proof.
  split.
  - intros s' Hrun n Hn. unfold upward in Hrun. rewrite bind_get in Hrun.
    apply (for_each_all (λ t, structure_view t = structure_view s)
             (λ n, isCoord s n = false ∧
                   (isCBB s n = true →
                    ∀ c c', (c, Some "top") ∈ childedges s n →
                            (c', Some "top") ∈ childedges s n → c = c')))
      with (x := n) in Hrun; [done| |done|by apply sorted_nodes].
    clear. intros x t t' Ht Hx. split.
    { pose proof (preserves_upward_node structure_view x (λ _ _, eq_refl) t) as H.
      unfold frame_by in H. rewrite Hx in H. simpl in H. congruence. }
    injection Ht as Hst Hto. revert Hx. unfold upward_node.
    rewrite bind_get, bind_assert.
    assert (isCoord t x = isCoord s x) as -> by (unfold isCoord, class_of; by rewrite Hst).
    assert (isCBB t x = isCBB s x) as -> by (unfold isCBB, class_of; by rewrite Hst).
    destruct (isCoord s x); [done|]. cbn [negb]. intros Hx. split; [done|].
    intros Hb. rewrite Hb in Hx.
    apply bind_Ret_inv in Hx as ([] & t1 & Hset & Hx).
    frame_of structure_view Hset. injection Hframe as Hst1 Hto1.
    rewrite bind_get, bind_assert in Hx. case_bool_decide as Hle; [|done].
    assert (childedges t1 x = childedges s x) as E.
    { unfold childedges, sets_of. by rewrite Hto1, Hto. }
    rewrite E in Hle. clear -Hle. intros c c' Hc Hc'.
    assert (∀ y : ref, (y, Some "top") ∈ childedges s x →
              (y, Some "top") ∈ filter (λ ce : ref * label, ce.2 = Some "top")
                                       (iter (childedges s x))) as Hin.
    { intros y Hy. apply list_elem_of_filter. split; [done|by apply elem_of_iter]. }
    apply Hin in Hc, Hc'. revert Hle Hc Hc'.
    generalize (filter (λ ce : ref * label, ce.2 = Some "top") (iter (childedges s x))).
    intros [|a [|b l]]; simpl.
    + by intros _ ?%elem_of_nil.
    + intros _ ?%list_elem_of_singleton ?%list_elem_of_singleton. congruence.
    + lia.
  - intros s' Hrun n Hn. unfold downward in Hrun. rewrite bind_get in Hrun.
    apply (for_each_all (λ t, structure_view t = structure_view s)
             (λ n, isCoord s n = false)) with (x := n) in Hrun;
      [done| |done|by apply sorted_nodes].
    clear. intros x t t' Ht Hx. split.
    { pose proof (preserves_downward_node structure_view x (λ _ _, eq_refl) t) as H.
      unfold frame_by in H. rewrite Hx in H. simpl in H. congruence. }
    injection Ht as Hst Hto. revert Hx. unfold downward_node.
    rewrite bind_get, bind_assert.
    assert (isCoord t x = isCoord s x) as -> by (unfold isCoord, class_of; by rewrite Hst).
    by destruct (isCoord s x).
Qed.

(** ** The child edges of a merged bundle *)

Lemma FUDGNode_add_child_edges s self node lbl s' :
  FUDGNode_add_child self node lbl s = Ret tt s' →
  (∀ n, sets_of s' n = sets_of s n) ∧
  (∀ n, children s' n = if decide (sets_of s n = sets_of s self)
                        then children s n ∪ {[node]} else children s n) ∧
  (∀ n, childedges s' n = if decide (sets_of s n = sets_of s self)
                          then childedges s n ∪ {[(node, lbl)]} else childedges s n).
Proof.
  intros (_ & _ & Htopo)%FUDGNode_add_child_topo. split; [|split].
  - intros n. unfold sets_of. by rewrite Htopo.
  - intros n. unfold children at 1, sets_of at 1. rewrite Htopo.
    apply (children_forward_half self node lbl s n).
  - intros n. unfold childedges at 1, sets_of at 1. rewrite Htopo. simpl.
    fold (sets_of s n). case_decide as E.
    + unfold childedges. rewrite E. by rewrite lookup_total_insert_eq.
    + by rewrite lookup_total_insert_ne.
Qed.

Lemma add_children_edges c l t t' :
  isCBB t c = true → for_each l (λ x, add_child c x None) t = Ret tt t' →
  sets_of t' c = sets_of t c ∧
  children t' c = children t c ∪ list_to_set l ∧
  childedges t' c = childedges t c ∪ list_to_set ((λ x, (x, None)) <$> l).
Proof.
  revert t. induction l as [|x l IH]; intros t Hc; cbn [for_each].
  - intros [= <-]. split; [done|]. split; set_solver.
  - intros ([] & t1 & H1 & Hrest)%bind_Ret_inv.
    assert (isCBB t1 c = true) as Hc1.
    { pose proof (add_child_external _ _ _ _ Hc H1) as [_ Hv].
      by rewrite (isCBB_merge_view _ _ _ Hv). }
    unfold add_child in H1. rewrite bind_get, Hc in H1. unfold CBBNode_add_child in H1.
    rewrite bind_modify in H1.
    apply FUDGNode_add_child_edges in H1 as (Hs & Hch & Hce).
    apply IH in Hrest as (Hs' & Hch' & Hce'); [|done].
    specialize (Hs c). specialize (Hch c). specialize (Hce c).
    rewrite decide_True in Hch by done. rewrite decide_True in Hce by done.
    split; [by rewrite Hs', Hs|]. split.
    + rewrite Hch', Hch. set_solver.
    + rewrite Hce', Hce. rewrite fmap_cons. set_solver.
Qed.

(** When [become_pointer] returns, the child edges that the alias and the
    bundle it points at now share are those of the latter, with an
    unlabelled edge to each external child of the former: no [top] or
    [unspec] edge of the alias is carried over. *)
Theorem become_pointer_childedges s a c s' :
  become_pointer a c s = Ret tt s' →
  childedges s' a = childedges s' c ∧
  (∀ x e, (x, e) ∈ childedges s' c ↔
          (x, e) ∈ childedges s c ∨ (e = None ∧ x ∈ externalchildren s a)) ∧
  children s' c = children s c ∪ externalchildren s a.
Proof.
  unfold become_pointer. rewrite bind_get, !bind_assert.
  destruct (isCBB s c) eqn:Hc; [|done].
  case_bool_decide as Hm; [|done].
  destruct (_ || _); [|done].
  rewrite bind_modify. rewrite bind_get.
  set (s0 := match top s c with
             | Some t => with_topo (up_top <[a:=t]>) s
             | None => with_topo (up_top (λ m, match top s a with
                                               | Some t => <[c:=t]> m
                                               | None => delete c m end)) s
             end).
  assert (static s0 = static s ∧
          up_top (λ _, f_top (topo s)) (topo s0) = up_top (λ _, f_top (topo s)) (topo s))
    as [Hst0 Hto0].
  { unfold s0. by destruct (top s c). }
  injection Hto0 as Hch0 Hce0 _ _ _ Hex0 Hse0 _.
  intros ([] & s1 & (g1 & ->)%setattr_height_Ret & Hr)%bind_Ret_inv.
  rewrite bind_get in Hr.
  apply bind_Ret_inv in Hr as ([] & s2 & (g2 & ->)%setattr_depth_Ret & Hr).
  rewrite bind_get in Hr.
  apply bind_Ret_inv in Hr as ([] & s3 & Hloop & Hr).
  rewrite !bind_modify in Hr. injection Hr as <-.
  apply add_children_edges in Hloop as (Hs & Hch & Hce).
  2: { unfold isCBB, class_of in *. simpl. by rewrite Hst0. }
  set (s2 := with_attrs (up_depth g2) (with_attrs (up_height g1) s0)) in *.
  assert (sets_of s2 c = sets_of s c) as Hs2 by (unfold sets_of; simpl; by rewrite Hse0).
  assert (children s2 c = children s c) as Hch2.
  { unfold children, sets_of. simpl. by rewrite Hch0, Hse0. }
  assert (childedges s2 c = childedges s c) as Hce2.
  { unfold childedges, sets_of. simpl. by rewrite Hce0, Hse0. }
  assert (externalchildren s2 a = externalchildren s a) as Hex2.
  { unfold externalchildren, sets_of. simpl. by rewrite Hex0, Hse0. }
  rewrite Hex2, Hch2 in Hch. rewrite Hex2, Hce2 in Hce.
  set (s' := with_topo _ _).
  assert (sets_of s' a = sets_of s3 c ∧ sets_of s' c = sets_of s3 c) as [Ha' Hc'].
  { unfold s', sets_of. simpl. rewrite lookup_insert_eq. split; [done|].
    destruct (decide (c = a)) as [->|Hne]; [by rewrite lookup_insert_eq|].
    by rewrite lookup_insert_ne. }
  assert (childedges s' a = childedges s3 c ∧ childedges s' c = childedges s3 c ∧
          children s' c = children s3 c) as (Ea & Ec & Ech).
  { unfold childedges, children. rewrite Ha', Hc'. done. }
  rewrite Ea, Ec, Ech, Hce, Hch. split; [done|]. split.
  - intros x e. rewrite elem_of_union, elem_of_list_to_set, list_elem_of_fmap.
    split; (intros [?|H]; [by left|right]).
    + destruct H as (y & [= -> ->] & Hy%elem_of_iter). done.
    + destruct H as [-> Hx]. exists x. split; [done|by apply elem_of_iter].
  - apply set_eq. intros x. by rewrite !elem_of_union, elem_of_list_to_set, elem_of_iter.
Qed.

End Theory.

(** * The scenarios

    The theorems above at the graphs of the examples, and the runs on which
    the program does something else than one would expect of it. *)
Section Scenarios.

#[local] Existing Instance example_runtime.

Ltac by_computation := vm_compute; first [reflexivity | exact I | discriminate].
Ltac decide_it := apply (bool_decide_unpack _); vm_compute; exact I.

(** The graph of [state_ab] has the edge W(a) -> W(b); adding W(a) as a
    child of W(b) closes a cycle. *)
Lemma add_child_cycle_witness :
  name state_ab 2 ≠ name state_ab 1 ∧
  (isRoot state_ab 1 = false ∨ (isCBB state_ab 2 = true ∧ (None : option string) ≠ None)) ∧
  reaches state_ab 1 2 ∧
  reachable (S recursion_limit) (forward_half 2 1 None state_ab) 1 2 ≠ None ∧
  FUDGNode_add_child 2 1 None state_ab = Exn CycleError (forward_half 2 1 None state_ab).
Proof.
  assert (H1 : name state_ab 2 ≠ name state_ab 1) by (vm_compute; discriminate).
  assert (H2 : isRoot state_ab 1 = false ∨
               (isCBB state_ab 2 = true ∧ (None : option string) ≠ None))
    by (left; vm_compute; reflexivity).
  assert (H3 : reaches state_ab 1 2).
  { apply (reaches_child state_ab 1 2 2); [decide_it|apply reaches_here]. }
  assert (H4 : reachable (S recursion_limit) (forward_half 2 1 None state_ab) 1 2 ≠ None)
    by (vm_compute; discriminate).
  split; [exact H1|]. split; [exact H2|]. split; [exact H3|]. split; [exact H4|].
  exact (proj1 (add_child_cycle state_ab 2 1 None H1 H2 H3 H4)).
Defined.

(** The same call: W(a) was no child of W(b) before it, and is one in the
    state the CycleError leaves. *)
Lemma add_child_cycle_not_atomic :
  reaches state_ab 1 2 ∧
  (∃ s', FUDGNode_add_child 2 1 None state_ab = Exn CycleError s') ∧
  (1%nat ∉ children state_ab 2) ∧
  1%nat ∈ children (final (FUDGNode_add_child 2 1 None state_ab)) 2.
Proof.
  split; [|split; [|split]].
  - apply (reaches_child state_ab 1 2 2); [decide_it|apply reaches_here].
  - eexists. vm_compute. reflexivity.
  - decide_it.
  - decide_it.
Qed.


(** The root goes into a bundle under the label "unspec": the parent is a
    bundle but the root is not its designated top, and the call returns. *)
Lemma root_unspec_member_accepted :
  isRoot state_bundle 0 = true ∧
  ¬ (isCBB state_bundle 3 = true ∧ Some "unspec" = Some "top") ∧
  ∃ s', FUDGNode_add_child 3 0 (Some "unspec") state_bundle = Ret tt s'.
Proof.
  split; [by_computation|]. split; [intros [_ [=]]|].
  eexists. vm_compute. reflexivity.
Qed.

(** A bundle whose designated top is already [A] refuses [A] as its
    designated top: the assertion of line 183 asks for no top at all. *)
Lemma add_member_same_top_rejected :
  top state_top 3 = Some 1%nat ∧
  ∃ s', add_member 3 1 true state_top = Exn (AssertionError 183) s'.
Proof. split; [by_computation|]. eexists. vm_compute. reflexivity. Qed.

(** Tokens a b c d, with the root over W(a) and W(d), and W(b) over W(c).
    The root sits in a fragment of three nodes and its yield takes the
    positions 0 and 3 only, yet the query answers true: the loop passes over
    the root. *)
Lemma isProjective_skips_root :
  (∃ s', isProjective state_root_gap = Ret true s') ∧
  0%nat ∈ G_nodes state_root_gap ∧
  (2 ≤ size (nodes state_root_gap (frag state_root_gap 0)))%nat ∧
  yield_positions state_root_gap 0 = Some {[0%nat; 3%nat]} ∧
  ¬ contiguous {[0%nat; 3%nat]}.
Proof.
  split; [eexists; vm_compute; reflexivity|].
  split; [decide_it|]. split; [decide_it|]. split; [by_computation|].
  intros H. specialize (H 0 1 3)%nat. set_solver by lia.
Qed.

(** C2, where the code departs from it.  The seed of the downward pass
    takes nothing away for the descendants, whatever the graph: visiting
    [W(a)] in the graph of [state_ab], whose only edge makes [W(b)] its child,
    leaves [W(b)] among the parent candidates of [W(a)]. *)
Theorem downward_keeps_descendants :
  (∀ (rt : PyRuntime) X s n, py_difference X (descendants s n) = X) ∧
  upward state_ab = Ret tt state_ab_up ∧
  downward state_ab_up = Ret tt state_ab_down ∧
  2%nat ∈ children state_ab_down 1 ∧
  parentcandidates state_ab_down 1 = Some {[0%nat; 2%nat]}.
Proof.
  split; [intros; apply py_difference_descendants|].
  split; [by_computation|]. split; [by_computation|]. split; [decide_it|by_computation].
Qed.

(** The bundle over A and B, neither a designated top. *)
Lemma canonical_nodes_bundle : canonical_nodes state_bundle.
Proof.
  change (set_Forall (λ n, _pointerto state_bundle n = None) (G_nodes state_bundle)).
  decide_it.
Defined.

Lemma upward_bundle : upward state_bundle = Ret tt state_bundle_up.
Proof. vm_compute. reflexivity. Defined.

(** The upward pass on that bundle: its top candidates are {A, B}. *)
Lemma upward_top_candidates_witness :
  canonical_nodes state_bundle ∧ fresh_topcandidates state_bundle ∧
  upward state_bundle = Ret tt state_bundle_up ∧
  3%nat ∈ G_nodes state_bundle ∧ isCBB state_bundle 3 = true ∧
  (∃ v, topcandidates state_bundle_up 3 = Some v ∧ top_spec state_bundle_up 3 v) ∧
  topcandidates state_bundle_up 3 = Some {[1%nat; 2%nat]}.
Proof.
  assert (H2 : fresh_topcandidates state_bundle).
  { change (set_Forall (λ n, f_topcandidates (attrs state_bundle) !! n = None)
                       (G_nodes state_bundle)). decide_it. }
  assert (H4 : 3%nat ∈ G_nodes state_bundle) by decide_it.
  assert (H5 : isCBB state_bundle 3 = true) by (vm_compute; reflexivity).
  split; [exact canonical_nodes_bundle|]. split; [exact H2|]. split; [exact upward_bundle|].
  split; [exact H4|]. split; [exact H5|]. split.
  - exact (upward_top_candidates state_bundle state_bundle_up 3
             canonical_nodes_bundle H2 upward_bundle H4 H5).
  - vm_compute. reflexivity.
Defined.

(** And they hold neither the bundle nor any other bundle. *)
Lemma upward_no_bundles_witness :
  canonical_nodes state_bundle ∧ upward state_bundle = Ret tt state_bundle_up ∧
  3%nat ∈ G_nodes state_bundle ∧ isCBB state_bundle 3 = true ∧
  ∃ v, topcandidates state_bundle_up 3 = Some v ∧ (3%nat ∉ v) ∧
       ∀ x, x ∈ v → isCBB state_bundle_up x = false.
Proof.
  assert (H4 : 3%nat ∈ G_nodes state_bundle) by decide_it.
  assert (H5 : isCBB state_bundle 3 = true) by (vm_compute; reflexivity).
  split; [exact canonical_nodes_bundle|]. split; [exact upward_bundle|].
  split; [exact H4|]. split; [exact H5|].
  exact (upward_no_bundles state_bundle state_bundle_up 3
           canonical_nodes_bundle upward_bundle H4 H5).
Defined.

(** Both passes on the same graph, each run twice. *)
Lemma passes_idempotent_witness :
  (canonical_nodes state_bundle ∧ fresh_topcandidates state_bundle ∧
   upward state_bundle = Ret tt state_bundle_up ∧
   ∃ s2, upward state_bundle_up = Ret tt s2 ∧
         ∀ B, topcandidates s2 B = topcandidates state_bundle_up B) ∧
  (canonical_nodes state_bundle_up ∧ fresh_parentcandidates state_bundle_up ∧
   downward state_bundle_up = Ret tt state_bundle_down ∧
   ∃ s2, downward state_bundle_down = Ret tt s2 ∧
         ∀ n, parentcandidates s2 n = parentcandidates state_bundle_down n).
Proof.
  assert (H2 : fresh_topcandidates state_bundle).
  { change (set_Forall (λ n, f_topcandidates (attrs state_bundle) !! n = None)
                       (G_nodes state_bundle)). decide_it. }
  assert (H1' : canonical_nodes state_bundle_up).
  { change (set_Forall (λ n, _pointerto state_bundle_up n = None) (G_nodes state_bundle_up)).
    decide_it. }
  assert (H2' : fresh_parentcandidates state_bundle_up).
  { change (set_Forall (λ n, f_parentcandidates (attrs state_bundle_up) !! n = None)
                       (G_nodes state_bundle_up)). decide_it. }
  assert (H3' : downward state_bundle_up = Ret tt state_bundle_down)
    by (vm_compute; reflexivity).
  split.
  - split; [exact canonical_nodes_bundle|]. split; [exact H2|]. split; [exact upward_bundle|].
    exact (proj1 (passes_idempotent state_bundle state_bundle_up canonical_nodes_bundle)
                 H2 upward_bundle).
  - split; [exact H1'|]. split; [exact H2'|]. split; [exact H3'|].
    exact (proj2 (passes_idempotent state_bundle_up state_bundle_down H1') H2' H3').
Defined.

(** Two bundles over the same members A and B: the second becomes an alias
    of the first, the graph drops the alias from its nodes, and the upward
    pass writes the top candidates of the first; the alias reads the same
    set. *)
Lemma alias_single_source_witness :
  (1 ≤ recursion_limit)%nat ∧ isCBB state_two_bundles 4 = true ∧ 4%nat ≠ 3%nat ∧
  _pointerto state_two_bundles 3 = None ∧
  become_pointer 4 3 state_two_bundles = Ret tt state_merged ∧
  rtc (step (λ x, x ≠ 4%nat ∧ x ≠ 3%nat)) state_merged state_unified_up ∧
  topcandidates state_unified_up 4 = topcandidates state_unified_up 3 ∧
  topcandidates state_unified_up 4 = Some {[1%nat; 2%nat]}.
Proof.
  assert (H0 : (1 ≤ recursion_limit)%nat) by (change (1 ≤ 1000)%nat; lia).
  assert (H1 : isCBB state_two_bundles 4 = true) by (vm_compute; reflexivity).
  assert (H2 : 4%nat ≠ 3%nat) by lia.
  assert (H3 : _pointerto state_two_bundles 3 = None) by (vm_compute; reflexivity).
  assert (H4 : become_pointer 4 3 state_two_bundles = Ret tt state_merged)
    by (vm_compute; reflexivity).
  assert (H5 : rtc (step (λ x, x ≠ 4%nat ∧ x ≠ 3%nat)) state_merged state_unified_up).
  { apply (rtc_l _ _ state_unified).
    - apply (step_graph _ _ _ {[0%nat; 1%nat; 2%nat; 3%nat]} ["A"; "B"]%string
               (G_token2lexnode state_merged)). reflexivity.
    - apply rtc_once. apply step_upward. vm_compute. reflexivity. }
  split; [exact H0|]. split; [exact H1|]. split; [exact H2|]. split; [exact H3|].
  split; [exact H4|]. split; [exact H5|]. split.
  - exact (proj1 (proj2 (proj2 (proj1
      (alias_single_source state_two_bundles 4 3 state_merged state_unified_up
         H0 H1 H2 H3 H4 H5))))).
  - vm_compute. reflexivity.
Defined.

(** A root, a lexical node, an empty bundle, and the node made a member of
    the bundle. *)
Lemma cbb_children_invariant_witness :
  lifetime life4 ∧ isCBB life4 3 = true ∧
  children life4 3 = members life4 3 ∪ externalchildren life4 3.
Proof.
  assert (H1 : lifetime life4).
  { unfold lifetime.
    apply (rtc_l _ _ life1); [apply (step_RootNode _ _ _ 0%nat ∅); by_computation|].
    apply (rtc_l _ _ life2);
      [apply (step_LexicalNode _ _ _ 1%nat "A" {["A"]}); by_computation|].
    apply (rtc_l _ _ life3);
      [apply (step_CBBNode _ _ _ 3%nat "CBB1" ∅ ∅ None); by_computation|].
    apply rtc_once. apply (step_add_member _ _ _ 3%nat 1%nat false); by_computation. }
  assert (H2 : isCBB life4 3 = true) by (vm_compute; reflexivity).
  split; [exact H1|]. split; [exact H2|].
  exact (cbb_children_invariant life4 3 H1 H2).
Defined.

(** ** The further properties at the examples *)

(** In the graph of [state_ab] the search from [W(a)] for [W(b)] returns
    within a recursion limit of 3. *)
Lemma reachable_decides_witness :
  (∀ n c, c ∈ children state_ab n → (rank_ab c < rank_ab n)%nat) ∧ (rank_ab 1 < 3)%nat ∧
  ∃ r, reachable 3 state_ab 1 2 = Some r ∧ (r = true ↔ reaches state_ab 1 2).
Proof.
  assert (H1 : ∀ n c, c ∈ children state_ab n → (rank_ab c < rank_ab n)%nat).
  { refine (child_edges_check (λ n c, (rank_ab c < rank_ab n)%nat) state_ab _).
    decide_it. }
  assert (H2 : (rank_ab 1 < 3)%nat) by (cbv; lia).
  split; [exact H1|]. split; [exact H2|].
  exact (reachable_decides rank_ab 3 state_ab 1 2 H1 H2).
Defined.

(** After the refused edge, [W(a)] and [W(b)] are on a cycle that does not
    lead to the root: the search for the root overflows. *)
Lemma reachable_cycle_overflow_witness :
  reaches state_cycle 1 1 ∧ 2%nat ∈ children state_cycle 1 ∧ reaches state_cycle 2 1 ∧
  ¬ reaches state_cycle 1 0 ∧
  reachable (S recursion_limit) state_cycle 1 0 = None.
Proof.
  assert (H1 : reaches state_cycle 1 1) by constructor.
  assert (H2 : 2%nat ∈ children state_cycle 1) by decide_it.
  assert (H3 : reaches state_cycle 2 1).
  { apply (reaches_child _ 2%nat 1%nat); [decide_it|constructor]. }
  assert (H4 : ¬ reaches state_cycle 1 0).
  { intros H. apply (reaches_closed {[1%nat; 2%nat]}) in H; [|decide_it|decide_it].
    revert H. decide_it. }
  split; [exact H1|]. split; [exact H2|]. split; [exact H3|]. split; [exact H4|].
  exact (reachable_cycle_overflow state_cycle 1 1 2 0 (S recursion_limit) H1 H2 H3 H4).
Defined.

(** The yield of the root in the graph of [state_root_gap]. *)
Lemma get_yield_tokens_witness :
  get_yield (S recursion_limit) state_root_gap 0 = Some {["a"; "d"]} ∧
  ∀ t, t ∈ ({["a"; "d"]} : gset string) ↔
       ∃ m, reaches state_root_gap 0 m ∧ isLexical state_root_gap m = true ∧
            t ∈ tokens state_root_gap m.
Proof.
  assert (H1 : get_yield (S recursion_limit) state_root_gap 0 = Some {["a"; "d"]})
    by (vm_compute; reflexivity).
  split; [exact H1|].
  exact (get_yield_tokens (S recursion_limit) state_root_gap 0 {["a"; "d"]} H1).
Defined.

Lemma add_child_ab_rooted : FUDGNode_add_child 0 1 None state_ab = Ret tt state_ab_rooted.
Proof. vm_compute. reflexivity. Defined.

Lemma unmerged_ab : unmerged state_ab.
Proof. apply unmerged_check; [vm_compute; reflexivity|decide_it]. Defined.


Lemma add_child_acyclic_witness :
  acyclic state_ab ∧ (∀ n, sets_of state_ab n = sets_of state_ab 0 → n = 0%nat) ∧
  FUDGNode_add_child 0 1 None state_ab = Ret tt state_ab_rooted ∧
  acyclic state_ab_rooted.
Proof.
  assert (H1 : acyclic state_ab) by (apply (acyclic_check 5); decide_it).
  assert (H2 : ∀ n, sets_of state_ab n = sets_of state_ab 0 → n = 0%nat).
  { intros n. rewrite !(proj2 (unmerged_ab _)). done. }
  split; [exact H1|]. split; [exact H2|]. split; [exact add_child_ab_rooted|].
  exact (add_child_acyclic state_ab 0 1 None state_ab_rooted H1 H2 add_child_ab_rooted).
Defined.

Lemma add_child_heights_witness :
  unmerged state_ab ∧ heights_ok state_ab ∧
  (∀ c p, p ∈ parents state_ab c → (rank_ab c < rank_ab p)%nat) ∧
  (rank_ab 1 < rank_ab 0)%nat ∧
  FUDGNode_add_child 0 1 None state_ab = Ret tt state_ab_rooted ∧
  heights_ok state_ab_rooted ∧ height state_ab_rooted 1 + 1 ≤ height state_ab_rooted 0.
Proof.
  assert (H2 : heights_ok state_ab).
  { refine (parent_edges_check (λ c p, height state_ab c + 1 ≤ height state_ab p)
                                state_ab _). decide_it. }
  assert (H3 : ∀ c p, p ∈ parents state_ab c → (rank_ab c < rank_ab p)%nat).
  { refine (parent_edges_check (λ c p, (rank_ab c < rank_ab p)%nat) state_ab _).
    decide_it. }
  assert (H4 : (rank_ab 1 < rank_ab 0)%nat) by (cbv; lia).
  split; [exact unmerged_ab|]. split; [exact H2|]. split; [exact H3|]. split; [exact H4|].
  split; [exact add_child_ab_rooted|].
  exact (add_child_heights rank_ab state_ab 0 1 None state_ab_rooted
           unmerged_ab H2 H3 H4 add_child_ab_rooted).
Defined.

Lemma add_child_fragments_witness :
  frag_ok state_ab ∧ is_Some (f_frag (frags state_ab) !! 0%nat) ∧
  is_Some (f_frag (frags state_ab) !! 1%nat) ∧
  FUDGNode_add_child 0 1 None state_ab = Ret tt state_ab_rooted ∧
  frag_ok state_ab_rooted ∧ frag state_ab_rooted 1 = frag state_ab 0 ∧
  (1%nat ∉ roots state_ab_rooted (frag state_ab_rooted 0)).
Proof.
  assert (H1 : frag_ok state_ab) by (apply frag_ok_check; decide_it).
  assert (H2 : is_Some (f_frag (frags state_ab) !! 0%nat)) by decide_it.
  assert (H3 : is_Some (f_frag (frags state_ab) !! 1%nat)) by decide_it.
  split; [exact H1|]. split; [exact H2|]. split; [exact H3|].
  split; [exact add_child_ab_rooted|].
  pose proof (add_child_fragments state_ab 0 1 None state_ab_rooted
                H1 H2 H3 add_child_ab_rooted) as H.
  split; [exact (proj1 H)|]. split; [exact (proj1 (proj2 (proj2 H)))|].
  exact (proj2 (proj2 (proj2 (proj2 H)))).
Defined.

Lemma canonical_nodes_bundle_up : canonical_nodes state_bundle_up.
Proof.
  change (set_Forall (λ n, _pointerto state_bundle_up n = None) (G_nodes state_bundle_up)).
  decide_it.
Defined.

Lemma downward_bundle_up : downward state_bundle_up = Ret tt state_bundle_down.
Proof. vm_compute. reflexivity. Defined.

(** The downward pass on the bundle over [A] and [B]: the candidates of
    [A]. *)
Lemma downward_candidates_witness :
  canonical_nodes state_bundle_up ∧ downward state_bundle_up = Ret tt state_bundle_down ∧
  1%nat ∈ G_nodes state_bundle_up ∧ isRoot state_bundle_up 1 = false ∧
  ∃ v, parentcandidates state_bundle_down 1 = Some v ∧ v ≠ ∅ ∧ (1%nat ∉ v) ∧
       ∀ x, x ∈ v → x ∈ G_nodes state_bundle_up ∧ isFirm state_bundle_down x = true ∧
                    isCBB state_bundle_down x = false.
Proof.
  assert (H3 : 1%nat ∈ G_nodes state_bundle_up) by decide_it.
  assert (H4 : isRoot state_bundle_up 1 = false) by (vm_compute; reflexivity).
  split; [exact canonical_nodes_bundle_up|]. split; [exact downward_bundle_up|].
  split; [exact H3|]. split; [exact H4|].
  exact (downward_candidates state_bundle_up state_bundle_down 1
           canonical_nodes_bundle_up downward_bundle_up H3 H4).
Defined.

(** In the graph of [state_ab], [W(b)] hangs from [W(a)]. *)
Lemma downward_firm_parent_witness :
  canonical_nodes state_ab_up ∧ downward state_ab_up = Ret tt state_ab_down ∧
  2%nat ∈ G_nodes state_ab_up ∧ isRoot state_ab_up 2 = false ∧
  (1%nat, None) ∈ parentedges state_ab_up 2 ∧ isCBB state_ab_up 1 = false ∧
  parentcandidates state_ab_down 2 = Some {[1%nat]}.
Proof.
  assert (H1 : canonical_nodes state_ab_up).
  { change (set_Forall (λ n, _pointerto state_ab_up n = None) (G_nodes state_ab_up)).
    decide_it. }
  assert (H2 : downward state_ab_up = Ret tt state_ab_down) by (vm_compute; reflexivity).
  assert (H3 : 2%nat ∈ G_nodes state_ab_up) by decide_it.
  assert (H4 : isRoot state_ab_up 2 = false) by (vm_compute; reflexivity).
  assert (H5 : (1%nat, None) ∈ parentedges state_ab_up 2) by decide_it.
  assert (H6 : isCBB state_ab_up 1 = false) by (vm_compute; reflexivity).
  split; [exact H1|]. split; [exact H2|]. split; [exact H3|]. split; [exact H4|].
  split; [exact H5|]. split; [exact H6|].
  exact (downward_firm_parent state_ab_up state_ab_down 2 1 None H1 H2 H3 H4 H5 H6).
Defined.

(** [W(c)] hangs from [W(a)] and from [W(b)]: the pass raises. *)
Lemma downward_two_heads_witness :
  canonical_nodes state_two_heads ∧ 3%nat ∈ G_nodes state_two_heads ∧
  isRoot state_two_heads 3 = false ∧
  (1%nat, None) ∈ parentedges state_two_heads 3 ∧ isCBB state_two_heads 1 = false ∧
  (2%nat, None) ∈ parentedges state_two_heads 3 ∧ isCBB state_two_heads 2 = false ∧
  1%nat ≠ 2%nat ∧
  ∃ err s', downward state_two_heads = Exn err s'.
Proof.
  assert (H1 : canonical_nodes state_two_heads).
  { change (set_Forall (λ n, _pointerto state_two_heads n = None)
                       (G_nodes state_two_heads)). decide_it. }
  assert (H2 : 3%nat ∈ G_nodes state_two_heads) by decide_it.
  assert (H3 : isRoot state_two_heads 3 = false) by (vm_compute; reflexivity).
  assert (H4 : (1%nat, None) ∈ parentedges state_two_heads 3) by decide_it.
  assert (H5 : isCBB state_two_heads 1 = false) by (vm_compute; reflexivity).
  assert (H6 : (2%nat, None) ∈ parentedges state_two_heads 3) by decide_it.
  assert (H7 : isCBB state_two_heads 2 = false) by (vm_compute; reflexivity).
  assert (H8 : 1%nat ≠ 2%nat) by lia.
  split; [exact H1|]. split; [exact H2|]. split; [exact H3|]. split; [exact H4|].
  split; [exact H5|]. split; [exact H6|]. split; [exact H7|]. split; [exact H8|].
  exact (downward_two_heads state_two_heads 3 1 None 2 None H1 H2 H3 H4 H5 H6 H7 H8).
Defined.

(** [C] modifies the bundle over [A] and [B]: its candidates are among the
    top candidates of the bundle. *)
Lemma downward_bundle_modifier_witness :
  canonical_nodes state_modifier_up ∧
  downward state_modifier_up = Ret tt state_modifier_down ∧
  4%nat ∈ G_nodes state_modifier_up ∧ isRoot state_modifier_up 4 = false ∧
  (3%nat, None) ∈ parentedges state_modifier_up 4 ∧ isCBB state_modifier_up 3 = true ∧
  (4%nat ∉ members state_modifier_up 3) ∧
  ∃ v t, parentcandidates state_modifier_down 4 = Some v ∧
         topcandidates state_modifier_down 3 = Some t ∧ v ⊆ t.
Proof.
  assert (H1 : canonical_nodes state_modifier_up).
  { change (set_Forall (λ n, _pointerto state_modifier_up n = None)
                       (G_nodes state_modifier_up)). decide_it. }
  assert (H2 : downward state_modifier_up = Ret tt state_modifier_down)
    by (vm_compute; reflexivity).
  assert (H3 : 4%nat ∈ G_nodes state_modifier_up) by decide_it.
  assert (H4 : isRoot state_modifier_up 4 = false) by (vm_compute; reflexivity).
  assert (H5 : (3%nat, None) ∈ parentedges state_modifier_up 4) by decide_it.
  assert (H6 : isCBB state_modifier_up 3 = true) by (vm_compute; reflexivity).
  assert (H7 : 4%nat ∉ members state_modifier_up 3) by decide_it.
  split; [exact H1|]. split; [exact H2|]. split; [exact H3|]. split; [exact H4|].
  split; [exact H5|]. split; [exact H6|]. split; [exact H7|].
  exact (downward_bundle_modifier state_modifier_up state_modifier_down 4 3 None
           H1 H2 H3 H4 H5 H6 H7).
Defined.

(** [CBB2] becomes an alias of [CBB1]. *)
Lemma become_pointer_merges_witness :
  isCBB state_two_bundles 4 = true ∧
  become_pointer 4 3 state_two_bundles = Ret tt state_merged ∧
  _pointerto state_merged 4 = Some 3%nat ∧ sets_of state_merged 4 = sets_of state_merged 3.
Proof.
  assert (H1 : isCBB state_two_bundles 4 = true) by (vm_compute; reflexivity).
  assert (H2 : become_pointer 4 3 state_two_bundles = Ret tt state_merged)
    by (vm_compute; reflexivity).
  split; [exact H1|]. split; [exact H2|].
  pose proof (become_pointer_merges state_two_bundles 4 3 state_merged H1 H2) as H.
  split; [exact (proj1 (proj2 H))|exact (proj1 (proj2 (proj2 H)))].
Defined.

Lemma canonical_nodes_two_bundles : canonical_nodes state_two_bundles.
Proof.
  change (set_Forall (λ n, _pointerto state_two_bundles n = None)
                     (G_nodes state_two_bundles)). decide_it.
Defined.

Lemma bundles_unmerged_two_bundles : bundles_unmerged {[3%nat; 4%nat]} state_two_bundles.
Proof.
  change (set_Forall (λ b, isCBB state_two_bundles b = true ∧
                           _pointerto state_two_bundles b = None)
                     ({[3%nat; 4%nat]} : gset ref)). decide_it.
Defined.

Lemma merge_two_bundles :
  merge_cbbs {[3%nat; 4%nat]} state_two_bundles = Ret (inr {[3%nat]}) state_merged_cbbs.
Proof. vm_compute. reflexivity. Defined.

(** The merging loop on the two bundles over [A] and [B]. *)
Lemma merge_cbbs_canonical_witness :
  canonical_nodes state_two_bundles ∧ bundles_unmerged {[3%nat; 4%nat]} state_two_bundles ∧
  merge_cbbs {[3%nat; 4%nat]} state_two_bundles = Ret (inr {[3%nat]}) state_merged_cbbs ∧
  canonical_nodes state_merged_cbbs.
Proof.
  split; [exact canonical_nodes_two_bundles|]. split; [exact bundles_unmerged_two_bundles|].
  split; [exact merge_two_bundles|].
  exact (proj1 (merge_cbbs_canonical {[3%nat; 4%nat]} state_two_bundles {[3%nat]}
                  state_merged_cbbs canonical_nodes_two_bundles
                  bundles_unmerged_two_bundles merge_two_bundles)).
Defined.

(** [CBB2] has become an alias of [CBB1] and has left the graph. *)
Lemma merge_cbbs_merged_witness :
  bundles_unmerged {[3%nat; 4%nat]} state_two_bundles ∧
  merge_cbbs {[3%nat; 4%nat]} state_two_bundles = Ret (inr {[3%nat]}) state_merged_cbbs ∧
  _pointerto state_merged_cbbs 4 = Some 3%nat ∧
  _pointerto state_merged_cbbs 3 = None ∧ (4%nat ∉ G_nodes state_merged_cbbs).
Proof.
  assert (H3 : _pointerto state_merged_cbbs 4 = Some 3%nat) by (vm_compute; reflexivity).
  assert (H4 : 4%nat ∈ ({[3%nat; 4%nat]} : gset ref)) by decide_it.
  split; [exact bundles_unmerged_two_bundles|]. split; [exact merge_two_bundles|].
  split; [exact H3|].
  pose proof (proj2 (merge_cbbs_merged {[3%nat; 4%nat]} state_two_bundles {[3%nat]}
                       state_merged_cbbs bundles_unmerged_two_bundles merge_two_bundles)
                    4%nat 3%nat H4 H3) as H.
  split; [exact (proj1 (proj2 H))|exact (proj1 (proj2 (proj2 (proj2 H))))].
Defined.

(** The paths from the root of the graph of [state_root_gap]. *)
Lemma traverse_covers_witness :
  traverse (S recursion_limit) state_root_gap 0 [] [] =
    Some [["$$"]; ["$$"; "d"]; ["$$"; "a"]] ∧
  ∃ new, [["$$"]; ["$$"; "d"]; ["$$"; "a"]] = [] ++ new ∧ new ≠ [] ∧
    ∀ m, below state_root_gap 0 m →
         ∃ lab p, path_label state_root_gap m lab ∧ p ∈ new ∧ lab ∈ p.
Proof.
  assert (H1 : traverse (S recursion_limit) state_root_gap 0 [] [] =
               Some [["$$"]; ["$$"; "d"]; ["$$"; "a"]]) by (vm_compute; reflexivity).
  split; [exact H1|].
  exact (traverse_covers (S recursion_limit) state_root_gap 0 [] []
           [["$$"]; ["$$"; "d"]; ["$$"; "a"]] H1).
Defined.

(** The child edges of the two bundles over [A] and [B] after the merge. *)
Lemma become_pointer_childedges_witness :
  become_pointer 4 3 state_two_bundles = Ret tt state_merged ∧
  childedges state_merged 4 = childedges state_merged 3.
Proof.
  assert (H1 : become_pointer 4 3 state_two_bundles = Ret tt state_merged)
    by (vm_compute; reflexivity).
  split; [exact H1|].
  exact (proj1 (become_pointer_childedges state_two_bundles 4 3 state_merged H1)).
Defined.

End Scenarios.
